(** * Structured-table client core: schema descriptors and the record/row adapter

    A shallow embedding of [proto/structured.go] (schema/descriptor conversion
    and the descriptor validator) and of [client/table.go] (model binding, key
    construction, value marshalling and the row operations of a batch),
    followed by the properties established about them.

    Conventions of the embedding:
    - a Go [string] is a [string]; a Go [[]byte] is a [list byte];
    - a Go slice is a [list]: a nil slice and an empty slice are both [[]]
      (the places where the source tests a slice against nil, the two
      payloads of a KV value, are modelled with [option]);
    - [uint32] is an [N] below [2^32], with the wrap-around of [++] written
      out; [int64]/[uint64] are [Z] with explicit wrapping;
    - a Go map is a [gmap], a map used as a set is a [gset];
    - [fmt.Errorf] builds a tagged error whose [Error] method renders the
      message of the source. *)

From Stdlib Require Import ZArith NArith List Ascii String DecimalString.
From Stdlib.Strings Require Import Byte.
From stdpp Require Import gmap strings list fin_maps sorting.

Local Open Scope string_scope.

(** ** Package proto: tables, schemas and descriptors *)

Module proto.

(** The double quote character, as a one-character string. *)
Definition quote : string := String (ascii_of_nat 34) EmptyString.

(** [%d] on an unsigned integer. *)
Definition fmt_d (n : N) : string := NilZero.string_of_uint (N.to_uint n).

(** [uint32] arithmetic: [x++]. *)
Definition uint32_modulus : N := 4294967296.
Definition uint32_incr (x : N) : N := ((x + 1) mod uint32_modulus)%N.

Inductive Column_ColumnType := BYTES | INT | FLOAT | BOOL | STRING.

Record Column := mkColumn {
  Column_Name : string;
  Column_Type : Column_ColumnType
}.

Record Index := mkIndex {
  Index_Name : string;
  Index_Unique : bool
}.

Record Table := mkTable {
  Table_Name : string
}.

Record TableSchema_IndexByName := mkIndexByName {
  IndexByName_Index : Index;
  IndexByName_ColumnNames : list string
}.

Record TableSchema := mkTableSchema {
  Schema_Table : Table;
  Schema_Columns : list Column;
  Schema_Indexes : list TableSchema_IndexByName
}.

Record ColumnDescriptor := mkColumnDescriptor {
  ColumnDescriptor_ID : N;
  ColumnDescriptor_Column : Column
}.

Record IndexDescriptor := mkIndexDescriptor {
  IndexDescriptor_ID : N;
  IndexDescriptor_Index : Index;
  IndexDescriptor_ColumnIDs : list N
}.

Record TableDescriptor := mkTableDescriptor {
  Desc_Table : Table;
  Desc_Columns : list ColumnDescriptor;
  Desc_Indexes : list IndexDescriptor;
  Desc_NextColumnID : N;
  Desc_NextIndexID : N
}.

(** Promoted fields of the embedded structs. *)
Definition cd_Name (c : ColumnDescriptor) : string := Column_Name (ColumnDescriptor_Column c).
Definition id_Name (i : IndexDescriptor) : string := Index_Name (IndexDescriptor_Index i).
Definition desc_Name (d : TableDescriptor) : string := Table_Name (Desc_Table d).

(** The errors built by [fmt.Errorf] in [validateName] and
    [ValidateTableDesc]: one constructor per format string, carrying the
    arguments of the call. *)
Inductive ValidationError :=
| EmptyName (typ : string)
| NameContainsSlash (name : string)
| NoColumns
| DuplicateColumnName (name : string)
| DuplicateColumnID (name : string) (id : N)
| InvalidColumnID (name : string) (id next : N)
| NoIndexes
| DuplicateIndexName (name : string)
| DuplicateIndexID (name : string) (id : N)
| InvalidIndexID (name : string) (id next : N)
| IndexNoColumns (name : string)
| IndexUnknownColumn (name : string) (id : N).

(** [err.Error()]: the message of each error, as formatted by the source. *)
Definition Error (e : ValidationError) : string :=
  match e with
  | EmptyName typ => "empty " ++ typ ++ " name"
  | NameContainsSlash name => quote ++ name ++ quote ++ " may not contain " ++ quote ++ "/" ++ quote
  | NoColumns => "table must contain at least 1 column"
  | DuplicateColumnName name => "duplicate column name: " ++ quote ++ name ++ quote
  | DuplicateColumnID name id =>
      "column " ++ quote ++ name ++ quote ++ " duplicate ID: " ++ fmt_d id
  | InvalidColumnID name id next =>
      "column " ++ quote ++ name ++ quote ++ " invalid ID (" ++ fmt_d id
        ++ ") > next column ID (" ++ fmt_d next ++ ")"
  | NoIndexes => "table must contain at least 1 index"
  | DuplicateIndexName name => "duplicate index name: " ++ quote ++ name ++ quote
  | DuplicateIndexID name id =>
      "index " ++ quote ++ name ++ quote ++ " duplicate ID: " ++ fmt_d id
  | InvalidIndexID name id next =>
      "index " ++ quote ++ name ++ quote ++ " invalid index ID (" ++ fmt_d id
        ++ ") > next index ID (" ++ fmt_d next ++ ")"
  | IndexNoColumns name => "index " ++ quote ++ name ++ quote ++ " must contain at least 1 column"
  | IndexUnknownColumn name id =>
      "index " ++ quote ++ name ++ quote ++ " contains unknown column ID " ++ fmt_d id
  end.

(** [strings.Index(name, "/") != -1]. *)
Definition containsSlash (name : string) : bool :=
  match index 0 "/" name with
  | Some _ => true
  | None => false
  end.

(** [validateName]: [None] is the nil error. *)
Definition validateName (name typ : string) : option ValidationError :=
  if Nat.eqb (String.length name) 0 then Some (EmptyName typ)
  else if containsSlash name then Some (NameContainsSlash name)
  else None.

(** The loop over [desc.Columns] of [ValidateTableDesc]. The two maps of
    the source are threaded through the iterations; an error ends the loop.
    On success the loop hands [columnsByID] to the code after it. *)
Fixpoint validateColumns (next : N) (columns : list ColumnDescriptor)
    (columnsByName : gset string) (columnsByID : gset N)
    : ValidationError + gset N :=
  match columns with
  | [] => inr columnsByID
  | column :: rest =>
      match validateName (cd_Name column) "column" with
      | Some err => inl err
      | None =>
          if bool_decide (cd_Name column ∈ columnsByName)
          then inl (DuplicateColumnName (cd_Name column))
          else
            let columnsByName := {[cd_Name column]} ∪ columnsByName in
            if bool_decide (ColumnDescriptor_ID column ∈ columnsByID)
            then inl (DuplicateColumnID (cd_Name column) (ColumnDescriptor_ID column))
            else
              let columnsByID := {[ColumnDescriptor_ID column]} ∪ columnsByID in
              if (next <=? ColumnDescriptor_ID column)%N
              then inl (InvalidColumnID (cd_Name column) (ColumnDescriptor_ID column) next)
              else validateColumns next rest columnsByName columnsByID
      end
  end.

(** The inner loop over [index.ColumnIDs]. *)
Fixpoint validateIndexColumnIDs (name : string) (columnIDs : list N)
    (columnsByID : gset N) : option ValidationError :=
  match columnIDs with
  | [] => None
  | columnID :: rest =>
      if bool_decide (columnID ∈ columnsByID)
      then validateIndexColumnIDs name rest columnsByID
      else Some (IndexUnknownColumn name columnID)
  end.

(** The loop over [desc.Indexes]. *)
Fixpoint validateIndexes (next : N) (indexes : list IndexDescriptor)
    (columnsByID : gset N) (indexesByName : gset string) (indexesByID : gset N)
    : option ValidationError :=
  match indexes with
  | [] => None
  | index :: rest =>
      match validateName (id_Name index) "index" with
      | Some err => Some err
      | None =>
          if bool_decide (id_Name index ∈ indexesByName)
          then Some (DuplicateIndexName (id_Name index))
          else
            let indexesByName := {[id_Name index]} ∪ indexesByName in
            if bool_decide (IndexDescriptor_ID index ∈ indexesByID)
            then Some (DuplicateIndexID (id_Name index) (IndexDescriptor_ID index))
            else
              let indexesByID := {[IndexDescriptor_ID index]} ∪ indexesByID in
              if (next <=? IndexDescriptor_ID index)%N
              then Some (InvalidIndexID (id_Name index) (IndexDescriptor_ID index) next)
              else
                match IndexDescriptor_ColumnIDs index with
                | [] => Some (IndexNoColumns (id_Name index))
                | _ :: _ =>
                    match validateIndexColumnIDs (id_Name index)
                            (IndexDescriptor_ColumnIDs index) columnsByID with
                    | Some err => Some err
                    | None => validateIndexes next rest columnsByID indexesByName indexesByID
                    end
                end
      end
  end.

(** [ValidateTableDesc]: [None] is the nil error. *)
Definition ValidateTableDesc (desc : TableDescriptor) : option ValidationError :=
  match validateName (desc_Name desc) "table" with
  | Some err => Some err
  | None =>
      match Desc_Columns desc with
      | [] => Some NoColumns
      | _ :: _ =>
          match validateColumns (Desc_NextColumnID desc) (Desc_Columns desc) ∅ ∅ with
          | inl err => Some err
          | inr columnsByID =>
              match Desc_Indexes desc with
              | [] => Some NoIndexes
              | _ :: _ =>
                  validateIndexes (Desc_NextIndexID desc) (Desc_Indexes desc)
                    columnsByID ∅ ∅
              end
          end
      end
  end.

(** The message returned by the validator, as the tests compare it. *)
Definition ValidateTableDesc_message (desc : TableDescriptor) : option string :=
  Error <$> ValidateTableDesc desc.

Section Conversion.

(** [strings.ToLower] of the Go standard library. *)
Variable ToLower : string -> string.

Definition lowerColumn (c : Column) : Column :=
  {| Column_Name := ToLower (Column_Name c); Column_Type := Column_Type c |}.

Definition lowerIndex (i : Index) : Index :=
  {| Index_Name := ToLower (Index_Name i); Index_Unique := Index_Unique i |}.

(** One iteration per schema column: the descriptor under construction and
    [columnsByName] are the loop state. *)
Fixpoint descColumns (columns : list Column) (desc : TableDescriptor)
    (columnsByName : gmap string N) : TableDescriptor * gmap string N :=
  match columns with
  | [] => (desc, columnsByName)
  | column :: rest =>
      let columnDesc :=
        {| ColumnDescriptor_ID := Desc_NextColumnID desc;
           ColumnDescriptor_Column := lowerColumn column |} in
      let columnsByName :=
        <[cd_Name columnDesc := ColumnDescriptor_ID columnDesc]> columnsByName in
      let desc :=
        {| Desc_Table := Desc_Table desc;
           Desc_Columns := Desc_Columns desc ++ [columnDesc];
           Desc_Indexes := Desc_Indexes desc;
           Desc_NextColumnID := uint32_incr (Desc_NextColumnID desc);
           Desc_NextIndexID := Desc_NextIndexID desc |} in
      descColumns rest desc columnsByName
  end.

(** [indexDesc.ColumnIDs]: a missing map key reads as the zero ID. *)
Definition columnIDsOf (columnsByName : gmap string N) (names : list string) : list N :=
  map (fun columnName => default 0%N (columnsByName !! columnName)) names.

Fixpoint descIndexes (indexes : list TableSchema_IndexByName) (desc : TableDescriptor)
    (columnsByName : gmap string N) : TableDescriptor :=
  match indexes with
  | [] => desc
  | index :: rest =>
      let indexDesc :=
        {| IndexDescriptor_ID := Desc_NextIndexID desc;
           IndexDescriptor_Index := lowerIndex (IndexByName_Index index);
           IndexDescriptor_ColumnIDs :=
             columnIDsOf columnsByName (IndexByName_ColumnNames index) |} in
      let desc :=
        {| Desc_Table := Desc_Table desc;
           Desc_Columns := Desc_Columns desc;
           Desc_Indexes := Desc_Indexes desc ++ [indexDesc];
           Desc_NextColumnID := Desc_NextColumnID desc;
           Desc_NextIndexID := uint32_incr (Desc_NextIndexID desc) |} in
      descIndexes rest desc columnsByName
  end.

(** [TableDescFromSchema]. *)
Definition TableDescFromSchema (schema : TableSchema) : TableDescriptor :=
  let desc :=
    {| Desc_Table := {| Table_Name := ToLower (Table_Name (Schema_Table schema)) |};
       Desc_Columns := [];
       Desc_Indexes := [];
       Desc_NextColumnID := 0;
       Desc_NextIndexID := 0 |} in
  let '(desc, columnsByName) := descColumns (Schema_Columns schema) desc ∅ in
  descIndexes (Schema_Indexes schema) desc columnsByName.

End Conversion.

(** The first loop of [TableSchemaFromDesc]. *)
Fixpoint schemaColumns (columns : list ColumnDescriptor) (schema : TableSchema)
    (columnsByID : gmap N string) : TableSchema * gmap N string :=
  match columns with
  | [] => (schema, columnsByID)
  | column :: rest =>
      let schema :=
        {| Schema_Table := Schema_Table schema;
           Schema_Columns := Schema_Columns schema ++ [ColumnDescriptor_Column column];
           Schema_Indexes := Schema_Indexes schema |} in
      schemaColumns rest schema (<[ColumnDescriptor_ID column := cd_Name column]> columnsByID)
  end.

(** [i.ColumnNames]: a missing map key reads as the empty name. *)
Definition columnNamesOf (columnsByID : gmap N string) (ids : list N) : list string :=
  map (fun columnID => default EmptyString (columnsByID !! columnID)) ids.

Fixpoint schemaIndexes (indexes : list IndexDescriptor) (schema : TableSchema)
    (columnsByID : gmap N string) : TableSchema :=
  match indexes with
  | [] => schema
  | index :: rest =>
      let i :=
        {| IndexByName_Index := IndexDescriptor_Index index;
           IndexByName_ColumnNames :=
             columnNamesOf columnsByID (IndexDescriptor_ColumnIDs index) |} in
      let schema :=
        {| Schema_Table := Schema_Table schema;
           Schema_Columns := Schema_Columns schema;
           Schema_Indexes := Schema_Indexes schema ++ [i] |} in
      schemaIndexes rest schema columnsByID
  end.

(** [TableSchemaFromDesc]. *)
Definition TableSchemaFromDesc (desc : TableDescriptor) : TableSchema :=
  let schema :=
    {| Schema_Table := Desc_Table desc; Schema_Columns := []; Schema_Indexes := [] |} in
  let '(schema, columnsByID) := schemaColumns (Desc_Columns desc) schema ∅ in
  schemaIndexes (Desc_Indexes desc) schema columnsByID.

(** [strings.ToLower] on the ASCII range: the letters [A]-[Z] are moved to
    [a]-[z], every other byte is kept. *)
Definition lower_ascii (c : ascii) : ascii :=
  let n := nat_of_ascii c in
  if (65 <=? n)%nat && (n <=? 90)%nat then ascii_of_nat (n + 32) else c.

Fixpoint ToLowerASCII (s : string) : string :=
  match s with
  | EmptyString => EmptyString
  | String c rest => String (lower_ascii c) (ToLowerASCII rest)
  end.

End proto.

(** ** Package util/encoding: the order-preserving key codec

    The codec is not part of the sources at hand; [client/table.go] only
    calls it. It is taken as an interface, with the properties the
    specification requires of it as laws. An encoder appends the encoding
    of its value to the buffer it is given; a decoder returns the remaining
    bytes and the decoded value. A [float64] is represented by its IEEE-754
    bit pattern, so [math.Float64bits] and [math.Float64frombits] are the
    identity on the representation. *)

Local Open Scope list_scope.

Module encoding.

Class Encoding := {
  EncodeBytes : list byte -> list byte -> list byte;
  DecodeBytes : list byte -> list byte -> list byte * list byte;
  EncodeVarint : list byte -> Z -> list byte;
  DecodeVarint : list byte -> list byte * Z;
  EncodeUvarint : list byte -> Z -> list byte;
  DecodeUvarint : list byte -> list byte * Z;
  EncodeNumericFloat : list byte -> Z -> list byte;
  DecodeNumericFloat : list byte -> list byte * Z
}.

Definition int64_range (i : Z) : Prop := (- 2 ^ 63 <= i < 2 ^ 63)%Z.
Definition uint64_range (u : Z) : Prop := (0 <= u < 2 ^ 64)%Z.

(** Encoders append to their buffer; decoding what was encoded returns the
    value and exactly the bytes that followed it (self-delimiting round
    trip, on the representable values of each type). *)
Class EncodingLaws (E : Encoding) : Prop := {
  EncodeBytes_app : forall b v, EncodeBytes b v = b ++ EncodeBytes [] v;
  EncodeVarint_app : forall b i, EncodeVarint b i = b ++ EncodeVarint [] i;
  EncodeUvarint_app : forall b u, EncodeUvarint b u = b ++ EncodeUvarint [] u;
  EncodeNumericFloat_app :
    forall b f, EncodeNumericFloat b f = b ++ EncodeNumericFloat [] f;
  DecodeBytes_Encode :
    forall v rest, DecodeBytes (EncodeBytes [] v ++ rest) [] = (rest, v);
  DecodeVarint_Encode :
    forall i rest, int64_range i -> DecodeVarint (EncodeVarint [] i ++ rest) = (rest, i);
  DecodeUvarint_Encode :
    forall u rest, uint64_range u -> DecodeUvarint (EncodeUvarint [] u ++ rest) = (rest, u);
  DecodeNumericFloat_Encode :
    forall f rest, uint64_range f ->
      DecodeNumericFloat (EncodeNumericFloat [] f ++ rest) = (rest, f)
}.

End encoding.

(** ** Package client: the record/row adapter of [table.go] *)

Module client.

Import encoding.

(** *** Reflected values *)

(** The widths of the sized integer kinds. [int], [uint] and [uintptr] are
    64 bits wide on the platforms the program targets and are [W64]. *)
Inductive IntSize := W8 | W16 | W32 | W64.

Definition bits (w : IntSize) : Z :=
  match w with W8 => 8 | W16 => 16 | W32 => 32 | W64 => 64 end.

(** The conversion to a signed [w]-bit integer (two's complement
    truncation), and to an unsigned one. *)
Definition wrap_signed (w : Z) (x : Z) : Z :=
  ((x + 2 ^ (w - 1)) mod 2 ^ w - 2 ^ (w - 1))%Z.
Definition wrap_unsigned (w : Z) (x : Z) : Z := (x mod 2 ^ w)%Z.

(** The interface types that the type switches of [table.go] name, and
    any other interface type. *)
Inductive Iface := IMessage | IBinaryMarshaler | IAny.

(** What a serialization method ([gogoproto.Marshal] on a message,
    [MarshalBinary]) returns on a value: bytes (a nil slice is [None]) or
    an error, known by its message. The methods belong to the types of
    the caller, not to the sources at hand, so a field carries their
    outcome. *)
Inductive Serialized :=
| Marshalled (data : option (list byte))
| MarshalFailed (msg : string).

(** A field of a record as [reflect] presents it: its kind together with
    its current content. [VString false] is the type [string] itself and
    [VString true] a named type of kind String; [VBytes] is the type
    [[]byte], whose nil slice is [None]; floats are held as bit patterns.
    [VNil] is a field of an interface type that holds nil; [VMessage] and
    [VBinaryMarshaler] are fields of a type that is not of a scalar kind
    (a struct, a pointer to one) and implements [gogoproto.Message], or
    else [encoding.BinaryMarshaler] (as [time.Time] does): [out] is what
    the serialization method returns on the current content of the field,
    and [zero], which belongs to the type as a width does, what it returns
    on the zero value of the type. [VOther] stands for a field of any
    other type that none of the switches has a case for: a plain struct,
    a map, a complex number.

    Not modelled: a field of an interface type that holds a value (the
    switches of [encodeTableKey] and [marshalTableValue] see the value,
    those of [decodeTableKey] and [unmarshalTableValue] the interface
    type), a named type of a scalar kind that has a serialization method,
    and unexported fields, on which [v.Interface()] panics. *)
Inductive FieldValue :=
| VBool (b : bool)
| VInt (w : IntSize) (i : Z)
| VUint (w : IntSize) (u : Z)
| VFloat32 (f : Z)
| VFloat64 (f : Z)
| VString (named : bool) (s : string)
| VBytes (t : option (list byte))
| VNil (i : Iface)
| VMessage (zero out : Serialized)
| VBinaryMarshaler (zero out : Serialized)
| VOther.

(** The kind of a field, as far as the kind switches of [table.go]
    distinguish kinds: [KOther] is every kind they have no case for
    (Interface, Struct, Ptr, Map, ...). *)
Inductive Kind :=
| KBool
| KInt (w : IntSize)
| KUint (w : IntSize)
| KFloat32
| KFloat64
| KString (named : bool)
| KBytes
| KOther.

(** [v.Type()], reduced to the kind. *)
Definition KindOf (v : FieldValue) : Kind :=
  match v with
  | VBool _ => KBool
  | VInt w _ => KInt w
  | VUint w _ => KUint w
  | VFloat32 _ => KFloat32
  | VFloat64 _ => KFloat64
  | VString named _ => KString named
  | VBytes _ => KBytes
  | VNil _ | VMessage _ _ | VBinaryMarshaler _ _ | VOther => KOther
  end.

(** [reflect.Zero] of a field type, from its kind, as a record type gives
    it. The zero value of a type of kind [KOther] is not modelled further
    there: it is [VOther] whatever the type. *)
Definition Zero (k : Kind) : FieldValue :=
  match k with
  | KBool => VBool false
  | KInt w => VInt w 0
  | KUint w => VUint w 0
  | KFloat32 => VFloat32 0
  | KFloat64 => VFloat64 0
  | KString named => VString named EmptyString
  | KBytes => VBytes None
  | KOther => VOther
  end.

(** [reflect.Zero(v.Type())], from a field of the type. *)
Definition ZeroOf (v : FieldValue) : FieldValue :=
  match v with
  | VNil i => VNil i
  | VMessage zero _ => VMessage zero zero
  | VBinaryMarshaler zero _ => VBinaryMarshaler zero zero
  | _ => Zero (KindOf v)
  end.

(** A record type: its name and, for each of its fields in order (nested
    anonymous structs flattened), the column name of the field and the
    kind of its type. *)
Record StructType := mkStructType {
  st_Name : string;
  st_Fields : list (string * Kind)
}.

(** A record instance: its type and the current content of its fields. *)
Record StructVal := mkStructVal {
  sv_Type : StructType;
  sv_Fields : list FieldValue
}.

(** [v.FieldByIndex(f.Index)]: the locator of a field is its position. A
    record instance has one entry per field of its type, so the fallback is
    not reached with the locators of the instance's own type. *)
Definition FieldByIndex (v : StructVal) (f : nat) : FieldValue :=
  default VOther (sv_Fields v !! f).

(** Assignment through [v.FieldByIndex(f.Index)]. *)
Definition SetFieldByIndex (v : StructVal) (f : nat) (x : FieldValue) : StructVal :=
  {| sv_Type := sv_Type v; sv_Fields := <[f := x]> (sv_Fields v) |}.

(** [reflect.Zero] of a record type. *)
Definition zeroStruct (t : StructType) : StructVal :=
  {| sv_Type := t; sv_Fields := map (fun cf => Zero (snd cf)) (st_Fields t) |}.

(** The types of the record arguments: a record type or a pointer to one. *)
Inductive Type_ :=
| Struct (t : StructType)
| Ptr (t : StructType).

(** [deref]: the record type behind a handle. *)
Definition deref (t : Type_) : StructType :=
  match t with Struct s => s | Ptr s => s end.

Definition loc := nat.

(** An [interface{}] argument holding a record: a record passed by value,
    or a non-nil pointer to a record stored at [l] whose content at the
    time of the call is [s]. *)
Inductive Interface :=
| IStruct (s : StructVal)
| IPtr (l : loc) (s : StructVal).

(** [reflect.TypeOf(obj)]. *)
Definition TypeOf (obj : Interface) : Type_ :=
  match obj with
  | IStruct s => Struct (sv_Type s)
  | IPtr _ s => Ptr (sv_Type s)
  end.

(** [reflect.Indirect(reflect.ValueOf(obj))]. *)
Definition Indirect (obj : Interface) : StructVal :=
  match obj with
  | IStruct s => s
  | IPtr _ s => s
  end.

(** The [dest] argument of [ScanStruct]: a pointer to a slice whose element
    type is a record type or a pointer to one, or something else. For a
    slice of pointers the model keeps the records pointed to. *)
Inductive Dest :=
| DSlicePtr (l : loc) (elem : Type_)
| DNotPointer
| DNotSlice (l : loc).

(** The caller's memory reachable through the handles given to the
    operations. *)
Inductive HeapObj :=
| HStruct (s : StructVal)
| HSlice (elems : list StructVal).

Abbreviation Heap := (gmap loc HeapObj).

(** *** The platform *)

(** What the Go runtime contributes: the conversions between [float32]
    and [float64] (on bit patterns) used by [Value.Float] and
    [Value.SetFloat], and the order in which a [range] over a field map
    visits its keys. *)
Class GoRuntime := {
  float32to64 : Z -> Z;
  float64to32 : Z -> Z;
  rangeKeys : gmap string nat -> list string
}.

(** The [float32] bit pattern is a NaN: the exponent bits are all set and
    the fraction is not zero. *)
Definition isNaN32 (f : Z) : bool := (2139095040 <? f mod 2 ^ 31)%Z.

(** Widening a [float32] number or infinity is exact, so narrowing the
    result gives the [float32] back; nothing is asked of the conversion
    of a NaN, whose payload a platform may change (a signalling NaN comes
    out quiet); narrowing positive zero gives positive zero; a [range]
    visits every key of a map once. *)
Class GoRuntimeLaws (R : GoRuntime) : Prop := {
  float32to64_range : forall f, (0 <= f < 2 ^ 32)%Z -> uint64_range (float32to64 f);
  float64to32_float32to64 :
    forall f, (0 <= f < 2 ^ 32)%Z -> isNaN32 f = false ->
              float64to32 (float32to64 f) = f;
  float64to32_zero : float64to32 0 = 0%Z;
  rangeKeys_perm : forall m : gmap string nat, rangeKeys m ≡ₚ (map_to_list m).*1
}.

(** *** KV values, requests and responses (package proto) *)

(** [proto.Value]: at most one of the two payloads, and a checksum. *)
Record Value := mkValue {
  Value_Bytes : option (list byte);
  Value_Integer : option Z;
  Value_Checksum : option N
}.

Definition GetInteger (v : Value) : Z := default 0%Z (Value_Integer v).

(** The checksum function behind [Value.InitChecksum]. *)
Class ValueChecksum := {
  computeChecksum : Value -> list byte -> N
}.

Record KeyValue := mkKeyValue {
  KeyValue_Key : list byte;
  KeyValue_Value : Value
}.

Inductive Request :=
| GetRequest (key : list byte)
| PutRequest (key : list byte) (value : Value)
| IncrementRequest (key : list byte) (increment : Z)
| ScanRequest (key endKey : list byte) (maxResults : Z)
| DeleteRequest (key : list byte).

Inductive Response :=
| GetResponse (value : option Value)
| PutResponse
| IncrementResponse (newValue : Z)
| ScanResponse (rows : list KeyValue)
| DeleteResponse.

(** *** Errors *)

(** The errors of [table.go], one constructor per [fmt.Errorf] format.
    [ErrSerialize] is the error of a serialization method, which
    [marshalTableValue] returns as it is. [ErrPanic] marks the run-time
    panics of a post-reply decoder handed a reply or a target of the wrong
    shape. *)
Inductive error :=
| ErrEncodeKey (v : FieldValue)
| ErrDecodeKey (v : FieldValue)
| ErrNoField (table column : string)
| ErrUnexpectedTable (table : string) (name : list byte)
| ErrAlreadyDefined (table : string) (t : StructType)
| ErrPointerRequired (t : Type_)
| ErrNoModel (t : StructType)
| ErrDestNotSlicePtr
| ErrStartKeyType (modelT t : StructType)
| ErrEndKeyType (modelT t : StructType)
| ErrMarshal (v : FieldValue)
| ErrSerialize (msg : string)
| ErrUnmarshalInteger (dest : FieldValue)
| ErrUnmarshalBytes (dest : FieldValue)
| ErrUnmarshal (dest : FieldValue)
| ErrPanic.

Inductive errorOr (A : Type) :=
| Ok (a : A)
| Err (e : error).
Arguments Ok {A} a.
Arguments Err {A} e.

#[global] Instance byte_eq_dec : EqDecision byte := Byte.byte_eq_dec.

#[global] Instance byte_countable : Countable byte :=
  inj_countable Byte.to_N Byte.of_N Byte.of_to_N.

(** The contents of the KV store. *)
Abbreviation Store := (gmap (list byte) Value).

Section Code.

Context {E : Encoding} {R : GoRuntime} {C : ValueChecksum}.

(** [v.Float()]: a [float32] field is widened. *)
Definition Float (v : FieldValue) : Z :=
  match v with
  | VFloat32 f => float32to64 f
  | VFloat64 f => f
  | _ => 0
  end.

(** [[]byte] contents of a possibly nil slice. *)
Definition bytesOf (t : option (list byte)) : list byte := default [] t.

(** [encodeTableKey]. *)
Definition encodeTableKey (b : list byte) (v : FieldValue) : errorOr (list byte) :=
  match v with
  | VBytes t => Ok (EncodeBytes b (bytesOf t))
  | VString false t => Ok (EncodeBytes b (list_byte_of_string t))
  | VBool true => Ok (EncodeVarint b 1)
  | VBool false => Ok (EncodeVarint b 0)
  | VInt _ i => Ok (EncodeVarint b i)
  | VUint _ u => Ok (EncodeUvarint b u)
  | VFloat32 _ | VFloat64 _ => Ok (EncodeNumericFloat b (Float v))
  | VString true s => Ok (EncodeBytes b (list_byte_of_string s))
  | VNil _ | VMessage _ _ | VBinaryMarshaler _ _ | VOther => Err (ErrEncodeKey v)
  end.

(** [decodeTableKey]: the returned field is the content of [v] after the
    call. [SetInt], [SetUint] and [SetFloat] convert to the width of the
    field. *)
Definition decodeTableKey (b : list byte) (v : FieldValue)
    : errorOr (list byte * FieldValue) :=
  match v with
  | VBytes _ =>
      let '(b, t) := DecodeBytes b [] in
      Ok (b, VBytes (Some t))
  | VString false _ =>
      let '(b, r) := DecodeBytes b [] in
      Ok (b, VString false (string_of_list_byte r))
  | VBool _ =>
      let '(b, i) := DecodeVarint b in
      Ok (b, VBool (negb (i =? 0)%Z))
  | VInt w _ =>
      let '(b, i) := DecodeVarint b in
      Ok (b, VInt w (wrap_signed (bits w) i))
  | VUint w _ =>
      let '(b, i) := DecodeUvarint b in
      Ok (b, VUint w (wrap_unsigned (bits w) i))
  | VFloat32 _ =>
      let '(b, f) := DecodeNumericFloat b in
      Ok (b, VFloat32 (float64to32 f))
  | VFloat64 _ =>
      let '(b, f) := DecodeNumericFloat b in
      Ok (b, VFloat64 f)
  | VString true _ =>
      let '(b, r) := DecodeBytes b [] in
      Ok (b, VString true (string_of_list_byte r))
  | VNil _ | VMessage _ _ | VBinaryMarshaler _ _ | VOther => Err (ErrDecodeKey v)
  end.

(** What [marshalTableValue] makes of the outcome of a serialization
    method: [r.Bytes, err = ...; return r, err]. *)
Definition serialized (out : Serialized) : errorOr Value :=
  match out with
  | Marshalled data =>
      Ok {| Value_Bytes := data; Value_Integer := None; Value_Checksum := None |}
  | MarshalFailed msg => Err (ErrSerialize msg)
  end.

(** [marshalTableValue]: the type switch on [v.Interface()] (nil, string,
    byte slice, message, binary marshaler), then the switch on the kind. *)
Definition marshalTableValue (v : FieldValue) : errorOr Value :=
  let r := {| Value_Bytes := None; Value_Integer := None; Value_Checksum := None |} in
  match v with
  | VNil _ => Ok r
  | VString false t =>
      Ok {| Value_Bytes := Some (list_byte_of_string t);
            Value_Integer := Value_Integer r; Value_Checksum := Value_Checksum r |}
  | VBytes t =>
      Ok {| Value_Bytes := t;
            Value_Integer := Value_Integer r; Value_Checksum := Value_Checksum r |}
  | VMessage _ out => serialized out
  | VBinaryMarshaler _ out => serialized out
  | VBool b =>
      let i := if b then 1%Z else 0%Z in
      Ok {| Value_Bytes := Value_Bytes r;
            Value_Integer := Some i; Value_Checksum := Value_Checksum r |}
  | VInt _ i =>
      Ok {| Value_Bytes := Value_Bytes r;
            Value_Integer := Some i; Value_Checksum := Value_Checksum r |}
  | VUint _ u =>
      Ok {| Value_Bytes := Value_Bytes r;
            Value_Integer := Some (wrap_signed 64 u); Value_Checksum := Value_Checksum r |}
  | VFloat32 _ | VFloat64 _ =>
      Ok {| Value_Bytes := Value_Bytes r;
            Value_Integer := Some (wrap_signed 64 (Float v));
            Value_Checksum := Value_Checksum r |}
  | VString true s =>
      Ok {| Value_Bytes := Some (list_byte_of_string s);
            Value_Integer := Value_Integer r; Value_Checksum := Value_Checksum r |}
  | VOther => Err (ErrMarshal v)
  end.

(** [unmarshalTableValue]: [src] is the pointer argument ([None] is nil),
    [dest] the field as it is before the call; the result is the field
    after the call. The type switch is on the pointer to the field, so it
    sees the declared type of the field: the two cases that panic are
    reached by a field declared of the interface type itself. *)
Definition unmarshalTableValue (src : option Value) (dest : FieldValue)
    : errorOr FieldValue :=
  match src with
  | None => Ok (ZeroOf dest)
  | Some src =>
      match dest with
      | VString false _ =>
          match Value_Integer src with
          | Some _ => Err (ErrUnmarshalInteger dest)
          | None =>
              match Value_Bytes src with
              | Some bs => Ok (VString false (string_of_list_byte bs))
              | None => Ok (VString false EmptyString)
              end
          end
      | VBytes _ =>
          match Value_Integer src with
          | Some _ => Err (ErrUnmarshalInteger dest)
          | None =>
              match Value_Bytes src with
              | Some bs => Ok (VBytes (Some bs))
              | None => Ok (VBytes None)
              end
          end
      | VBool _ =>
          match Value_Bytes src with
          | Some _ => Err (ErrUnmarshalBytes dest)
          | None => Ok (VBool (negb (GetInteger src =? 0)%Z))
          end
      | VInt w _ =>
          match Value_Bytes src with
          | Some _ => Err (ErrUnmarshalBytes dest)
          | None => Ok (VInt w (wrap_signed (bits w) (GetInteger src)))
          end
      | VUint w _ =>
          match Value_Bytes src with
          | Some _ => Err (ErrUnmarshalBytes dest)
          | None =>
              Ok (VUint w (wrap_unsigned (bits w) (wrap_unsigned 64 (GetInteger src))))
          end
      | VFloat32 _ =>
          match Value_Bytes src with
          | Some _ => Err (ErrUnmarshalBytes dest)
          | None => Ok (VFloat32 (float64to32 (wrap_unsigned 64 (GetInteger src))))
          end
      | VFloat64 _ =>
          match Value_Bytes src with
          | Some _ => Err (ErrUnmarshalBytes dest)
          | None => Ok (VFloat64 (wrap_unsigned 64 (GetInteger src)))
          end
      | VString true _ =>
          match Value_Integer src with
          | Some _ => Err (ErrUnmarshalInteger dest)
          | None => Ok (VString true (string_of_list_byte (bytesOf (Value_Bytes src))))
          end
      | VNil IMessage | VNil IBinaryMarshaler => Err ErrPanic
      | VNil IAny | VMessage _ _ | VBinaryMarshaler _ _ | VOther =>
          Err (ErrUnmarshal dest)
      end
  end.

(** Modelled from the spec: [Value.InitChecksum], which "initialises its
    integrity checksum over the cell key"; a checksum already present is
    kept. *)
Definition InitChecksum (v : Value) (key : list byte) : Value :=
  match Value_Checksum v with
  | Some _ => v
  | None =>
      {| Value_Bytes := Value_Bytes v; Value_Integer := Value_Integer v;
         Value_Checksum := Some (computeChecksum v key) |}
  end.

(** *** Models and keys *)

(** [model]: the binding of a record type to a table. A field of the
    field map is known by its locator. *)
Record model := mkModel {
  name : string;
  fields : gmap string nat;
  primaryKey : list string;
  otherColumns : list string
}.

(** The loop of [encodePrimaryKey] over [m.primaryKey]. *)
Fixpoint encodePrimaryKeyCols (m : model) (cols : list string) (v : StructVal)
    (key : list byte) : errorOr (list byte) :=
  match cols with
  | [] => Ok key
  | col :: rest =>
      match fields m !! col with
      | None => Err (ErrNoField (name m) col)
      | Some f =>
          match encodeTableKey key (FieldByIndex v f) with
          | Err err => Err err
          | Ok key => encodePrimaryKeyCols m rest v key
          end
      end
  end.

(** [model.encodePrimaryKey]. *)
Definition encodePrimaryKey (m : model) (v : StructVal) : errorOr (list byte) :=
  let key := EncodeBytes [] (list_byte_of_string (name m)) in
  encodePrimaryKeyCols m (primaryKey m) v key.

(** The loop of [decodePrimaryKey] over [m.primaryKey]; the record is
    returned as the decoding leaves it. *)
Fixpoint decodePrimaryKeyCols (m : model) (cols : list string) (key : list byte)
    (v : StructVal) : errorOr (list byte * StructVal) :=
  match cols with
  | [] => Ok (key, v)
  | col :: rest =>
      match fields m !! col with
      | None => Err (ErrNoField (name m) col)
      | Some f =>
          match decodeTableKey key (FieldByIndex v f) with
          | Err err => Err err
          | Ok (key, x) => decodePrimaryKeyCols m rest key (SetFieldByIndex v f x)
          end
      end
  end.

(** [model.decodePrimaryKey]. *)
Definition decodePrimaryKey (m : model) (key : list byte) (v : StructVal)
    : errorOr (list byte * StructVal) :=
  let '(key, name') := DecodeBytes key [] in
  if bool_decide (string_of_list_byte name' = name m)
  then decodePrimaryKeyCols m (primaryKey m) key v
  else Err (ErrUnexpectedTable (name m) name').

(** [model.encodeColumnKey]. *)
Definition encodeColumnKey (m : model) (primaryKey : list byte) (column : string)
    : list byte :=
  let key := [] in
  let key := key ++ primaryKey in
  key ++ list_byte_of_string column.

(** *** The model registry *)

#[global] Instance IntSize_eq_dec : EqDecision IntSize.
Proof. solve_decision. Defined.

#[global] Instance Kind_eq_dec : EqDecision Kind.
Proof. solve_decision. Defined.

Definition Kind_to_nat (k : Kind) : nat :=
  match k with
  | KBool => 0
  | KInt W8 => 1 | KInt W16 => 2 | KInt W32 => 3 | KInt W64 => 4
  | KUint W8 => 5 | KUint W16 => 6 | KUint W32 => 7 | KUint W64 => 8
  | KFloat32 => 9
  | KFloat64 => 10
  | KString false => 11 | KString true => 12
  | KBytes => 13
  | KOther => 14
  end.

Definition Kind_of_nat (n : nat) : Kind :=
  match n with
  | 0 => KBool
  | 1 => KInt W8 | 2 => KInt W16 | 3 => KInt W32 | 4 => KInt W64
  | 5 => KUint W8 | 6 => KUint W16 | 7 => KUint W32 | 8 => KUint W64
  | 9 => KFloat32
  | 10 => KFloat64
  | 11 => KString false | 12 => KString true
  | 13 => KBytes
  | _ => KOther
  end.

#[global] Program Instance Kind_countable : Countable Kind :=
  inj_countable' Kind_to_nat Kind_of_nat _.
Next Obligation. intros [| [] | [] | | | [] | |]; reflexivity. Qed.

#[global] Instance StructType_eq_dec : EqDecision StructType.
Proof. solve_decision. Defined.

#[global] Program Instance StructType_countable : Countable StructType :=
  inj_countable' (fun t => (st_Name t, st_Fields t))
                 (fun p => {| st_Name := fst p; st_Fields := snd p |}) _.
Next Obligation. intros []; reflexivity. Qed.

(** [DB], reduced to the registry of bound models. A nil map and an empty
    map are both the empty map. *)
Record DB := mkDB {
  experimentalModels : gmap StructType model
}.

(** Modelled from the spec: [getDBFields], which records for every field
    of the record type its column name and the locator of the field. *)
Definition getDBFields (t : StructType) : gmap string nat :=
  list_to_map (imap (fun i cf => (fst cf, i)) (st_Fields t)).

(** [DB.BindModel]: the registry after the call and the error returned
    ([None] is nil). *)
Definition BindModel (db : DB) (name : string) (obj : Interface)
    (primaryKey : list string) : DB * option error :=
  let t := deref (TypeOf obj) in
  match experimentalModels db !! t with
  | Some _ => (db, Some (ErrAlreadyDefined name t))
  | None =>
      let fields := getDBFields t in
      let isPrimaryKey : gset string := list_to_set primaryKey in
      let otherColumns :=
        filter (fun col => col ∉ isPrimaryKey) (rangeKeys fields) in
      let m :=
        {| name := name; fields := fields; primaryKey := primaryKey;
           otherColumns := otherColumns |} in
      ({| experimentalModels := <[t := m]> (experimentalModels db) |}, None)
  end.

(** [t.Kind() != reflect.Ptr]. *)
Definition isPtr (t : Type_) : bool :=
  match t with Ptr _ => true | Struct _ => false end.

(** [DB.getModel]. *)
Definition getModel (db : DB) (t : Type_) (mustBePointer : bool) : errorOr model :=
  if mustBePointer && negb (isPtr t) then Err (ErrPointerRequired t)
  else
    let t := deref t in
    match experimentalModels db !! t with
    | Some model => Ok model
    | None => Err (ErrNoModel t)
    end.

(** *** Batches *)

(** [Call]: the request and the post-reply decoder, which is run with the
    reply once it has arrived and acts on the caller's memory. *)
Record Call := mkCall {
  Call_Args : Request;
  Call_Post : option (Response -> Heap -> errorOr Heap)
}.

(** [Result]: the entry of a batch for one operation. *)
Record Result := mkResult {
  Result_calls : nat;
  Result_Err : option error;
  Result_numRows : nat
}.

Record Batch := mkBatch {
  Batch_DB : DB;
  Batch_calls : list Call;
  Batch_Results : list Result
}.

(** Modelled from the spec: [Batch.initResult], which records the outcome
    of the setup of one operation as the next entry of the batch. *)
Definition initResult (b : Batch) (calls numRows : nat) (err : option error) : Batch :=
  {| Batch_DB := Batch_DB b;
     Batch_calls := Batch_calls b;
     Batch_Results := Batch_Results b ++
       [{| Result_calls := calls; Result_Err := err; Result_numRows := numRows |}] |}.

(** [b.calls = append(b.calls, calls...)]. *)
Definition appendCalls (b : Batch) (calls : list Call) : Batch :=
  {| Batch_DB := Batch_DB b;
     Batch_calls := Batch_calls b ++ calls;
     Batch_Results := Batch_Results b |}.

(** Modelled from the spec: the call constructors [Get], [Increment],
    [Scan] and [Delete], which build the request of one KV call. *)
Definition Get (key : list byte) : Call :=
  {| Call_Args := GetRequest key; Call_Post := None |}.
Definition Increment (key : list byte) (value : Z) : Call :=
  {| Call_Args := IncrementRequest key value; Call_Post := None |}.
Definition Scan (key endKey : list byte) (maxRows : Z) : Call :=
  {| Call_Args := ScanRequest key endKey maxRows; Call_Post := None |}.
Definition Delete (key : list byte) : Call :=
  {| Call_Args := DeleteRequest key; Call_Post := None |}.

(** Assignment to a field of the record behind the handle [obj], with the
    content computed from the field as it is: what a post-reply decoder
    does through [v.FieldByIndex(f.Index)]. *)
Definition storeField (obj : Interface) (f : nat)
    (set : FieldValue -> errorOr FieldValue) (h : Heap) : errorOr Heap :=
  match obj with
  | IPtr l _ =>
      match h !! l with
      | Some (HStruct s) =>
          match set (FieldByIndex s f) with
          | Err err => Err err
          | Ok x => Ok (<[l := HStruct (SetFieldByIndex s f x)]> h)
          end
      | _ => Err ErrPanic
      end
  | IStruct _ => Err ErrPanic
  end.

(** *** Row operations *)

(** The post-reply decoder installed by [GetStruct]. *)
Definition GetStruct_Post (obj : Interface) (f : nat) (reply : Response) (h : Heap)
    : errorOr Heap :=
  match reply with
  | GetResponse value => storeField obj f (unmarshalTableValue value) h
  | _ => Err ErrPanic
  end.

(** The loop of [GetStruct] over the columns. *)
Fixpoint GetStruct_calls (m : model) (obj : Interface) (primaryKey : list byte)
    (columns : list string) (calls : list Call) : errorOr (list Call) :=
  match columns with
  | [] => Ok calls
  | col :: rest =>
      match fields m !! col with
      | None => Err (ErrNoField (name m) col)
      | Some f =>
          let key := encodeColumnKey m primaryKey col in
          let c := Get key in
          let c := {| Call_Args := Call_Args c;
                      Call_Post := Some (GetStruct_Post obj f) |} in
          GetStruct_calls m obj primaryKey rest (calls ++ [c])
      end
  end.

(** [Batch.GetStruct]. *)
Definition GetStruct (b : Batch) (obj : Interface) (columns : list string) : Batch :=
  match getModel (Batch_DB b) (TypeOf obj) true with
  | Err err => initResult b 0 0 (Some err)
  | Ok m =>
      let v := Indirect obj in
      match encodePrimaryKey m v with
      | Err err => initResult b 0 0 (Some err)
      | Ok primaryKey =>
          let columns := if Nat.eqb (length columns) 0 then otherColumns m else columns in
          match GetStruct_calls m obj primaryKey columns [] with
          | Err err => initResult b 0 0 (Some err)
          | Ok calls =>
              initResult (appendCalls b calls) (length calls) (length calls) None
          end
      end
  end.

(** The loop of [PutStruct] over the columns. *)
Fixpoint PutStruct_calls (m : model) (v : StructVal) (primaryKey : list byte)
    (columns : list string) (calls : list Call) : errorOr (list Call) :=
  match columns with
  | [] => Ok calls
  | col :: rest =>
      match fields m !! col with
      | None => Err (ErrNoField (name m) col)
      | Some f =>
          let key := encodeColumnKey m primaryKey col in
          let value := FieldByIndex v f in
          match marshalTableValue value with
          | Err err => Err err
          | Ok v' =>
              let v' := InitChecksum v' key in
              PutStruct_calls m v primaryKey rest
                (calls ++ [{| Call_Args := PutRequest key v'; Call_Post := None |}])
          end
      end
  end.

(** [Batch.PutStruct]. *)
Definition PutStruct (b : Batch) (obj : Interface) (columns : list string) : Batch :=
  let v := Indirect obj in
  match getModel (Batch_DB b) (Struct (sv_Type v)) false with
  | Err err => initResult b 0 0 (Some err)
  | Ok m =>
      match encodePrimaryKey m v with
      | Err err => initResult b 0 0 (Some err)
      | Ok primaryKey =>
          let columns := if Nat.eqb (length columns) 0 then otherColumns m else columns in
          match PutStruct_calls m v primaryKey columns [] with
          | Err err => initResult b 0 0 (Some err)
          | Ok calls =>
              initResult (appendCalls b calls) (length calls) (length calls) None
          end
      end
  end.

(** The post-reply decoder installed by [IncStruct]. *)
Definition IncStruct_Post (obj : Interface) (f : nat) (reply : Response) (h : Heap)
    : errorOr Heap :=
  match reply with
  | IncrementResponse newValue =>
      let pv := {| Value_Bytes := None; Value_Integer := Some newValue;
                   Value_Checksum := None |} in
      storeField obj f (unmarshalTableValue (Some pv)) h
  | _ => Err ErrPanic
  end.

(** [Batch.IncStruct]. *)
Definition IncStruct (b : Batch) (obj : Interface) (value : Z) (column : string) : Batch :=
  match getModel (Batch_DB b) (TypeOf obj) true with
  | Err err => initResult b 0 0 (Some err)
  | Ok m =>
      let v := Indirect obj in
      match encodePrimaryKey m v with
      | Err err => initResult b 0 0 (Some err)
      | Ok primaryKey =>
          match fields m !! column with
          | None => initResult b 0 0 (Some (ErrNoField (name m) column))
          | Some f =>
              let key := encodeColumnKey m primaryKey column in
              let c := Increment key value in
              let c := {| Call_Args := Call_Args c;
                          Call_Post := Some (IncStruct_Post obj f) |} in
              initResult (appendCalls b [c]) 1 1 None
          end
      end
  end.

(** The loop of [DelStruct] over the columns. *)
Fixpoint DelStruct_calls (m : model) (primaryKey : list byte)
    (columns : list string) (calls : list Call) : errorOr (list Call) :=
  match columns with
  | [] => Ok calls
  | col :: rest =>
      match fields m !! col with
      | None => Err (ErrNoField (name m) col)
      | Some _ =>
          let key := encodeColumnKey m primaryKey col in
          DelStruct_calls m primaryKey rest (calls ++ [Delete key])
      end
  end.

(** [Batch.DelStruct]. *)
Definition DelStruct (b : Batch) (obj : Interface) (columns : list string) : Batch :=
  let v := Indirect obj in
  match getModel (Batch_DB b) (Struct (sv_Type v)) false with
  | Err err => initResult b 0 0 (Some err)
  | Ok m =>
      match encodePrimaryKey m v with
      | Err err => initResult b 0 0 (Some err)
      | Ok primaryKey =>
          let columns := if Nat.eqb (length columns) 0 then otherColumns m else columns in
          match DelStruct_calls m primaryKey columns [] with
          | Err err => initResult b 0 0 (Some err)
          | Ok calls =>
              initResult (appendCalls b calls) (length calls) (length calls) None
          end
      end
  end.

(** [bytes.HasPrefix]. *)
Fixpoint HasPrefix (s prefix : list byte) : bool :=
  match prefix, s with
  | [], _ => true
  | p :: prefix, x :: s => Byte.eqb x p && HasPrefix s prefix
  | _ :: _, [] => false
  end.

(** The first block of the loop body of the post-reply decoder of
    [ScanStruct]: when the row starts a new primary key the record in
    flight is appended to [sliceV] and restarted. [primaryKey] is nil
    ([None]) until the first row has been decoded. For a slice of pointers
    a fresh record is allocated after the append, for a slice of records
    the record is reset to zero: in both cases the record in flight
    restarts from the zero record. *)
Definition ScanStruct_flush (m : model) (modelT : StructType) (ptrResults : bool)
    (row : KeyValue) (primaryKey : option (list byte)) (result : StructVal)
    (sliceV : list StructVal) : errorOr (list StructVal * StructVal) :=
  match primaryKey with
  | Some pk =>
      if negb (HasPrefix (KeyValue_Key row) pk)
      then
        let '(sliceV, result) :=
          if ptrResults
          then (sliceV ++ [result], zeroStruct modelT)
          else (sliceV ++ [result], zeroStruct modelT) in
        match decodePrimaryKey m pk result with
        | Err err => Err err
        | Ok (_, result) => Ok (sliceV, result)
        end
      else Ok (sliceV, result)
  | None => Ok (sliceV, result)
  end.

(** The rest of the loop body: the key of the row is decoded into the
    record, [primaryKey] becomes the key without its column suffix, and the
    value of a column that is asked for is unmarshalled into its field. The
    result is the new [primaryKey] and the record. *)
Definition ScanStruct_cell (m : model) (scanCols : option (gset string))
    (row : KeyValue) (result : StructVal) : errorOr (option (list byte) * StructVal) :=
  match decodePrimaryKey m (KeyValue_Key row) result with
  | Err err => Err err
  | Ok (col, result) =>
      let primaryKey :=
        Some (take (length (KeyValue_Key row) - length col) (KeyValue_Key row)) in
      let colStr := string_of_list_byte col in
      let skip :=
        match scanCols with
        | Some cols => negb (bool_decide (colStr ∈ cols))
        | None => false
        end in
      if skip then Ok (primaryKey, result)
      else
        match fields m !! colStr with
        | None => Err (ErrNoField (name m) colStr)
        | Some f =>
            match unmarshalTableValue (Some (KeyValue_Value row))
                    (FieldByIndex result f) with
            | Err err => Err err
            | Ok x => Ok (primaryKey, SetFieldByIndex result f x)
            end
        end
  end.

(** The loop of the post-reply decoder over [reply.Rows]; [result] is the
    record being filled and [sliceV] the records appended so far. *)
Fixpoint ScanStruct_rows (m : model) (modelT : StructType) (ptrResults : bool)
    (scanCols : option (gset string)) (rows : list KeyValue)
    (primaryKey : option (list byte)) (result : StructVal) (sliceV : list StructVal)
    : errorOr (list StructVal * StructVal) :=
  match rows with
  | [] => Ok (sliceV, result)
  | row :: rest =>
      match ScanStruct_flush m modelT ptrResults row primaryKey result sliceV with
      | Err err => Err err
      | Ok (sliceV, result) =>
          match ScanStruct_cell m scanCols row result with
          | Err err => Err err
          | Ok (primaryKey, result) =>
              ScanStruct_rows m modelT ptrResults scanCols rest primaryKey result sliceV
          end
      end
  end.

(** The post-reply decoder installed by [ScanStruct]; [l] is the slice
    that [dest] points to. *)
Definition ScanStruct_Post (m : model) (l : loc) (modelT : StructType)
    (ptrResults : bool) (columns : list string) (reply : Response) (h : Heap)
    : errorOr Heap :=
  match reply with
  | ScanResponse rows =>
      if Nat.eqb (length rows) 0 then Ok h
      else
        let scanCols : option (gset string) :=
          if Nat.ltb 0 (length columns) then Some (list_to_set columns) else None in
        match h !! l with
        | Some (HSlice sliceV) =>
            let result := zeroStruct modelT in
            match ScanStruct_rows m modelT ptrResults scanCols rows None result sliceV with
            | Err err => Err err
            | Ok (sliceV, result) =>
                let sliceV := sliceV ++ [result] in
                Ok (<[l := HSlice sliceV]> h)
            end
        | _ => Err ErrPanic
        end
  | _ => Err ErrPanic
  end.

(** [Batch.ScanStruct]. *)
Definition ScanStruct (b : Batch) (dest : Dest) (start end_ : Interface)
    (maxRows : Z) (columns : list string) : Batch :=
  match dest with
  | DNotPointer => initResult b 0 0 (Some ErrDestNotSlicePtr)
  | DNotSlice _ => initResult b 0 0 (Some ErrDestNotSlicePtr)
  | DSlicePtr l elem =>
      let ptrResults := isPtr elem in
      let modelT := deref elem in
      match getModel (Batch_DB b) (Struct modelT) false with
      | Err err => initResult b 0 0 (Some err)
      | Ok m =>
          let startV := Indirect start in
          if negb (bool_decide (modelT = sv_Type startV))
          then initResult b 0 0 (Some (ErrStartKeyType modelT (sv_Type startV)))
          else
            let endV := Indirect end_ in
            if negb (bool_decide (modelT = sv_Type endV))
            then initResult b 0 0 (Some (ErrEndKeyType modelT (sv_Type endV)))
            else
              match encodePrimaryKey m startV with
              | Err err => initResult b 0 0 (Some err)
              | Ok startKey =>
                  match encodePrimaryKey m endV with
                  | Err err => initResult b 0 0 (Some err)
                  | Ok endKey =>
                      let c := Scan startKey endKey maxRows in
                      let c := {| Call_Args := Call_Args c;
                                  Call_Post :=
                                    Some (ScanStruct_Post m l modelT ptrResults columns) |} in
                      initResult (appendCalls b [c]) 1 0 None
                  end
              end
      end
  end.

(** *** The KV collaborator and the execution of a batch *)

(** [bytes.Compare]: the lexicographic order of keys. *)
Fixpoint bytes_compare (a b : list byte) : comparison :=
  match a, b with
  | [], [] => Eq
  | [], _ :: _ => Lt
  | _ :: _, [] => Gt
  | x :: a, y :: b =>
      match N.compare (Byte.to_N x) (Byte.to_N y) with
      | Eq => bytes_compare a b
      | c => c
      end
  end.

Definition bytes_lt (a b : list byte) : Prop := bytes_compare a b = Lt.
Definition bytes_le (a b : list byte) : Prop := bytes_compare a b <> Gt.

#[global] Instance bytes_lt_dec : RelDecision bytes_lt.
Proof.
  intros a b. unfold bytes_lt.
  destruct (bytes_compare a b); [right | left | right]; congruence.
Defined.

#[global] Instance bytes_le_dec : RelDecision bytes_le.
Proof.
  intros a b. unfold bytes_le.
  destruct (bytes_compare a b); [left | left | right]; congruence.
Defined.

Definition key_le (x y : list byte * Value) : Prop := bytes_le (fst x) (fst y).

#[global] Instance key_le_dec : RelDecision key_le.
Proof. intros x y. unfold key_le. apply _. Defined.

(** Modelled from the spec: the KV collaborator of section 6, a store of
    values by key. [Get] returns the value stored under the key, if any;
    [Put] stores; [Increment] adds to the integer stored under the key and
    returns the new value; [Scan] returns the pairs with a key in
    [[start_key, end_key)], by ascending key, at most [max_rows] of them;
    [Delete] removes the key. *)
Definition execute (store : Store) (args : Request) : Store * Response :=
  match args with
  | GetRequest key => (store, GetResponse (store !! key))
  | PutRequest key value => (<[key := value]> store, PutResponse)
  | IncrementRequest key increment =>
      let newValue := wrap_signed 64 (from_option GetInteger 0%Z (store !! key) + increment) in
      (<[key := {| Value_Bytes := None; Value_Integer := Some newValue;
                   Value_Checksum := None |}]> store,
       IncrementResponse newValue)
  | ScanRequest key endKey maxResults =>
      let inRange :=
        filter (fun kv => bytes_le key (fst kv) /\ bytes_lt (fst kv) endKey)
               (map_to_list store) in
      let rows := take (Z.to_nat maxResults) (merge_sort key_le inRange) in
      (store, ScanResponse (map (fun kv => mkKeyValue (fst kv) (snd kv)) rows))
  | DeleteRequest key => (delete key store, DeleteResponse)
  end.

(** Modelled from the spec: batch submission. The calls are dispatched in
    enqueue order; each reply is handed to the post-reply decoder of its
    call; a failing decoder does not keep the later ones from running, and
    the first error is the one reported. *)
Fixpoint send (store : Store) (calls : list Call) (h : Heap)
    : Store * Heap * option error :=
  match calls with
  | [] => (store, h, None)
  | c :: rest =>
      let '(store, reply) := execute store (Call_Args c) in
      match Call_Post c with
      | None => send store rest h
      | Some post =>
          match post reply h with
          | Ok h => send store rest h
          | Err err =>
              let '(store, h, _) := send store rest h in
              (store, h, Some err)
          end
      end
  end.

(** [DB.NewBatch]. *)
Definition NewBatch (db : DB) : Batch :=
  {| Batch_DB := db; Batch_calls := []; Batch_Results := [] |}.

(** Modelled from the spec: [runOneResult], which runs a batch holding one
    operation and returns the error of that operation: the error of its
    setup, in which case nothing is sent, or else the error of the run. *)
Definition runOneResult (store : Store) (h : Heap) (b : Batch)
    : Store * Heap * option error :=
  match Batch_Results b with
  | [r] =>
      match Result_Err r with
      | Some err => (store, h, Some err)
      | None => send store (Batch_calls b) h
      end
  | _ => (store, h, Some ErrPanic)
  end.

(** [DB.GetStruct], [DB.PutStruct], [DB.IncStruct], [DB.ScanStruct] and
    [DB.DelStruct]: one operation on a fresh batch, run at once. *)
Definition DB_GetStruct (db : DB) (store : Store) (h : Heap) (obj : Interface)
    (columns : list string) : Store * Heap * option error :=
  let b := NewBatch db in
  let b := GetStruct b obj columns in
  runOneResult store h b.

Definition DB_PutStruct (db : DB) (store : Store) (h : Heap) (obj : Interface)
    (columns : list string) : Store * Heap * option error :=
  let b := NewBatch db in
  let b := PutStruct b obj columns in
  runOneResult store h b.

Definition DB_IncStruct (db : DB) (store : Store) (h : Heap) (obj : Interface)
    (value : Z) (column : string) : Store * Heap * option error :=
  let b := NewBatch db in
  let b := IncStruct b obj value column in
  runOneResult store h b.

Definition DB_ScanStruct (db : DB) (store : Store) (h : Heap) (dest : Dest)
    (start end_ : Interface) (maxRows : Z) (columns : list string)
    : Store * Heap * option error :=
  let b := NewBatch db in
  let b := ScanStruct b dest start end_ maxRows columns in
  runOneResult store h b.

Definition DB_DelStruct (db : DB) (store : Store) (h : Heap) (obj : Interface)
    (columns : list string) : Store * Heap * option error :=
  let b := NewBatch db in
  let b := DelStruct b obj columns in
  runOneResult store h b.

End Code.

End client.

(** ** A reference platform

    One codec, runtime and checksum that satisfy the laws above; they give
    the properties below concrete instances to run on. The codec follows
    the scheme of the specification for byte strings (the byte [0x00] is
    escaped as [0x00 0xFF] and [0x00 0x01] terminates the value) and for
    floats (big-endian bit pattern, all bits flipped for a negative number,
    the sign bit flipped otherwise); integers are written on eight
    big-endian bytes, signed ones with the sign bit flipped. *)

Module reference.

Import encoding client.

Definition byte_of_Z (x : Z) : byte :=
  match Byte.of_N (Z.to_N (x mod 256)) with
  | Some b => b
  | None => x00
  end.

Definition Z_of_byte (b : byte) : Z := Z.of_N (Byte.to_N b).

Fixpoint escape (v : list byte) : list byte :=
  match v with
  | [] => []
  | x :: v => if Byte.eqb x x00 then x00 :: xff :: escape v else x :: escape v
  end.

Definition refEncodeBytes (b v : list byte) : list byte :=
  b ++ escape v ++ [x00; x01].

Fixpoint refDecodeBytes (b r : list byte) : list byte * list byte :=
  match b with
  | [] => ([], r)
  | x :: b' =>
      if Byte.eqb x x00
      then
        match b' with
        | [] => ([], r)
        | y :: rest =>
            if Byte.eqb y xff then refDecodeBytes rest (r ++ [x00])
            else (rest, r)
        end
      else refDecodeBytes b' (r ++ [x])
  end.

(** [n] big-endian bytes of [x]. *)
Fixpoint encode_be (n : nat) (x : Z) : list byte :=
  match n with
  | O => []
  | S n' => byte_of_Z (x / 256 ^ Z.of_nat n') :: encode_be n' x
  end.

Fixpoint decode_be (n : nat) (b : list byte) (acc : Z) : list byte * Z :=
  match n with
  | O => (b, acc)
  | S n' =>
      match b with
      | [] => ([], acc)
      | x :: b' => decode_be n' b' (acc * 256 + Z_of_byte x)
      end
  end.

Definition refEncodeUvarint (b : list byte) (u : Z) : list byte :=
  b ++ encode_be 8 u.
Definition refDecodeUvarint (b : list byte) : list byte * Z :=
  decode_be 8 b 0.

Definition refEncodeVarint (b : list byte) (i : Z) : list byte :=
  b ++ encode_be 8 (i + 2 ^ 63).
Definition refDecodeVarint (b : list byte) : list byte * Z :=
  let '(b, u) := decode_be 8 b 0 in (b, u - 2 ^ 63)%Z.

Definition flipFloat (f : Z) : Z :=
  if (f <? 2 ^ 63)%Z then (f + 2 ^ 63)%Z else (2 ^ 64 - 1 - f)%Z.
Definition unflipFloat (g : Z) : Z :=
  if (2 ^ 63 <=? g)%Z then (g - 2 ^ 63)%Z else (2 ^ 64 - 1 - g)%Z.

Definition refEncodeNumericFloat (b : list byte) (f : Z) : list byte :=
  b ++ encode_be 8 (flipFloat f).
Definition refDecodeNumericFloat (b : list byte) : list byte * Z :=
  let '(b, g) := decode_be 8 b 0 in (b, unflipFloat g).

#[global] Instance refEncoding : Encoding := {|
  EncodeBytes := refEncodeBytes;
  DecodeBytes := refDecodeBytes;
  EncodeVarint := refEncodeVarint;
  DecodeVarint := refDecodeVarint;
  EncodeUvarint := refEncodeUvarint;
  DecodeUvarint := refDecodeUvarint;
  EncodeNumericFloat := refEncodeNumericFloat;
  DecodeNumericFloat := refDecodeNumericFloat
|}.

(** A runtime for the laws: a [range] visits the keys in the order of
    [map_to_list]; the float conversions keep the low 32 bits of a pattern,
    which is all the laws ask of them. The conversions of an actual
    platform are those of [ieeeRuntime] below. *)
#[global] Instance refRuntime : GoRuntime := {|
  float32to64 := fun f => f;
  float64to32 := fun f => (f mod 2 ^ 32)%Z;
  rangeKeys := fun m => (map_to_list m).*1
|}.

(** The conversions of IEEE 754 on bit patterns, as the processors Go
    compiles to perform them. A [float32] has a sign bit, 8 exponent bits
    and 23 fraction bits, a [float64] a sign bit, 11 exponent bits and 52
    fraction bits. *)

(** A NaN comes out of a conversion quiet: the first fraction bit set. *)
Definition quiet32 (m : Z) : Z := if (m <? 2 ^ 22)%Z then (m + 2 ^ 22)%Z else m.

(** [float64(f)] for a [float32] [f]: exact on numbers and infinities; a
    subnormal [float32] is a normal [float64]. *)
Definition widen (f : Z) : Z :=
  let s := (f / 2 ^ 31)%Z in
  let e := ((f / 2 ^ 23) mod 2 ^ 8)%Z in
  let m := (f mod 2 ^ 23)%Z in
  if (e =? 255)%Z then
    if (m =? 0)%Z then (s * 2 ^ 63 + 2047 * 2 ^ 52)%Z
    else (s * 2 ^ 63 + 2047 * 2 ^ 52 + quiet32 m * 2 ^ 29)%Z
  else if (e =? 0)%Z then
    if (m =? 0)%Z then (s * 2 ^ 63)%Z
    else
      let k := Z.log2 m in
      (s * 2 ^ 63 + (k + 874) * 2 ^ 52 + (m - 2 ^ k) * 2 ^ (52 - k))%Z
  else (s * 2 ^ 63 + (e + 896) * 2 ^ 52 + m * 2 ^ 29)%Z.

(** [x / 2 ^ k] rounded to the nearest integer, a tie to the even one. *)
Definition roundShift (x k : Z) : Z :=
  let q := (x / 2 ^ k)%Z in
  let r := (x mod 2 ^ k)%Z in
  let half := (2 ^ (k - 1))%Z in
  if (half <? r)%Z then (q + 1)%Z
  else if (r =? half)%Z && Z.odd q then (q + 1)%Z
  else q.

(** [float32(d)] for a [float64] [d]: rounded to the nearest [float32],
    to an infinity beyond the largest, to a subnormal or zero below the
    smallest normal one. *)
Definition narrow (d : Z) : Z :=
  let s := (d / 2 ^ 63)%Z in
  let e := ((d / 2 ^ 52) mod 2 ^ 11)%Z in
  let m := (d mod 2 ^ 52)%Z in
  if (e =? 2047)%Z then
    if (m =? 0)%Z then (s * 2 ^ 31 + 255 * 2 ^ 23)%Z
    else (s * 2 ^ 31 + 255 * 2 ^ 23 + quiet32 (m / 2 ^ 29))%Z
  else
    let sig := if (e =? 0)%Z then m else (2 ^ 52 + m)%Z in
    let e32 := (e - 896)%Z in
    let magnitude :=
      if (1 <=? e32)%Z then ((e32 - 1) * 2 ^ 23 + roundShift sig 29)%Z
      else roundShift sig (30 - e32) in
    (s * 2 ^ 31 + Z.min magnitude (255 * 2 ^ 23))%Z.

(** The runtime of an IEEE 754 platform. It is not declared an instance:
    it is named where it is meant. *)
Definition ieeeRuntime : GoRuntime := {|
  float32to64 := widen;
  float64to32 := narrow;
  rangeKeys := fun m => (map_to_list m).*1
|}.

(** A checksum over the key and the payloads: the sum of their bytes. *)
Definition sumBytes (l : list byte) : N :=
  fold_right (fun b acc => (Byte.to_N b + acc)%N) 0%N l.

#[global] Instance refChecksum : ValueChecksum := {|
  computeChecksum := fun v key =>
    ((sumBytes key + sumBytes (bytesOf (Value_Bytes v))
      + Z.to_N (wrap_unsigned 32 (GetInteger v))) mod 4294967296)%N
|}.

End reference.

(** ** Specification-level definitions *)

Module proto_spec.

Import proto.

(** One check of the validator: the error it raises when it fails. *)
Definition check (failed : bool) (e : ValidationError) : option ValidationError :=
  if failed then Some e else None.

(** The first failure of a sequence of checks. *)
Fixpoint firstError (checks : list (option ValidationError)) : option ValidationError :=
  match checks with
  | [] => None
  | Some e :: _ => Some e
  | None :: rest => firstError rest
  end.

(** The checks made on one column, given the columns [before] it. *)
Definition columnChecks (next : N) (before : list ColumnDescriptor)
    (c : ColumnDescriptor) : list (option ValidationError) :=
  [ validateName (cd_Name c) "column";
    check (bool_decide (cd_Name c ∈ map cd_Name before)) (DuplicateColumnName (cd_Name c));
    check (bool_decide (ColumnDescriptor_ID c ∈ map ColumnDescriptor_ID before))
      (DuplicateColumnID (cd_Name c) (ColumnDescriptor_ID c));
    check (next <=? ColumnDescriptor_ID c)%N
      (InvalidColumnID (cd_Name c) (ColumnDescriptor_ID c) next) ].

Fixpoint allColumnChecks (next : N) (before columns : list ColumnDescriptor)
    : list (option ValidationError) :=
  match columns with
  | [] => []
  | c :: rest => columnChecks next before c ++ allColumnChecks next (before ++ [c]) rest
  end.

(** The checks made on one index, given the indexes [before] it and the
    columns of the table. *)
Definition indexChecks (next : N) (columns : list ColumnDescriptor)
    (before : list IndexDescriptor) (i : IndexDescriptor)
    : list (option ValidationError) :=
  [ validateName (id_Name i) "index";
    check (bool_decide (id_Name i ∈ map id_Name before)) (DuplicateIndexName (id_Name i));
    check (bool_decide (IndexDescriptor_ID i ∈ map IndexDescriptor_ID before))
      (DuplicateIndexID (id_Name i) (IndexDescriptor_ID i));
    check (next <=? IndexDescriptor_ID i)%N
      (InvalidIndexID (id_Name i) (IndexDescriptor_ID i) next);
    check (bool_decide (IndexDescriptor_ColumnIDs i = [])) (IndexNoColumns (id_Name i)) ]
  ++ map (fun columnID =>
            check (negb (bool_decide (columnID ∈ map ColumnDescriptor_ID columns)))
              (IndexUnknownColumn (id_Name i) columnID))
         (IndexDescriptor_ColumnIDs i).

Fixpoint allIndexChecks (next : N) (columns : list ColumnDescriptor)
    (before indexes : list IndexDescriptor) : list (option ValidationError) :=
  match indexes with
  | [] => []
  | i :: rest =>
      indexChecks next columns before i ++ allIndexChecks next columns (before ++ [i]) rest
  end.

(** All the checks of the validator on a descriptor, in the order in which
    [ValidateTableDesc] makes them. *)
Definition checks (d : TableDescriptor) : list (option ValidationError) :=
  [ validateName (desc_Name d) "table";
    check (bool_decide (Desc_Columns d = [])) NoColumns ]
  ++ allColumnChecks (Desc_NextColumnID d) [] (Desc_Columns d)
  ++ [ check (bool_decide (Desc_Indexes d = [])) NoIndexes ]
  ++ allIndexChecks (Desc_NextIndexID d) (Desc_Columns d) [] (Desc_Indexes d).

(** A well-formed name: not empty and without a slash. *)
Definition validName (n : string) : Prop :=
  n <> EmptyString /\ containsSlash n = false.

(** The invariants of a descriptor (section 3 of the specification). *)
Record WellFormed (d : TableDescriptor) : Prop := {
  wf_name : validName (desc_Name d);
  wf_columns : Desc_Columns d <> [];
  wf_indexes : Desc_Indexes d <> [];
  wf_column_names : Forall (fun c => validName (cd_Name c)) (Desc_Columns d);
  wf_column_names_unique : NoDup (map cd_Name (Desc_Columns d));
  wf_column_ids_unique : NoDup (map ColumnDescriptor_ID (Desc_Columns d));
  wf_column_ids_bound :
    Forall (fun c => (ColumnDescriptor_ID c < Desc_NextColumnID d)%N) (Desc_Columns d);
  wf_index_names : Forall (fun i => validName (id_Name i)) (Desc_Indexes d);
  wf_index_names_unique : NoDup (map id_Name (Desc_Indexes d));
  wf_index_ids_unique : NoDup (map IndexDescriptor_ID (Desc_Indexes d));
  wf_index_ids_bound :
    Forall (fun i => (IndexDescriptor_ID i < Desc_NextIndexID d)%N) (Desc_Indexes d);
  wf_index_columns :
    Forall (fun i =>
              IndexDescriptor_ColumnIDs i <> [] /\
              Forall (fun columnID => columnID ∈ map ColumnDescriptor_ID (Desc_Columns d))
                     (IndexDescriptor_ColumnIDs i))
           (Desc_Indexes d)
}.

(** The columns [cols] pass all the checks made on columns. *)
Definition columnsPass (next : N) (cols : list ColumnDescriptor) : Prop :=
  Forall (fun c => validName (cd_Name c)) cols /\
  NoDup (map cd_Name cols) /\
  NoDup (map ColumnDescriptor_ID cols) /\
  Forall (fun c => (ColumnDescriptor_ID c < next)%N) cols.

(** The indexes [idxs] pass all the checks made on indexes, for a table
    with the columns [columns]. *)
Definition indexesPass (next : N) (columns : list ColumnDescriptor)
    (idxs : list IndexDescriptor) : Prop :=
  Forall (fun i => validName (id_Name i)) idxs /\
  NoDup (map id_Name idxs) /\
  NoDup (map IndexDescriptor_ID idxs) /\
  Forall (fun i => (IndexDescriptor_ID i < next)%N) idxs /\
  Forall (fun i =>
            IndexDescriptor_ColumnIDs i <> [] /\
            Forall (fun columnID => columnID ∈ map ColumnDescriptor_ID columns)
                   (IndexDescriptor_ColumnIDs i)) idxs.

(** The ID bound of the column [c] is the first check to fail on [d]: the
    table name is well formed, the columns [pre] before [c] pass their
    checks, and [c] itself has a well-formed name and a name and an ID
    that no column before it has. *)
Definition columnBoundFailsFirst (d : TableDescriptor)
    (pre : list ColumnDescriptor) (c : ColumnDescriptor) : Prop :=
  validName (desc_Name d) /\
  columnsPass (Desc_NextColumnID d) pre /\
  validName (cd_Name c) /\
  (cd_Name c ∉ map cd_Name pre) /\
  (ColumnDescriptor_ID c ∉ map ColumnDescriptor_ID pre) /\
  (Desc_NextColumnID d <= ColumnDescriptor_ID c)%N.

(** The same for the ID bound of the index [i]: the table name and all the
    columns pass, and so do the indexes [pre] before [i]. *)
Definition indexBoundFailsFirst (d : TableDescriptor)
    (pre : list IndexDescriptor) (i : IndexDescriptor) : Prop :=
  validName (desc_Name d) /\
  Desc_Columns d <> [] /\
  columnsPass (Desc_NextColumnID d) (Desc_Columns d) /\
  indexesPass (Desc_NextIndexID d) (Desc_Columns d) pre /\
  validName (id_Name i) /\
  (id_Name i ∉ map id_Name pre) /\
  (IndexDescriptor_ID i ∉ map IndexDescriptor_ID pre) /\
  (Desc_NextIndexID d <= IndexDescriptor_ID i)%N.

(** The errors raised on the table name and on the columns: those reported
    before the indexes are looked at. *)
Definition beforeIndexes (e : ValidationError) : Prop :=
  match e with
  | EmptyName _ | NameContainsSlash _ | NoColumns
  | DuplicateColumnName _ | DuplicateColumnID _ _ | InvalidColumnID _ _ _ => True
  | _ => False
  end.

(** The schemas of the round-trip property: names already lowercase and
    without a slash, index columns among the columns of the schema. *)
Record Conforming (ToLower : string -> string) (s : TableSchema) : Prop := {
  cf_table_lower : ToLower (Table_Name (Schema_Table s)) = Table_Name (Schema_Table s);
  cf_table_slash : containsSlash (Table_Name (Schema_Table s)) = false;
  cf_columns_lower :
    Forall (fun c => ToLower (Column_Name c) = Column_Name c) (Schema_Columns s);
  cf_columns_slash :
    Forall (fun c => containsSlash (Column_Name c) = false) (Schema_Columns s);
  cf_indexes_lower :
    Forall (fun i => ToLower (Index_Name (IndexByName_Index i)) = Index_Name (IndexByName_Index i))
           (Schema_Indexes s);
  cf_indexes_slash :
    Forall (fun i => containsSlash (Index_Name (IndexByName_Index i)) = false)
           (Schema_Indexes s);
  cf_index_columns :
    Forall (fun i =>
              Forall (fun columnName => columnName ∈ map Column_Name (Schema_Columns s))
                     (IndexByName_ColumnNames i))
           (Schema_Indexes s)
}.

(** What a conforming schema needs besides for its descriptor to validate:
    names not empty, at least one column and one index, distinct column
    names, distinct index names and at least one column in every index. *)
Record Complete (s : TableSchema) : Prop := {
  cp_table : Table_Name (Schema_Table s) <> EmptyString;
  cp_columns : Schema_Columns s <> [];
  cp_indexes : Schema_Indexes s <> [];
  cp_column_names : Forall (fun c => Column_Name c <> EmptyString) (Schema_Columns s);
  cp_column_names_unique : NoDup (map Column_Name (Schema_Columns s));
  cp_index_names :
    Forall (fun i => Index_Name (IndexByName_Index i) <> EmptyString) (Schema_Indexes s);
  cp_index_names_unique :
    NoDup (map (fun i => Index_Name (IndexByName_Index i)) (Schema_Indexes s));
  cp_index_columns : Forall (fun i => IndexByName_ColumnNames i <> []) (Schema_Indexes s)
}.

(** The schemas whose column and index IDs fit in a [uint32] with room for
    the counters. *)
Definition fitsUint32 (s : TableSchema) : Prop :=
  (N.of_nat (length (Schema_Columns s)) < uint32_modulus)%N /\
  (N.of_nat (length (Schema_Indexes s)) < uint32_modulus)%N.

(** Freshness of the keys of [l] with respect to [before], and among
    themselves. *)
Definition freshKeys {A K} (key : A -> K) (before l : list A) : Prop :=
  NoDup (map key l) /\ forall x, x ∈ map key l -> x ∉ map key before.

Section ClosedForms.

Variable ToLower : string -> string.

(** The column descriptors built by the first loop of
    [TableDescFromSchema] from the counter value [next]. *)
Fixpoint colDescs (next : N) (cols : list Column) : list ColumnDescriptor :=
  match cols with
  | [] => []
  | c :: rest =>
      {| ColumnDescriptor_ID := next; ColumnDescriptor_Column := lowerColumn ToLower c |}
        :: colDescs (uint32_incr next) rest
  end.

(** The index descriptors built by its second loop. *)
Fixpoint idxDescs (next : N) (byName : gmap string N)
    (idxs : list TableSchema_IndexByName) : list IndexDescriptor :=
  match idxs with
  | [] => []
  | i :: rest =>
      {| IndexDescriptor_ID := next;
         IndexDescriptor_Index := lowerIndex ToLower (IndexByName_Index i);
         IndexDescriptor_ColumnIDs := columnIDsOf byName (IndexByName_ColumnNames i) |}
        :: idxDescs (uint32_incr next) byName rest
  end.

End ClosedForms.

(** The map [columnsByName] after the columns [cds] have been entered, and
    the map [columnsByID] of [TableSchemaFromDesc] likewise. *)
Definition byNameOf (byName : gmap string N) (cds : list ColumnDescriptor) : gmap string N :=
  foldl (fun m cd => <[cd_Name cd := ColumnDescriptor_ID cd]> m) byName cds.

Definition byIDOf (byID : gmap N string) (cds : list ColumnDescriptor) : gmap N string :=
  foldl (fun m cd => <[ColumnDescriptor_ID cd := cd_Name cd]> m) byID cds.

End proto_spec.

Module client_spec.

Import encoding client.

(** The contents a field of each kind can have: an integer within the
    range of its width, a float that is a bit pattern of its width. *)
Definition inRange (v : FieldValue) : Prop :=
  match v with
  | VInt w i => (- 2 ^ (bits w - 1) <= i < 2 ^ (bits w - 1))%Z
  | VUint w u => (0 <= u < 2 ^ bits w)%Z
  | VFloat32 f => (0 <= f < 2 ^ 32)%Z
  | VFloat64 f => (0 <= f < 2 ^ 64)%Z
  | _ => True
  end.

(** The supported scalar kinds: bool, the signed and unsigned integers,
    the floats, strings and byte slices. *)
Definition supported (k : Kind) : Prop := k <> KOther.

(** The content of the field can be marshalled: it is of a supported
    kind, a nil interface, or of a type whose serialization method
    succeeds on it. *)
Definition marshals (x : FieldValue) : Prop :=
  match x with
  | VOther | VMessage _ (MarshalFailed _) | VBinaryMarshaler _ (MarshalFailed _) => False
  | _ => True
  end.

(** What a field holds after its content has gone through the conversion
    of a write and the conversion of a read: a [float32] has been widened
    to a [float64] and narrowed again, every other content is untouched. *)
Definition converted {R : GoRuntime} (v : FieldValue) : FieldValue :=
  match v with
  | VFloat32 f => VFloat32 (float64to32 (float32to64 f))
  | _ => v
  end.

(** An integer payload, a byte payload. *)
Definition integerPayload (src : Value) : Prop := Value_Integer src <> None.
Definition bytePayload (src : Value) : Prop := Value_Bytes src <> None.

(** The kinds of a string or byte-slice field, and those of a bool,
    integer or float field. *)
Definition textKind (k : Kind) : Prop :=
  match k with KString _ | KBytes => True | _ => False end.
Definition numericKind (k : Kind) : Prop :=
  match k with KBool | KInt _ | KUint _ | KFloat32 | KFloat64 => True | _ => False end.

(** The row operations of a batch, as data. *)
Inductive RowOp :=
| OpGet (obj : Interface) (columns : list string)
| OpPut (obj : Interface) (columns : list string)
| OpInc (obj : Interface) (value : Z) (column : string)
| OpScan (dest : Dest) (start end_ : Interface) (maxRows : Z) (columns : list string)
| OpDel (obj : Interface) (columns : list string).

(** The key of a KV request. *)
Definition requestKey (args : Request) : list byte :=
  match args with
  | GetRequest key => key
  | PutRequest key _ => key
  | IncrementRequest key _ => key
  | ScanRequest key _ _ => key
  | DeleteRequest key => key
  end.

(** A cell of a table: the record it was written from and its column. *)
Abbreviation Cell := (StructVal * string)%type.

Section Operations.

Context {E : Encoding} {R : GoRuntime} {C : ValueChecksum}.

(** The batch after an operation. *)
Definition applyOp (b : Batch) (op : RowOp) : Batch :=
  match op with
  | OpGet obj columns => GetStruct b obj columns
  | OpPut obj columns => PutStruct b obj columns
  | OpInc obj value column => IncStruct b obj value column
  | OpScan dest start end_ maxRows columns => ScanStruct b dest start end_ maxRows columns
  | OpDel obj columns => DelStruct b obj columns
  end.

(** The order-preserving encoding of a primary-key value, by type: byte
    strings and strings as their bytes, a bool as the signed varint of 0 or
    1, integers as signed or unsigned varints, floats as numeric floats. *)
Definition encode_T (v : FieldValue) : list byte :=
  match v with
  | VBytes t => EncodeBytes [] (bytesOf t)
  | VString _ s => EncodeBytes [] (list_byte_of_string s)
  | VBool b => EncodeVarint [] (if b then 1 else 0)
  | VInt _ i => EncodeVarint [] i
  | VUint _ u => EncodeUvarint [] u
  | VFloat32 f => EncodeNumericFloat [] (float32to64 f)
  | VFloat64 f => EncodeNumericFloat [] f
  | VNil _ | VMessage _ _ | VBinaryMarshaler _ _ | VOther => []
  end.

(** The values of the primary-key columns of a record, in the declared
    order of the primary key. *)
Definition pkValues (m : model) (v : StructVal) : list FieldValue :=
  omap (fun col => FieldByIndex v <$> (fields m !! col)) (primaryKey m).

(** The row prefix of a record: the encoded table name followed by the
    encoded primary-key values. *)
Definition rowPrefix (m : model) (v : StructVal) : list byte :=
  EncodeBytes [] (list_byte_of_string (name m))
    ++ concat (map encode_T (pkValues m v)).

(** The key of the cell of a record in a column. *)
Definition cellKey (m : model) (v : StructVal) (column : string) : list byte :=
  rowPrefix m v ++ list_byte_of_string column.

(** *** Cells and rows of a scan *)

(** The record has the fields of the record type, each of its kind and
    with a content of that kind. *)
Definition typed (modelT : StructType) (v : StructVal) : Prop :=
  sv_Type v = modelT /\
  map KindOf (sv_Fields v) = map snd (st_Fields modelT) /\
  Forall inRange (sv_Fields v).

(** The field is not a [float32] NaN. A [float32] is written as a
    [float64] and narrowed when it is read, which keeps every number and
    the infinities but may change the payload of a NaN. *)
Definition notNaN32 (v : FieldValue) : Prop :=
  match v with
  | VFloat32 f => isNaN32 f = false
  | _ => True
  end.

(** A value that a key can carry and give back: of a supported kind, not
    the nil byte slice, which is encoded like the empty one, and not a
    [float32] NaN. *)
Definition keyValue (v : FieldValue) : Prop :=
  supported (KindOf v) /\ v <> VBytes None /\ notNaN32 v.

(** Every primary-key column of [m] is a field of [r] with a key value. *)
Definition validPK (m : model) (r : StructVal) : Prop :=
  Forall (fun col => exists f, fields m !! col = Some f /\ keyValue (FieldByIndex r f))
         (primaryKey m).

(** A value that a cell can hold and give back: of a supported kind, and
    not a [float32] NaN. *)
Definition cellContent (v : FieldValue) : Prop :=
  supported (KindOf v) /\ notNaN32 v.

(** A cell of the table bound to [modelT] by [m]: its record is one of the
    type, every primary-key column is a field with a key value, and its
    column is a field whose content a cell can hold. *)
Definition validCell (m : model) (modelT : StructType) (c : Cell) : Prop :=
  typed modelT (fst c) /\
  validPK m (fst c) /\
  exists f, fields m !! snd c = Some f /\ cellContent (FieldByIndex (fst c) f).

(** The value stored in a cell: the marshalled field, with its checksum. *)
Definition cellValue (m : model) (c : Cell) : Value :=
  match fields m !! snd c with
  | Some f =>
      match marshalTableValue (FieldByIndex (fst c) f) with
      | Ok pv => InitChecksum pv (cellKey m (fst c) (snd c))
      | Err _ => mkValue None None None
      end
  | None => mkValue None None None
  end.

(** The key-value pair of a cell, as [PutStruct] writes it and a scan
    returns it. *)
Definition cellRow (m : model) (c : Cell) : KeyValue :=
  {| KeyValue_Key := cellKey m (fst c) (snd c); KeyValue_Value := cellValue m c |}.

(** The column is among those asked for: every column when none is named. *)
Definition requested (columns : list string) (col : string) : bool :=
  Nat.eqb (length columns) 0 || bool_decide (col ∈ columns).

(** The zero record with the primary-key fields of [r]. *)
Definition pkRecord (m : model) (modelT : StructType) (r : StructVal) : StructVal :=
  foldl (fun rec col =>
           match fields m !! col with
           | Some f => SetFieldByIndex rec f (FieldByIndex r f)
           | None => rec
           end)
        (zeroStruct modelT) (primaryKey m).

(** The locators of the primary-key fields, and a record with the fields
    at given locators taken from [r]. *)
Definition pkLocs (m : model) : list nat :=
  omap (fun col => fields m !! col) (primaryKey m).

Definition setFrom (r rec : StructVal) (locs : list nat) : StructVal :=
  foldl (fun rec f => SetFieldByIndex rec f (FieldByIndex r f)) rec locs.

(** The kinds of the fields of a record. *)
Definition kindsOf (v : StructVal) : list Kind := map KindOf (sv_Fields v).

(** The effect of one cell on the record of its row: the field of a
    requested column takes the content of the cell. *)
Definition applyCell (m : model) (columns : list string) (rec : StructVal) (c : Cell)
    : StructVal :=
  if requested columns (snd c)
  then match fields m !! snd c with
       | Some f => SetFieldByIndex rec f (FieldByIndex (fst c) f)
       | None => rec
       end
  else rec.

(** The record of a row, from the cells of the row: the primary-key
    fields of the row, the requested cells in their fields, zero values
    elsewhere. *)
Definition recordOf (m : model) (modelT : StructType) (columns : list string)
    (row : list Cell) : StructVal :=
  match row with
  | [] => zeroStruct modelT
  | c :: _ => foldl (applyCell m columns) (pkRecord m modelT (fst c)) row
  end.

(** The cells of a reply, cut into rows: consecutive cells with the same
    row prefix. *)
Fixpoint rowsOf (m : model) (cells : list Cell) : list (list Cell) :=
  match cells with
  | [] => []
  | c :: rest =>
      match rowsOf m rest with
      | (c' :: row) :: rows =>
          if bool_decide (rowPrefix m (fst c) = rowPrefix m (fst c'))
          then (c :: c' :: row) :: rows
          else [c] :: (c' :: row) :: rows
      | _ => [[c]]
      end
  end.

(** What remains to be appended when the decoder holds the record [rec]
    of the row of [r0] and the cells [cells] are still to come: the record
    completed by the cells of its row that follow, then the records of
    the later rows. *)
Definition remaining (m : model) (modelT : StructType) (columns : list string)
    (r0 rec : StructVal) (cells : list Cell) : list StructVal :=
  match rowsOf m cells with
  | (c' :: row) :: rows =>
      if bool_decide (rowPrefix m r0 = rowPrefix m (fst c'))
      then foldl (applyCell m columns) rec (c' :: row)
             :: map (recordOf m modelT columns) rows
      else rec :: map (recordOf m modelT columns) ((c' :: row) :: rows)
  | _ => [rec]
  end.

(** The set of columns the decoder keeps, as the code builds it. *)
Definition scanColsOf (columns : list string) : option (gset string) :=
  if Nat.ltb 0 (length columns) then Some (list_to_set columns) else None.

(** The record in flight has the fields of the record type and the
    primary-key fields of [r0]. *)
Definition inFlight (m : model) (r0 rec : StructVal) : Prop :=
  kindsOf rec = kindsOf r0 /\
  forall f, f ∈ pkLocs m -> FieldByIndex rec f = FieldByIndex r0 f.

(** The row prefix of a row. *)
Definition prefixOf (m : model) (row : list Cell) : list byte :=
  match row with
  | [] => []
  | c :: _ => rowPrefix m (fst c)
  end.

(** No requested cell among [cells] is written to the field [f]. *)
Definition untouched (m : model) (columns : list string) (f : nat) (cells : list Cell)
    : Prop :=
  Forall (fun c => requested columns (snd c) = true -> fields m !! snd c <> Some f) cells.

(** [rows] cuts [cells] into rows: the rows in order make up the cells,
    none is empty, the cells of a row have the row prefix of the row, and
    no two rows have the same row prefix. *)
Definition grouped (m : model) (cells : list Cell) (rows : list (list Cell)) : Prop :=
  concat rows = cells /\
  Forall (fun row => row <> []) rows /\
  Forall (fun row => Forall (fun c => rowPrefix m (fst c) = prefixOf m row) row) rows /\
  NoDup (map (prefixOf m) rows).

(** [rec] is the record decoded from the cells of [row]: its row prefix
    is that of the row, its primary-key fields are those of the cells of
    the row, a requested cell is in its field (the last one, should
    several be written to the same field), and a field outside the primary
    key that no requested cell is written to has its zero value. *)
Definition decodedFrom (m : model) (modelT : StructType) (columns : list string)
    (row : list Cell) (rec : StructVal) : Prop :=
  rowPrefix m rec = prefixOf m row /\
  (forall c f, c ∈ row -> f ∈ pkLocs m -> FieldByIndex rec f = FieldByIndex (fst c) f) /\
  (forall pre c post f,
      row = pre ++ c :: post -> requested columns (snd c) = true ->
      fields m !! snd c = Some f -> untouched m columns f post ->
      FieldByIndex rec f = FieldByIndex (fst c) f) /\
  (forall f, f ∉ pkLocs m -> untouched m columns f row ->
      FieldByIndex rec f = FieldByIndex (zeroStruct modelT) f).

End Operations.

(** The record an operation on one row is about. *)
Definition opRecord (op : RowOp) : option StructVal :=
  match op with
  | OpGet obj _ | OpPut obj _ | OpInc obj _ _ | OpDel obj _ => Some (Indirect obj)
  | OpScan _ _ _ _ _ => None
  end.

(** The record type whose model an operation looks up. *)
Definition opType (op : RowOp) : option StructType :=
  match op with
  | OpGet obj _ | OpPut obj _ | OpInc obj _ _ | OpDel obj _ => Some (sv_Type (Indirect obj))
  | OpScan (DSlicePtr _ elem) _ _ _ _ => Some (deref elem)
  | OpScan _ _ _ _ _ => None
  end.


(** The operation is on a record type that is not bound. *)
Definition unboundType (db : DB) (op : RowOp) : Prop :=
  exists t, opType op = Some t /\ experimentalModels db !! t = None.


(** The setup of the operation failed with [err]: the error is the entry
    of the operation in the batch, which counts no call, and the calls of
    the batch are as they were. *)
Definition setupFailed (b b' : Batch) (err : error) : Prop :=
  Batch_calls b' = Batch_calls b /\
  Batch_Results b' = Batch_Results b ++ [mkResult 0 (Some err) 0].

(** The setup of the operation succeeded: its calls follow those of the
    batch and its entry carries no error. *)
Definition enqueued (b b' : Batch) (calls : list Call) : Prop :=
  Batch_calls b' = Batch_calls b ++ calls /\
  exists numRows,
    Batch_Results b' = Batch_Results b ++ [mkResult (length calls) None numRows].

End client_spec.

(** ** Descriptors and schemas of the test suite and of the examples *)

Module fixtures.

Import proto.

(** The descriptor of the test case "duplicate column name": two columns
    named bar and no index. *)
Definition twoBars : TableDescriptor :=
  {| Desc_Table := {| Table_Name := "foo" |};
     Desc_Columns :=
       [ {| ColumnDescriptor_ID := 0;
            ColumnDescriptor_Column := {| Column_Name := "bar"; Column_Type := BYTES |} |};
         {| ColumnDescriptor_ID := 0;
            ColumnDescriptor_Column := {| Column_Name := "bar"; Column_Type := BYTES |} |} ];
     Desc_Indexes := [];
     Desc_NextColumnID := 1;
     Desc_NextIndexID := 0 |}.

(** A table foo with the single column bar of ID 7 and a column counter
    of 1. *)
Definition barSeven : TableDescriptor :=
  {| Desc_Table := {| Table_Name := "foo" |};
     Desc_Columns :=
       [ {| ColumnDescriptor_ID := 7;
            ColumnDescriptor_Column := {| Column_Name := "bar"; Column_Type := BYTES |} |} ];
     Desc_Indexes := [];
     Desc_NextColumnID := 1;
     Desc_NextIndexID := 0 |}.

(** A table foo whose only column has the empty name and the ID 5, with a
    column counter of 1. *)
Definition unnamedFive : TableDescriptor :=
  {| Desc_Table := {| Table_Name := "foo" |};
     Desc_Columns :=
       [ {| ColumnDescriptor_ID := 5;
            ColumnDescriptor_Column := {| Column_Name := EmptyString; Column_Type := BYTES |} |} ];
     Desc_Indexes := [];
     Desc_NextColumnID := 1;
     Desc_NextIndexID := 0 |}.

(** The schema of the test [TestTableDescFromSchema]. *)
Definition fooSchema : TableSchema :=
  {| Schema_Table := {| Table_Name := "foo" |};
     Schema_Columns :=
       [ {| Column_Name := "a"; Column_Type := BYTES |};
         {| Column_Name := "b"; Column_Type := BYTES |};
         {| Column_Name := "c"; Column_Type := BYTES |} ];
     Schema_Indexes :=
       [ {| IndexByName_Index := {| Index_Name := "a"; Index_Unique := true |};
            IndexByName_ColumnNames := ["a"] |};
         {| IndexByName_Index := {| Index_Name := "b"; Index_Unique := false |};
            IndexByName_ColumnNames := ["a"; "b"] |} ] |}.

(** A schema with one column and no index. *)
Definition noIndexSchema : TableSchema :=
  {| Schema_Table := {| Table_Name := "foo" |};
     Schema_Columns := [ {| Column_Name := "a"; Column_Type := BYTES |} ];
     Schema_Indexes := [] |}.

(** A schema with two columns of the same name and an index on it. *)
Definition twoAsSchema : TableSchema :=
  {| Schema_Table := {| Table_Name := "foo" |};
     Schema_Columns :=
       [ {| Column_Name := "a"; Column_Type := BYTES |};
         {| Column_Name := "a"; Column_Type := INT |} ];
     Schema_Indexes :=
       [ {| IndexByName_Index := {| Index_Name := "primary"; Index_Unique := true |};
            IndexByName_ColumnNames := ["a"] |} ] |}.

End fixtures.

(** ** Records of the examples *)

Module examples.

Import encoding client.

(** The record type [User = (id string, name string, title string)]. *)
Definition UserT : StructType :=
  {| st_Name := "User";
     st_Fields := [("id", KString false); ("name", KString false); ("title", KString false)] |}.

Definition user (id name title : string) : StructVal :=
  {| sv_Type := UserT;
     sv_Fields := [VString false id; VString false name; VString false title] |}.

(** [User{"42", "ada", "admin"}] and a record holding only the id. *)
Definition ada : StructVal := user "42" "ada" "admin".
Definition only42 : StructVal := user "42" EmptyString EmptyString.

(** A second user, and the cells of a scan over both: the name and the
    title of the first, the name of the second. *)
Definition bob : StructVal := user "43" "bob" "dev".

Definition scanCells : list (StructVal * string) :=
  [(ada, "name"); (ada, "title"); (bob, "name")].





(** A client without any binding. *)
Definition emptyDB : DB := {| experimentalModels := ∅ |}.

Section Users.

Context {E : Encoding} {R : GoRuntime} {C : ValueChecksum}.

(** The client after binding [User] to the table users with the primary
    key id. *)
Definition usersDB : DB :=
  fst (BindModel emptyDB "users" (IStruct (zeroStruct UserT)) ["id"]).

Definition usersModel : model :=
  {| name := "users";
     fields := getDBFields UserT;
     primaryKey := ["id"];
     otherColumns :=
       filter (fun col => col ∉ (list_to_set ["id"] : gset string))
              (rangeKeys (getDBFields UserT)) |}.



(** The row prefix of the user 42 and the keys of its two cells. *)
Definition usersPK : list byte :=
  EncodeBytes (EncodeBytes [] (list_byte_of_string "users")) (list_byte_of_string "42").

Definition nameKey : list byte := usersPK ++ list_byte_of_string "name".
Definition titleKey : list byte := usersPK ++ list_byte_of_string "title".

(** What the store holds for the row of ada. *)
Definition holdsAda (store : Store) : Prop :=
  exists vn vt,
    store !! nameKey = Some vn /\ store !! titleKey = Some vt /\
    Value_Bytes vn = Some (list_byte_of_string "ada") /\ Value_Integer vn = None /\
    Value_Bytes vt = Some (list_byte_of_string "admin") /\ Value_Integer vt = None.

End Users.

End examples.

(** ** Further properties of the descriptors: what is stated *)

Module schema_spec.

Import proto.

(** The error [e] names a defect that the descriptor [d] has: the empty
    or slashed name is a name of [d], the duplicate name or ID is that of
    a column (index) and of one before it, the ID beyond the counter is
    that of a column (index) of [d], the index without columns is an index
    of [d], and the unknown column ID is listed by an index of [d] and is
    the ID of no column. *)
Definition genuine (d : TableDescriptor) (e : ValidationError) : Prop :=
  match e with
  | EmptyName typ =>
      (typ = "table" /\ desc_Name d = EmptyString) \/
      (typ = "column" /\ exists c, In c (Desc_Columns d) /\ cd_Name c = EmptyString) \/
      (typ = "index" /\ exists i, In i (Desc_Indexes d) /\ id_Name i = EmptyString)
  | NameContainsSlash n =>
      containsSlash n = true /\
      (n = desc_Name d \/ In n (map cd_Name (Desc_Columns d)) \/
       In n (map id_Name (Desc_Indexes d)))
  | NoColumns => Desc_Columns d = []
  | DuplicateColumnName n =>
      exists pre c post,
        Desc_Columns d = pre ++ c :: post /\ cd_Name c = n /\ In n (map cd_Name pre)
  | DuplicateColumnID n id =>
      exists pre c post,
        Desc_Columns d = pre ++ c :: post /\ cd_Name c = n /\
        ColumnDescriptor_ID c = id /\ In id (map ColumnDescriptor_ID pre)
  | InvalidColumnID n id next =>
      next = Desc_NextColumnID d /\ (next <= id)%N /\
      exists c, In c (Desc_Columns d) /\ cd_Name c = n /\ ColumnDescriptor_ID c = id
  | NoIndexes => Desc_Indexes d = []
  | DuplicateIndexName n =>
      exists pre i post,
        Desc_Indexes d = pre ++ i :: post /\ id_Name i = n /\ In n (map id_Name pre)
  | DuplicateIndexID n id =>
      exists pre i post,
        Desc_Indexes d = pre ++ i :: post /\ id_Name i = n /\
        IndexDescriptor_ID i = id /\ In id (map IndexDescriptor_ID pre)
  | InvalidIndexID n id next =>
      next = Desc_NextIndexID d /\ (next <= id)%N /\
      exists i, In i (Desc_Indexes d) /\ id_Name i = n /\ IndexDescriptor_ID i = id
  | IndexNoColumns n =>
      exists i, In i (Desc_Indexes d) /\ id_Name i = n /\ IndexDescriptor_ColumnIDs i = []
  | IndexUnknownColumn n id =>
      exists i, In i (Desc_Indexes d) /\ id_Name i = n /\
                In id (IndexDescriptor_ColumnIDs i) /\
                ~ In id (map ColumnDescriptor_ID (Desc_Columns d))
  end.

(** The errors about IDs: a duplicate ID, an ID beyond its counter, a
    column ID that no column has. *)
Definition idError (e : ValidationError) : Prop :=
  match e with
  | DuplicateColumnID _ _ | InvalidColumnID _ _ _
  | DuplicateIndexID _ _ | InvalidIndexID _ _ _
  | IndexUnknownColumn _ _ => True
  | _ => False
  end.

Section Normal.

Variable ToLower : string -> string.

(** The column that an index column name stands for after the conversion
    to a descriptor and back: itself when it is the (lowercased) name of a
    column, and otherwise the first column, the one with the ID 0 that a
    missing name is given ([EmptyString] when there is no column). *)
Definition resolve (names : list string) (n : string) : string :=
  if bool_decide (n ∈ names) then n else default EmptyString (head names).

(** The schema with its names in lower case and its index columns
    resolved. *)
Definition normalize (s : TableSchema) : TableSchema :=
  let names := map (fun c => ToLower (Column_Name c)) (Schema_Columns s) in
  {| Schema_Table := {| Table_Name := ToLower (Table_Name (Schema_Table s)) |};
     Schema_Columns := map (lowerColumn ToLower) (Schema_Columns s);
     Schema_Indexes :=
       map (fun i =>
              {| IndexByName_Index := lowerIndex ToLower (IndexByName_Index i);
                 IndexByName_ColumnNames := map (resolve names) (IndexByName_ColumnNames i) |})
           (Schema_Indexes s) |}.

(** The schemas whose descriptor validates: lowercased names that are
    well formed, at least one column and one index, column names, and
    index names, that stay distinct in lower case, and at least one column
    name in every index. *)
Record Accepted (s : TableSchema) : Prop := {
  ac_table : proto_spec.validName (ToLower (Table_Name (Schema_Table s)));
  ac_columns : Schema_Columns s <> [];
  ac_indexes : Schema_Indexes s <> [];
  ac_column_names :
    Forall (fun c => proto_spec.validName (ToLower (Column_Name c))) (Schema_Columns s);
  ac_column_names_unique :
    NoDup (map (fun c => ToLower (Column_Name c)) (Schema_Columns s));
  ac_index_names :
    Forall (fun i => proto_spec.validName (ToLower (Index_Name (IndexByName_Index i))))
           (Schema_Indexes s);
  ac_index_names_unique :
    NoDup (map (fun i => ToLower (Index_Name (IndexByName_Index i))) (Schema_Indexes s));
  ac_index_columns : Forall (fun i => IndexByName_ColumnNames i <> []) (Schema_Indexes s)
}.

(** The names of the descriptor are in lower case already. *)
Definition lowercase (d : TableDescriptor) : Prop :=
  ToLower (desc_Name d) = desc_Name d /\
  Forall (fun c => ToLower (cd_Name c) = cd_Name c) (Desc_Columns d) /\
  Forall (fun i => ToLower (id_Name i) = id_Name i) (Desc_Indexes d).

(** The numbers of columns and of indexes of the descriptor are below
    [2^32]. *)
Definition fitsUint32Desc (d : TableDescriptor) : Prop :=
  (N.of_nat (length (Desc_Columns d)) < uint32_modulus)%N /\
  (N.of_nat (length (Desc_Indexes d)) < uint32_modulus)%N.

End Normal.

(** A schema with the columns A and B, in upper case, and an index on B. *)
Definition upperSchema : TableSchema :=
  {| Schema_Table := {| Table_Name := "Foo" |};
     Schema_Columns := [ {| Column_Name := "A"; Column_Type := BYTES |};
                         {| Column_Name := "B"; Column_Type := INT |} ];
     Schema_Indexes :=
       [ {| IndexByName_Index := {| Index_Name := "Primary"; Index_Unique := true |};
            IndexByName_ColumnNames := ["B"] |} ] |}.


(** The name that [TableSchemaFromDesc] gives to a column ID: that of the
    last column of the descriptor with this ID, and the empty name when no
    column has it. *)
Definition nameOfID (columns : list ColumnDescriptor) (columnID : N) : string :=
  default EmptyString
    (cd_Name <$> last (filter (fun c => ColumnDescriptor_ID c = columnID) columns)).

(** A valid descriptor whose IDs are not the positions: the columns id
    and name with the IDs 3 and 7, and an index on the IDs 7 and 3. *)
Definition fooDesc : TableDescriptor :=
  {| Desc_Table := {| Table_Name := "foo" |};
     Desc_Columns :=
       [ {| ColumnDescriptor_ID := 3;
            ColumnDescriptor_Column := {| Column_Name := "id"; Column_Type := BYTES |} |};
         {| ColumnDescriptor_ID := 7;
            ColumnDescriptor_Column := {| Column_Name := "name"; Column_Type := STRING |} |} ];
     Desc_Indexes :=
       [ {| IndexDescriptor_ID := 2;
            IndexDescriptor_Index := {| Index_Name := "primary"; Index_Unique := true |};
            IndexDescriptor_ColumnIDs := [7%N; 3%N] |} ];
     Desc_NextColumnID := 8;
     Desc_NextIndexID := 3 |}.

End schema_spec.

(** ** Further properties of the record/row adapter: what is stated *)

Module adapter_spec.

Import encoding client client_spec.

(** Every primary-key column of [m] is a field of [v] of a supported
    kind: what [encodePrimaryKey] needs. *)
Definition encodable (m : model) (v : StructVal) : Prop :=
  Forall (fun col => exists f, fields m !! col = Some f /\
                               supported (KindOf (FieldByIndex v f)))
         (primaryKey m).

(** The error of [encodePrimaryKey] is that of a primary-key column: one
    that is not a field, or one whose field is of no supported kind. *)
Definition keyError (m : model) (v : StructVal) (err : error) : Prop :=
  exists col, col ∈ primaryKey m /\
    ((fields m !! col = None /\ err = ErrNoField (name m) col) \/
     (exists f, fields m !! col = Some f /\ KindOf (FieldByIndex v f) = KOther /\
                err = ErrEncodeKey (FieldByIndex v f))).

(** The columns that a get, put or delete works on: the named ones, and
    the columns outside the primary key when none is named. *)
Definition columnsOf (m : model) (columns : list string) : list string :=
  if Nat.eqb (length columns) 0 then otherColumns m else columns.

(** Every column is a field of [v] of a supported kind. *)
Definition storable (m : model) (v : StructVal) (columns : list string) : Prop :=
  Forall (fun col => exists f, fields m !! col = Some f /\
                               supported (KindOf (FieldByIndex v f))) columns.

(** The calls of a batch and the numbers of calls that its entries
    record agree. *)
Definition accounted (b : Batch) : Prop :=
  length (Batch_calls b) = list_sum (map Result_calls (Batch_Results b)).

Section Calls.

Context {E : Encoding} {R : GoRuntime} {C : ValueChecksum}.

(** The Put call of the cell of the record [v] in the column [col]: its
    key is the key of the cell, its value the marshalled field with its
    checksum, and it has no post-reply decoder. *)
Definition putCall (m : model) (v : StructVal) (col : string) : Call :=
  {| Call_Args := PutRequest (cellKey m v col) (cellValue m (v, col));
     Call_Post := None |}.

(** The batch after an operation that has enqueued [calls]. *)
Definition withCalls (b : Batch) (calls : list Call) (numRows : nat) : Batch :=
  {| Batch_DB := Batch_DB b;
     Batch_calls := Batch_calls b ++ calls;
     Batch_Results := Batch_Results b ++ [mkResult (length calls) None numRows] |}.

(** The model of the users table under the name groups. *)
Definition groupsModel : model :=
  {| name := "groups";
     fields := fields examples.usersModel;
     primaryKey := primaryKey examples.usersModel;
     otherColumns := otherColumns examples.usersModel |}.

End Calls.

End adapter_spec.

(** ** The setup of the row operations, by its inputs *)

Module operation_spec.

Import encoding client client_spec adapter_spec.

(** A get or an increment is handed a record, not a pointer to one. *)
Definition notPointer (op : RowOp) : Prop :=
  match op with
  | OpGet (IStruct _) _ | OpInc (IStruct _) _ _ => True
  | _ => False
  end.

(** The destination of a scan is not a pointer to a slice. *)
Definition badDest (op : RowOp) : Prop :=
  match op with
  | OpScan DNotPointer _ _ _ _ | OpScan (DNotSlice _) _ _ _ _ => True
  | _ => False
  end.

(** The records whose primary key the operation encodes: the record of a
    get, put, increment or delete, the start and end records of a scan. *)
Definition opKeys (op : RowOp) : list StructVal :=
  match op with
  | OpGet obj _ | OpPut obj _ | OpInc obj _ _ | OpDel obj _ => [Indirect obj]
  | OpScan _ start end_ _ _ => [Indirect start; Indirect end_]
  end.

(** The start or end record of a scan is not of the record type of the
    destination. *)
Definition keyTypeMismatch (op : RowOp) : Prop :=
  exists t v, opType op = Some t /\ v ∈ opKeys op /\ sv_Type v <> t.

(** A primary key of the operation cannot be encoded: a primary-key
    column of the bound model is not a field of the record, or its field is
    of no supported kind. *)
Definition keyFailure (db : DB) (op : RowOp) : Prop :=
  exists t m v,
    opType op = Some t /\ experimentalModels db !! t = Some m /\
    v ∈ opKeys op /\ ~ encodable m v.

(** The columns the operation makes calls for: those of a get, put or
    delete (the columns outside the primary key when none is named), the
    column of an increment. A scan makes one call for its range. *)
Definition opCols (m : model) (op : RowOp) : list string :=
  match op with
  | OpGet _ columns | OpPut _ columns | OpDel _ columns => columnsOf m columns
  | OpInc _ _ column => [column]
  | OpScan _ _ _ _ _ => []
  end.

(** One of these columns is not a field of the bound model. *)
Definition missingColumn (db : DB) (op : RowOp) : Prop :=
  exists t m col,
    opType op = Some t /\ experimentalModels db !! t = Some m /\
    col ∈ opCols m op /\ fields m !! col = None.

(** A put has a column whose field cannot be marshalled. *)
Definition marshalFailure (db : DB) (op : RowOp) : Prop :=
  match op with
  | OpPut obj columns =>
      exists m col f,
        experimentalModels db !! sv_Type (Indirect obj) = Some m /\
        col ∈ columnsOf m columns /\ fields m !! col = Some f /\
        ~ marshals (FieldByIndex (Indirect obj) f)
  | _ => False
  end.

(** The ways to misuse an operation, each of which makes its setup fail. *)
Definition misused (db : DB) (op : RowOp) : Prop :=
  notPointer op \/ badDest op \/ unboundType db op \/ keyTypeMismatch op \/
  keyFailure db op \/ missingColumn db op \/ marshalFailure db op.

(** [vals] are the primary-key values of the record [v]: for each
    primary-key column of [m], in the declared order, the content of the
    field of that column, which is of a supported kind. *)
Definition keyFields (m : model) (v : StructVal) (vals : list FieldValue) : Prop :=
  Forall2 (fun col x =>
             exists f, fields m !! col = Some f /\ FieldByIndex v f = x /\
                       supported (KindOf x))
          (primaryKey m) vals.

(** The layout of the key of a cell: the encoded table name, the encoded
    primary-key values, the bytes of the column name. *)
Definition cellLayout {E : Encoding} {R : GoRuntime} (m : model)
    (vals : list FieldValue) (col : string) : list byte :=
  EncodeBytes [] (list_byte_of_string (name m))
    ++ concat (map encode_T vals)
    ++ list_byte_of_string col.

(** The keys of a list of calls. *)
Definition keysOf (calls : list Call) : list (list byte) :=
  map (fun c => requestKey (Call_Args c)) calls.

End operation_spec.

(** * Properties *)

(** ** The descriptor validator and the schema conversions *)

Module proto_facts.

Import proto proto_spec fixtures.
Lemma firstError_app_Some l rest e :
  firstError l = Some e -> firstError (l ++ rest) = Some e.
Proof.
  induction l as [| [e' |] l IH]; simpl; intros H; try congruence. auto.
Qed.

Lemma firstError_app_None l rest :
  firstError l = None -> firstError (l ++ rest) = firstError rest.
Proof.
  induction l as [| [e' |] l IH]; simpl; intros H; try congruence. auto.
Qed.

Lemma firstError_None l : firstError l = None <-> Forall (fun c => c = None) l.
Proof.
  induction l as [| [e |] l IH]; simpl.
  - split; auto.
  - split; [discriminate | inversion 1; discriminate].
  - rewrite IH. split; [constructor; auto | inversion 1; auto].
Qed.

Lemma firstError_In l e : firstError l = Some e -> In (Some e) l.
Proof.
  induction l as [| [e' |] l IH]; simpl; intros H; try discriminate.
  - left. congruence.
  - right. auto.
Qed.

Lemma validateColumns_checks next cols : forall before bn bi rest,
  (forall x, x ∈ bn <-> x ∈ map cd_Name before) ->
  (forall x, x ∈ bi <-> x ∈ map ColumnDescriptor_ID before) ->
  match validateColumns next cols bn bi with
  | inl e => firstError (allColumnChecks next before cols ++ rest) = Some e
  | inr bi' =>
      firstError (allColumnChecks next before cols ++ rest) = firstError rest /\
      (forall x, x ∈ bi' <-> x ∈ map ColumnDescriptor_ID (before ++ cols))
  end.
Proof.
  induction cols as [| c cols IH]; intros before bn bi rest Hn Hi; simpl.
  - rewrite app_nil_r. auto.
  - destruct (validateName (cd_Name c) "column") as [e |] eqn:Hv; [reflexivity |].
    rewrite (bool_decide_ext _ _ (Hn (cd_Name c))).
    destruct (bool_decide (cd_Name c ∈ map cd_Name before)) eqn:Hdn; [reflexivity |].
    rewrite (bool_decide_ext _ _ (Hi (ColumnDescriptor_ID c))).
    destruct (bool_decide (ColumnDescriptor_ID c ∈ map ColumnDescriptor_ID before)) eqn:Hdi;
      [reflexivity |].
    simpl. destruct (next <=? ColumnDescriptor_ID c)%N eqn:Hb; [reflexivity |].
    simpl.
    specialize (IH (before ++ [c]) ({[cd_Name c]} ∪ bn) ({[ColumnDescriptor_ID c]} ∪ bi) rest).
    rewrite <- (app_assoc before [c] cols) in IH. simpl in IH.
    apply IH.
    + intros x. rewrite map_app, elem_of_app, elem_of_union, Hn. simpl.
      rewrite elem_of_singleton, list_elem_of_singleton. tauto.
    + intros x. rewrite map_app, elem_of_app, elem_of_union, Hi. simpl.
      rewrite elem_of_singleton, list_elem_of_singleton. tauto.
Qed.

Lemma validateIndexColumnIDs_checks n ids (byID : gset N) columns rest :
  (forall x, x ∈ byID <-> x ∈ map ColumnDescriptor_ID columns) ->
  let cs := map (fun columnID =>
                   check (negb (bool_decide (columnID ∈ map ColumnDescriptor_ID columns)))
                     (IndexUnknownColumn n columnID)) ids in
  match validateIndexColumnIDs n ids byID with
  | Some e => firstError (cs ++ rest) = Some e
  | None => firstError (cs ++ rest) = firstError rest
  end.
Proof.
  intros Hi. induction ids as [| i ids IH]; simpl; [reflexivity |].
  rewrite (bool_decide_ext _ _ (Hi i)).
  destruct (bool_decide (i ∈ map ColumnDescriptor_ID columns)); simpl; [apply IH | reflexivity].
Qed.

Lemma validateIndexes_checks next columns (byID : gset N) idxs : forall before bn bi,
  (forall x, x ∈ byID <-> x ∈ map ColumnDescriptor_ID columns) ->
  (forall x, x ∈ bn <-> x ∈ map id_Name before) ->
  (forall x, x ∈ bi <-> x ∈ map IndexDescriptor_ID before) ->
  validateIndexes next idxs byID bn bi = firstError (allIndexChecks next columns before idxs).
Proof.
  induction idxs as [| i idxs IH]; intros before bn bi Hc Hn Hi; simpl; [reflexivity |].
  destruct (validateName (id_Name i) "index") as [e |] eqn:Hv; [reflexivity |].
  rewrite (bool_decide_ext _ _ (Hn (id_Name i))).
  destruct (bool_decide (id_Name i ∈ map id_Name before)); [reflexivity |].
  rewrite (bool_decide_ext _ _ (Hi (IndexDescriptor_ID i))).
  destruct (bool_decide (IndexDescriptor_ID i ∈ map IndexDescriptor_ID before)); [reflexivity |].
  simpl. destruct (next <=? IndexDescriptor_ID i)%N; [reflexivity |]. simpl.
  destruct (IndexDescriptor_ColumnIDs i) as [| cid cids] eqn:Hids; [reflexivity |].
  rewrite bool_decide_eq_false_2 by discriminate. cbv [check].
  pose proof (validateIndexColumnIDs_checks (id_Name i) (cid :: cids) byID columns
                (allIndexChecks next columns (before ++ [i]) idxs) Hc) as Hcols.
  cbv zeta in Hcols.
  destruct (validateIndexColumnIDs (id_Name i) (cid :: cids) byID) as [e |].
  - symmetry. exact Hcols.
  - etransitivity; [| symmetry; exact Hcols]. apply IH; [exact Hc | |].
    + intros x. rewrite map_app, elem_of_app, elem_of_union, Hn. simpl.
      rewrite elem_of_singleton, list_elem_of_singleton. tauto.
    + intros x. rewrite map_app, elem_of_app, elem_of_union, Hi. simpl.
      rewrite elem_of_singleton, list_elem_of_singleton. tauto.
Qed.

(** The validator returns the first failure of its checks, in the order
    in which it makes them. *)
Lemma ValidateTableDesc_firstError d :
  ValidateTableDesc d = firstError (checks d).
Proof.
  unfold ValidateTableDesc, checks.
  destruct (validateName (desc_Name d) "table") as [e |]; [reflexivity |].
  cbn [app firstError].
  destruct (Desc_Columns d) as [| c cols] eqn:Hcols; [reflexivity |].
  rewrite bool_decide_eq_false_2 by discriminate. cbn [check firstError].
  pose proof (validateColumns_checks (Desc_NextColumnID d) (c :: cols) [] ∅ ∅
    ([check (bool_decide (Desc_Indexes d = [])) NoIndexes] ++
       allIndexChecks (Desc_NextIndexID d) (c :: cols) [] (Desc_Indexes d))) as H.
  destruct (validateColumns (Desc_NextColumnID d) (c :: cols) ∅ ∅) as [e | byID].
  - symmetry. apply H; intros x; simpl; rewrite elem_of_empty, elem_of_nil; tauto.
  - destruct H as [H Hid]; try (intros x; simpl; rewrite elem_of_empty, elem_of_nil; tauto).
    etransitivity; [| symmetry; exact H].
    destruct (Desc_Indexes d) as [| i idxs] eqn:Hidx; [reflexivity |].
    rewrite bool_decide_eq_false_2 by discriminate.
    change (validateIndexes (Desc_NextIndexID d) (i :: idxs) byID ∅ ∅ =
            firstError (allIndexChecks (Desc_NextIndexID d) (c :: cols) [] (i :: idxs))).
    apply validateIndexes_checks.
    + exact Hid.
    + intros x; simpl; rewrite elem_of_empty, elem_of_nil; tauto.
    + intros x; simpl; rewrite elem_of_empty, elem_of_nil; tauto.
Qed.

Lemma validateName_None n typ : validateName n typ = None <-> validName n.
Proof.
  unfold validateName, validName.
  destruct n as [| a n]; simpl.
  - split; [discriminate | intros [H _]; congruence].
  - destruct (containsSlash (String a n)); split; try discriminate; auto.
    intros [_ H]; discriminate.
Qed.

Lemma validateName_Some n typ e :
  validateName n typ = Some e -> e = EmptyName typ \/ e = NameContainsSlash n.
Proof.
  unfold validateName.
  destruct (Nat.eqb (String.length n) 0); [intros [= <-]; auto |].
  destruct (containsSlash n); [intros [= <-]; auto | discriminate].
Qed.

Lemma check_None b e : check b e = None <-> b = false.
Proof. destruct b; simpl; split; congruence. Qed.

Lemma check_Some b e e' : check b e = Some e' <-> b = true /\ e' = e.
Proof. destruct b; simpl; split; try intros [? ?]; try congruence. intros [= <-]; auto. Qed.

Lemma allColumnChecks_app next before l1 l2 :
  allColumnChecks next before (l1 ++ l2) =
  allColumnChecks next before l1 ++ allColumnChecks next (before ++ l1) l2.
Proof.
  revert before. induction l1 as [| c l1 IH]; intros before; simpl.
  - rewrite app_nil_r. reflexivity.
  - rewrite IH, <- !app_assoc. reflexivity.
Qed.

Lemma allIndexChecks_app next columns before l1 l2 :
  allIndexChecks next columns before (l1 ++ l2) =
  allIndexChecks next columns before l1 ++ allIndexChecks next columns (before ++ l1) l2.
Proof.
  revert before. induction l1 as [| c l1 IH]; intros before; simpl.
  - rewrite app_nil_r. reflexivity.
  - rewrite IH, <- !app_assoc. reflexivity.
Qed.

Lemma freshKeys_nil {A K} (key : A -> K) before : freshKeys key before [].
Proof. split; [constructor | intros x Hx; simpl in Hx; inversion Hx]. Qed.

Lemma freshKeys_cons {A K} (key : A -> K) before c l :
  freshKeys key before (c :: l) <->
  (key c ∉ map key before) /\ freshKeys key (before ++ [c]) l.
Proof.
  unfold freshKeys. simpl. rewrite NoDup_cons. split.
  - intros [[Hc Hnd] Hf]. split; [apply Hf; left |]. split; [exact Hnd |].
    intros x Hx. rewrite map_app, elem_of_app. simpl. rewrite list_elem_of_singleton.
    intros [Hb | ->]; [| contradiction]. apply (Hf x); [right; exact Hx | exact Hb].
  - intros [Hc [Hnd Hf]]. split; [split; [| exact Hnd] |].
    + intros Hin. apply (Hf _ Hin). rewrite map_app, elem_of_app. right. simpl. left.
    + intros x Hx. apply elem_of_cons in Hx as [-> | Hx]; [exact Hc |].
      intros Hb. apply (Hf x Hx). rewrite map_app, elem_of_app. left. exact Hb.
Qed.

Lemma allColumnChecks_None next cols : forall before,
  Forall (fun c => c = None) (allColumnChecks next before cols) <->
  Forall (fun c => validName (cd_Name c)) cols /\
  freshKeys cd_Name before cols /\
  freshKeys ColumnDescriptor_ID before cols /\
  Forall (fun c => (ColumnDescriptor_ID c < next)%N) cols.
Proof.
  induction cols as [| c cols IH]; intros before; simpl.
  - split; [intros _ | constructor].
    repeat split; try constructor; intros x Hx; inversion Hx.
  - rewrite !Forall_cons, IH, !freshKeys_cons, validateName_None, !check_None.
    rewrite !bool_decide_eq_false, N.leb_gt. tauto.
Qed.

Lemma freshKeys_start {A K} (key : A -> K) l : freshKeys key [] l <-> NoDup (map key l).
Proof.
  unfold freshKeys. split; [tauto |]. intros H. split; [exact H |].
  intros x _ Hx. simpl in Hx. inversion Hx.
Qed.

Lemma unknownColumnChecks_None n columns ids :
  Forall (fun c => c = None)
    (map (fun columnID =>
            check (negb (bool_decide (columnID ∈ map ColumnDescriptor_ID columns)))
              (IndexUnknownColumn n columnID)) ids) <->
  Forall (fun columnID => columnID ∈ map ColumnDescriptor_ID columns) ids.
Proof.
  induction ids as [| i ids IH]; simpl.
  - split; constructor.
  - rewrite !Forall_cons, IH, check_None, negb_false_iff, bool_decide_eq_true. tauto.
Qed.

Lemma allIndexChecks_None next columns idxs : forall before,
  Forall (fun c => c = None) (allIndexChecks next columns before idxs) <->
  Forall (fun i => validName (id_Name i)) idxs /\
  freshKeys id_Name before idxs /\
  freshKeys IndexDescriptor_ID before idxs /\
  Forall (fun i => (IndexDescriptor_ID i < next)%N) idxs /\
  Forall (fun i =>
            IndexDescriptor_ColumnIDs i <> [] /\
            Forall (fun columnID => columnID ∈ map ColumnDescriptor_ID columns)
                   (IndexDescriptor_ColumnIDs i)) idxs.
Proof.
  induction idxs as [| i idxs IH]; intros before; simpl.
  - split; [intros _ | constructor].
    repeat split; try constructor; intros x Hx; inversion Hx.
  - rewrite !Forall_cons, Forall_app, unknownColumnChecks_None, IH, !freshKeys_cons,
      validateName_None, !check_None.
    rewrite !bool_decide_eq_false, N.leb_gt. tauto.
Qed.

(** The validator accepts exactly the well-formed descriptors. *)
Lemma ValidateTableDesc_None d : ValidateTableDesc d = None <-> WellFormed d.
Proof.
  rewrite ValidateTableDesc_firstError, firstError_None. unfold checks.
  rewrite !Forall_app, !Forall_cons, allColumnChecks_None, allIndexChecks_None,
    validateName_None, !check_None, !bool_decide_eq_false, !freshKeys_start.
  split.
  - intros H. constructor; tauto.
  - intros [? ? ? ? ? ? ? ? ? ? ? ?]. repeat match goal with |- _ /\ _ => split end; try assumption; apply Forall_nil_2.
Qed.

Lemma columnChecks_In next before c e :
  In (Some e) (columnChecks next before c) ->
  e = EmptyName "column" \/ e = NameContainsSlash (cd_Name c) \/
  e = DuplicateColumnName (cd_Name c) \/
  e = DuplicateColumnID (cd_Name c) (ColumnDescriptor_ID c) \/
  (e = InvalidColumnID (cd_Name c) (ColumnDescriptor_ID c) next /\
   (next <= ColumnDescriptor_ID c)%N).
Proof.
  unfold columnChecks. simpl.
  intros [H | [H | [H | [H | []]]]].
  - apply validateName_Some in H. tauto.
  - apply check_Some in H. tauto.
  - apply check_Some in H. tauto.
  - apply check_Some in H. destruct H as [H ->]. apply N.leb_le in H. tauto.
Qed.

Lemma allColumnChecks_In next cols : forall before e,
  In (Some e) (allColumnChecks next before cols) ->
  exists pre c, In c cols /\ In (Some e) (columnChecks next pre c).
Proof.
  induction cols as [| c cols IH]; intros before e; [simpl; tauto |].
  cbn [allColumnChecks]. rewrite in_app_iff. intros [H | H].
  - exists before, c. simpl. auto.
  - destruct (IH _ _ H) as (pre & c' & Hc' & He). exists pre, c'. simpl. auto.
Qed.

Lemma indexChecks_In next columns before i e :
  In (Some e) (indexChecks next columns before i) ->
  e = EmptyName "index" \/ e = NameContainsSlash (id_Name i) \/
  e = DuplicateIndexName (id_Name i) \/
  e = DuplicateIndexID (id_Name i) (IndexDescriptor_ID i) \/
  (e = InvalidIndexID (id_Name i) (IndexDescriptor_ID i) next /\
   (next <= IndexDescriptor_ID i)%N) \/
  e = IndexNoColumns (id_Name i) \/
  exists columnID, e = IndexUnknownColumn (id_Name i) columnID.
Proof.
  unfold indexChecks. rewrite in_app_iff. simpl.
  intros [[H | [H | [H | [H | [H | []]]]]] | H].
  - apply validateName_Some in H. tauto.
  - apply check_Some in H. tauto.
  - apply check_Some in H. tauto.
  - apply check_Some in H. destruct H as [H ->]. apply N.leb_le in H. tauto.
  - apply check_Some in H. tauto.
  - apply in_map_iff in H as (columnID & H & _). apply check_Some in H.
    do 6 right. exists columnID. tauto.
Qed.

Lemma allIndexChecks_In next columns idxs : forall before e,
  In (Some e) (allIndexChecks next columns before idxs) ->
  exists pre i, In i idxs /\ In (Some e) (indexChecks next columns pre i).
Proof.
  induction idxs as [| i idxs IH]; intros before e; [simpl; tauto |].
  cbn [allIndexChecks]. rewrite in_app_iff. intros [H | H].
  - exists before, i. simpl. auto.
  - destruct (IH _ _ H) as (pre & c' & Hc' & He). exists pre, c'. simpl. auto.
Qed.

Lemma checks_In d e :
  In (Some e) (checks d) ->
  e = EmptyName "table" \/ e = NameContainsSlash (desc_Name d) \/ e = NoColumns \/
  (exists pre c, In c (Desc_Columns d) /\
     In (Some e) (columnChecks (Desc_NextColumnID d) pre c)) \/
  e = NoIndexes \/
  (exists pre i, In i (Desc_Indexes d) /\
     In (Some e) (indexChecks (Desc_NextIndexID d) (Desc_Columns d) pre i)).
Proof.
  unfold checks. rewrite !in_app_iff. simpl.
  intros [[H | [H | []]] | [H | [[H | []] | H]]].
  - apply validateName_Some in H. tauto.
  - apply check_Some in H. tauto.
  - apply allColumnChecks_In in H. tauto.
  - apply check_Some in H. tauto.
  - apply allIndexChecks_In in H. tauto.
Qed.

Lemma InvalidColumnID_raised d n id next :
  ValidateTableDesc d = Some (InvalidColumnID n id next) ->
  next = Desc_NextColumnID d /\ (next <= id)%N /\
  exists c, In c (Desc_Columns d) /\ cd_Name c = n /\ ColumnDescriptor_ID c = id.
Proof.
  rewrite ValidateTableDesc_firstError. intros H.
  apply firstError_In, checks_In in H.
  destruct H as [H | [H | [H | [(pre & c & Hc & H) | [H | (pre & i & Hi & H)]]]]];
    try discriminate.
  - apply columnChecks_In in H.
    destruct H as [H | [H | [H | [H | [H Hb]]]]]; try discriminate.
    injection H as -> -> ->. split; [reflexivity | split; [exact Hb | exists c; auto]].
  - apply indexChecks_In in H.
    destruct H as [H | [H | [H | [H | [[H _] | [H | [x H]]]]]]]; discriminate.
Qed.

Lemma InvalidIndexID_raised d n id next :
  ValidateTableDesc d = Some (InvalidIndexID n id next) ->
  next = Desc_NextIndexID d /\ (next <= id)%N /\
  exists i, In i (Desc_Indexes d) /\ id_Name i = n /\ IndexDescriptor_ID i = id.
Proof.
  rewrite ValidateTableDesc_firstError. intros H.
  apply firstError_In, checks_In in H.
  destruct H as [H | [H | [H | [(pre & c & Hc & H) | [H | (pre & i & Hi & H)]]]]];
    try discriminate.
  - apply columnChecks_In in H.
    destruct H as [H | [H | [H | [H | [H Hb]]]]]; discriminate.
  - apply indexChecks_In in H.
    destruct H as [H | [H | [H | [H | [[H Hb] | [H | [x H]]]]]]]; try discriminate.
    injection H as -> -> ->. split; [reflexivity | split; [exact Hb | exists i; auto]].
Qed.

Lemma column_beyond_bound_rejected d c :
  In c (Desc_Columns d) -> (Desc_NextColumnID d <= ColumnDescriptor_ID c)%N ->
  ValidateTableDesc d <> None.
Proof.
  intros Hc Hb Hv. apply ValidateTableDesc_None in Hv.
  pose proof (wf_column_ids_bound _ Hv) as Hall.
  rewrite Forall_forall in Hall. apply list_elem_of_In, Hall in Hc. lia.
Qed.

Lemma index_beyond_bound_rejected d i :
  In i (Desc_Indexes d) -> (Desc_NextIndexID d <= IndexDescriptor_ID i)%N ->
  ValidateTableDesc d <> None.
Proof.
  intros Hc Hb Hv. apply ValidateTableDesc_None in Hv.
  pose proof (wf_index_ids_bound _ Hv) as Hall.
  rewrite Forall_forall in Hall. apply list_elem_of_In, Hall in Hc. lia.
Qed.

Lemma columnsPass_checks next cols :
  columnsPass next cols <-> Forall (fun c => c = None) (allColumnChecks next [] cols).
Proof.
  unfold columnsPass. rewrite allColumnChecks_None, !freshKeys_start. tauto.
Qed.

Lemma indexesPass_checks next columns idxs :
  indexesPass next columns idxs <->
  Forall (fun c => c = None) (allIndexChecks next columns [] idxs).
Proof.
  unfold indexesPass. rewrite allIndexChecks_None, !freshKeys_start. tauto.
Qed.

Lemma column_bound_first d pre c post :
  Desc_Columns d = pre ++ c :: post ->
  columnBoundFailsFirst d pre c ->
  ValidateTableDesc d =
    Some (InvalidColumnID (cd_Name c) (ColumnDescriptor_ID c) (Desc_NextColumnID d)).
Proof.
  intros Hcols (Hname & Hpre & Hc & Hn & Hi & Hb).
  rewrite ValidateTableDesc_firstError. unfold checks. rewrite Hcols.
  apply validateName_None with (typ := "table") in Hname. cbn [app firstError].
  rewrite Hname, bool_decide_eq_false_2 by (destruct pre; discriminate).
  cbn [check]. rewrite allColumnChecks_app, <- app_assoc.
  rewrite firstError_app_None
    by (apply firstError_None, columnsPass_checks; exact Hpre).
  cbn [allColumnChecks columnChecks app].
  apply validateName_None with (typ := "column") in Hc. rewrite Hc.
  rewrite !bool_decide_eq_false_2 by assumption.
  apply N.leb_le in Hb. rewrite Hb. reflexivity.
Qed.

Lemma index_bound_first d pre i post :
  Desc_Indexes d = pre ++ i :: post ->
  indexBoundFailsFirst d pre i ->
  ValidateTableDesc d =
    Some (InvalidIndexID (id_Name i) (IndexDescriptor_ID i) (Desc_NextIndexID d)).
Proof.
  intros Hidx (Hname & Hne & Hcols & Hpre & Hc & Hn & Hi & Hb).
  rewrite ValidateTableDesc_firstError. unfold checks. rewrite Hidx.
  apply validateName_None with (typ := "table") in Hname. cbn [app firstError].
  rewrite Hname, bool_decide_eq_false_2 by assumption.
  cbn [check].
  rewrite firstError_app_None
    by (apply firstError_None, columnsPass_checks; exact Hcols).
  rewrite bool_decide_eq_false_2 by (destruct pre; discriminate).
  cbn [check app firstError]. rewrite allIndexChecks_app.
  rewrite firstError_app_None
    by (apply firstError_None, indexesPass_checks; exact Hpre).
  cbn [allIndexChecks indexChecks app].
  apply validateName_None with (typ := "index") in Hc. rewrite Hc.
  rewrite !bool_decide_eq_false_2 by assumption.
  apply N.leb_le in Hb. rewrite Hb. reflexivity.
Qed.

Lemma beforeIndexes_checks d e :
  In (Some e)
     ([validateName (desc_Name d) "table"; check (bool_decide (Desc_Columns d = [])) NoColumns]
      ++ allColumnChecks (Desc_NextColumnID d) [] (Desc_Columns d)) ->
  beforeIndexes e.
Proof.
  rewrite in_app_iff. simpl. intros [[H | [H | []]] | H].
  - apply validateName_Some in H as [-> | ->]; exact I.
  - apply check_Some in H as [_ ->]. exact I.
  - apply allColumnChecks_In in H as (pre & c & _ & H).
    apply columnChecks_In in H as [-> | [-> | [-> | [-> | [-> _]]]]]; exact I.
Qed.

Lemma duplicate_column_name_reported_first d :
  ~ NoDup (map cd_Name (Desc_Columns d)) ->
  exists e, ValidateTableDesc d = Some e /\ beforeIndexes e /\ e <> NoIndexes.
Proof.
  intros Hdup. rewrite ValidateTableDesc_firstError. unfold checks.
  rewrite app_assoc.
  set (A := [validateName (desc_Name d) "table";
             check (bool_decide (Desc_Columns d = [])) NoColumns]
            ++ allColumnChecks (Desc_NextColumnID d) [] (Desc_Columns d)).
  destruct (firstError A) as [e |] eqn:HA.
  - exists e. split; [apply firstError_app_Some; exact HA |].
    apply firstError_In in HA. apply beforeIndexes_checks in HA.
    split; [exact HA |]. intros ->. exact HA.
  - exfalso. apply Hdup. apply firstError_None in HA. unfold A in HA.
    apply Forall_app in HA as [_ HA]. apply columnsPass_checks in HA.
    apply HA.
Qed.

(** C6 (amended): the validator returns at most one message, the one of
    the first check that fails in the order in which the code makes the
    checks: the table name; the presence of a column; for each column in
    turn its name, its name against the earlier columns, its ID against
    the earlier columns, its ID against [NextColumnID]; the presence of an
    index; for each index in turn the same four checks, the presence of a
    column ID, and each column ID against the columns. In particular a
    descriptor with a duplicate column name is rejected with an error on
    the table name or on a column, whatever its indexes are, and never with
    the missing-index error. *)
Theorem C6_first_failure_in_code_order (d : TableDescriptor) :
  ValidateTableDesc_message d = Error <$> firstError (checks d) /\
  (~ NoDup (map cd_Name (Desc_Columns d)) ->
   exists e, ValidateTableDesc d = Some e /\ beforeIndexes e /\ e <> NoIndexes).
Proof.
  split.
  - unfold ValidateTableDesc_message. rewrite ValidateTableDesc_firstError. reflexivity.
  - apply duplicate_column_name_reported_first.
Qed.


Lemma twoBars_duplicate : ~ NoDup (map cd_Name (Desc_Columns twoBars)).
Proof. intros H. apply NoDup_cons in H as [H _]. apply H. left. Qed.

Lemma C6_witness :
  exists e, ValidateTableDesc twoBars = Some e /\ beforeIndexes e /\ e <> NoIndexes.
Proof.
  exact (proj2 (C6_first_failure_in_code_order twoBars) twoBars_duplicate).
Defined.

(** C6 as stated fails: the descriptor with two columns named bar and no
    index violates two invariants, and the validator reports the duplicate
    column name, not the missing index. *)
Lemma C6_counterexample :
  ~ NoDup (map cd_Name (Desc_Columns twoBars)) /\
  Desc_Indexes twoBars = [] /\
  ValidateTableDesc_message twoBars =
    Some ("duplicate column name: " ++ quote ++ "bar" ++ quote)%string /\
  ValidateTableDesc_message twoBars <> Some "table must contain at least 1 index"%string.
Proof.
  split; [exact twoBars_duplicate |]. split; [reflexivity |].
  split; [reflexivity |]. vm_compute. discriminate.
Qed.

(** C7 (amended): an invalid-ID error is only raised for a column (index)
    whose ID is not below [NextColumnID] ([NextIndexID]), so IDs strictly
    below the counter are accepted by this check; a descriptor with a
    column (index) whose ID is greater than or equal to the counter is
    always rejected; and the message is exactly the invalid-ID message of
    that column (index) when no earlier check fails, that is when the
    bound is the first check to fail. *)
Theorem C7_id_bounds (d : TableDescriptor) :
  (forall n id next,
     ValidateTableDesc d = Some (InvalidColumnID n id next) ->
     next = Desc_NextColumnID d /\ (next <= id)%N /\
     exists c, In c (Desc_Columns d) /\ cd_Name c = n /\ ColumnDescriptor_ID c = id) /\
  (forall n id next,
     ValidateTableDesc d = Some (InvalidIndexID n id next) ->
     next = Desc_NextIndexID d /\ (next <= id)%N /\
     exists i, In i (Desc_Indexes d) /\ id_Name i = n /\ IndexDescriptor_ID i = id) /\
  (forall c,
     In c (Desc_Columns d) -> (Desc_NextColumnID d <= ColumnDescriptor_ID c)%N ->
     ValidateTableDesc d <> None) /\
  (forall i,
     In i (Desc_Indexes d) -> (Desc_NextIndexID d <= IndexDescriptor_ID i)%N ->
     ValidateTableDesc d <> None) /\
  (forall pre c post,
     Desc_Columns d = pre ++ c :: post -> columnBoundFailsFirst d pre c ->
     ValidateTableDesc_message d =
       Some ("column " ++ quote ++ cd_Name c ++ quote ++ " invalid ID ("
             ++ fmt_d (ColumnDescriptor_ID c) ++ ") > next column ID ("
             ++ fmt_d (Desc_NextColumnID d) ++ ")")%string) /\
  (forall pre i post,
     Desc_Indexes d = pre ++ i :: post -> indexBoundFailsFirst d pre i ->
     ValidateTableDesc_message d =
       Some ("index " ++ quote ++ id_Name i ++ quote ++ " invalid index ID ("
             ++ fmt_d (IndexDescriptor_ID i) ++ ") > next index ID ("
             ++ fmt_d (Desc_NextIndexID d) ++ ")")%string).
Proof.
  split; [apply InvalidColumnID_raised |].
  split; [apply InvalidIndexID_raised |].
  split; [apply column_beyond_bound_rejected |].
  split; [apply index_beyond_bound_rejected |].
  split.
  - intros pre c post Hcols Hfirst. unfold ValidateTableDesc_message.
    rewrite (column_bound_first d pre c post Hcols Hfirst). reflexivity.
  - intros pre i post Hidx Hfirst. unfold ValidateTableDesc_message.
    rewrite (index_bound_first d pre i post Hidx Hfirst). reflexivity.
Qed.


Lemma C7_witness :
  ValidateTableDesc_message barSeven =
    Some ("column " ++ quote ++ "bar" ++ quote ++ " invalid ID (7) > next column ID (1)")%string.
Proof.
  refine (proj1 (proj2 (proj2 (proj2 (proj2 (C7_id_bounds barSeven)))))
            [] _ [] eq_refl _).
  unfold columnBoundFailsFirst, columnsPass, validName. simpl.
  repeat split; try constructor; try discriminate; try apply not_elem_of_nil.
Defined.


(** C7 as stated fails: a table foo whose only column has the empty name
    and the ID 5, not below the counter 1, is rejected with the message of
    the name check, which comes first. *)
Lemma C7_counterexample :
  (exists c, In c (Desc_Columns unnamedFive) /\
             (Desc_NextColumnID unnamedFive <= ColumnDescriptor_ID c)%N /\
             ValidateTableDesc_message unnamedFive <>
               Some ("column " ++ quote ++ cd_Name c ++ quote ++ " invalid ID ("
                     ++ fmt_d (ColumnDescriptor_ID c) ++ ") > next column ID ("
                     ++ fmt_d (Desc_NextColumnID unnamedFive) ++ ")")%string) /\
  ValidateTableDesc_message unnamedFive = Some "empty column name"%string.
Proof.
  split; [| reflexivity].
  eexists. split; [left; reflexivity |]. split; [vm_compute; discriminate |].
  vm_compute. discriminate.
Qed.

Section RoundTrip.

Variable ToLower : string -> string.

#[local] Abbreviation colDescs := (proto_spec.colDescs ToLower).
#[local] Abbreviation idxDescs := (proto_spec.idxDescs ToLower).

Lemma descColumns_eq cols : forall desc byName,
  descColumns ToLower cols desc byName =
  ({| Desc_Table := Desc_Table desc;
      Desc_Columns := Desc_Columns desc ++ colDescs (Desc_NextColumnID desc) cols;
      Desc_Indexes := Desc_Indexes desc;
      Desc_NextColumnID := Nat.iter (length cols) uint32_incr (Desc_NextColumnID desc);
      Desc_NextIndexID := Desc_NextIndexID desc |},
   byNameOf byName (colDescs (Desc_NextColumnID desc) cols)).
Proof.
  induction cols as [| c cols IH]; intros desc byName; simpl.
  - rewrite app_nil_r. destruct desc; reflexivity.
  - rewrite IH. simpl. rewrite <- app_assoc. simpl.
    rewrite <- Nat.iter_succ_r. reflexivity.
Qed.

Lemma descIndexes_eq byName idxs : forall desc,
  descIndexes ToLower idxs desc byName =
  {| Desc_Table := Desc_Table desc;
     Desc_Columns := Desc_Columns desc;
     Desc_Indexes := Desc_Indexes desc ++ idxDescs (Desc_NextIndexID desc) byName idxs;
     Desc_NextColumnID := Desc_NextColumnID desc;
     Desc_NextIndexID := Nat.iter (length idxs) uint32_incr (Desc_NextIndexID desc) |}.
Proof.
  induction idxs as [| i idxs IH]; intros desc; simpl.
  - rewrite app_nil_r. destruct desc; reflexivity.
  - rewrite IH. simpl. rewrite <- app_assoc. simpl.
    rewrite <- Nat.iter_succ_r. reflexivity.
Qed.

Lemma schemaColumns_eq cds : forall schema byID,
  schemaColumns cds schema byID =
  ({| Schema_Table := Schema_Table schema;
      Schema_Columns := Schema_Columns schema ++ map ColumnDescriptor_Column cds;
      Schema_Indexes := Schema_Indexes schema |},
   byIDOf byID cds).
Proof.
  induction cds as [| c cds IH]; intros schema byID; simpl.
  - rewrite app_nil_r. destruct schema; reflexivity.
  - rewrite IH. simpl. rewrite <- app_assoc. reflexivity.
Qed.

Lemma schemaIndexes_eq byID ids : forall schema,
  schemaIndexes ids schema byID =
  {| Schema_Table := Schema_Table schema;
     Schema_Columns := Schema_Columns schema;
     Schema_Indexes := Schema_Indexes schema ++
       map (fun index =>
              {| IndexByName_Index := IndexDescriptor_Index index;
                 IndexByName_ColumnNames :=
                   columnNamesOf byID (IndexDescriptor_ColumnIDs index) |}) ids |}.
Proof.
  induction ids as [| i ids IH]; intros schema; simpl.
  - rewrite app_nil_r. destruct schema; reflexivity.
  - rewrite IH. simpl. rewrite <- app_assoc. reflexivity.
Qed.

(** The descriptor of a schema, in closed form. *)
Lemma TableDescFromSchema_eq s :
  let cds := colDescs 0 (Schema_Columns s) in
  TableDescFromSchema ToLower s =
  {| Desc_Table := {| Table_Name := ToLower (Table_Name (Schema_Table s)) |};
     Desc_Columns := cds;
     Desc_Indexes := idxDescs 0 (byNameOf ∅ cds) (Schema_Indexes s);
     Desc_NextColumnID := Nat.iter (length (Schema_Columns s)) uint32_incr 0%N;
     Desc_NextIndexID := Nat.iter (length (Schema_Indexes s)) uint32_incr 0%N |}.
Proof.
  unfold TableDescFromSchema. rewrite descColumns_eq. simpl.
  rewrite descIndexes_eq. reflexivity.
Qed.


Lemma byNameOf_other cds : forall (byName : gmap string N) n,
  n ∉ map cd_Name cds -> byNameOf byName cds !! n = byName !! n.
Proof.
  induction cds as [| cd cds IH]; intros byName n Hn; simpl; [reflexivity |].
  simpl in Hn. apply not_elem_of_cons in Hn as [Hne Hn].
  unfold byNameOf in *. simpl. rewrite IH by exact Hn.
  apply lookup_insert_ne. congruence.
Qed.

Lemma byIDOf_other cds : forall (byID : gmap N string) id,
  id ∉ map ColumnDescriptor_ID cds -> byIDOf byID cds !! id = byID !! id.
Proof.
  induction cds as [| cd cds IH]; intros byID id Hn; simpl; [reflexivity |].
  simpl in Hn. apply not_elem_of_cons in Hn as [Hne Hn].
  unfold byIDOf in *. simpl. rewrite IH by exact Hn.
  apply lookup_insert_ne. congruence.
Qed.

(** Every column name is mapped to the ID of a column with that name. *)
Lemma byNameOf_lookup cds : forall (byName : gmap string N) n,
  n ∈ map cd_Name cds ->
  exists cd, cd ∈ cds /\ cd_Name cd = n /\
             byNameOf byName cds !! n = Some (ColumnDescriptor_ID cd).
Proof.
  induction cds as [| cd cds IH]; intros byName n Hn; simpl in Hn.
  - inversion Hn.
  - destruct (decide (n ∈ map cd_Name cds)) as [Hin | Hout].
    + destruct (IH (<[cd_Name cd := ColumnDescriptor_ID cd]> byName) n Hin)
        as (cd' & Hcd' & Hname & Hl).
      exists cd'. split; [right; exact Hcd' |]. split; [exact Hname | exact Hl].
    + apply elem_of_cons in Hn as [-> | Hn]; [| contradiction].
      exists cd. split; [left |]. split; [reflexivity |].
      unfold byNameOf. simpl. fold (byNameOf (<[cd_Name cd:=ColumnDescriptor_ID cd]> byName) cds).
      rewrite byNameOf_other by exact Hout. apply lookup_insert_eq.
Qed.

(** With distinct IDs, every ID is mapped back to the name of its column. *)
Lemma byIDOf_lookup cds : forall (byID : gmap N string) cd,
  NoDup (map ColumnDescriptor_ID cds) -> cd ∈ cds ->
  byIDOf byID cds !! ColumnDescriptor_ID cd = Some (cd_Name cd).
Proof.
  induction cds as [| cd0 cds IH]; intros byID cd Hnd Hcd; simpl in *.
  - inversion Hcd.
  - apply NoDup_cons in Hnd as [Hfresh Hnd].
    apply elem_of_cons in Hcd as [-> | Hcd].
    + unfold byIDOf. simpl.
      fold (byIDOf (<[ColumnDescriptor_ID cd0 := cd_Name cd0]> byID) cds).
      rewrite byIDOf_other by exact Hfresh. apply lookup_insert_eq.
    + apply (IH _ _ Hnd Hcd).
Qed.

Lemma uint32_incr_small n :
  (n + 1 < uint32_modulus)%N -> uint32_incr n = (n + 1)%N.
Proof. intros H. unfold uint32_incr. apply N.mod_small. exact H. Qed.

Lemma iter_uint32_incr k : forall n,
  (n + N.of_nat k < uint32_modulus)%N ->
  Nat.iter k uint32_incr n = (n + N.of_nat k)%N.
Proof.
  induction k as [| k IH]; intros n H.
  - simpl. lia.
  - rewrite Nat.iter_succ_r, uint32_incr_small by lia. rewrite IH by lia. lia.
Qed.

(** Without wrap-around the IDs of the columns are consecutive from the
    start of the counter. *)
Lemma colDescs_ids cols : forall next,
  (next + N.of_nat (length cols) <= uint32_modulus)%N ->
  Forall (fun cd => (next <= ColumnDescriptor_ID cd < next + N.of_nat (length cols))%N)
         (colDescs next cols) /\
  NoDup (map ColumnDescriptor_ID (colDescs next cols)).
Proof.
  induction cols as [| c cols IH]; intros next H; cbn [colDescs map length] in *.
  - split; constructor.
  - destruct (Nat.eq_dec (length cols) 0) as [Hz | Hnz].
    + apply length_zero_iff_nil in Hz. subst cols. simpl.
      split; [constructor; [simpl; lia | constructor] | apply NoDup_singleton].
    + assert (Hincr : uint32_incr next = (next + 1)%N)
        by (apply uint32_incr_small; lia).
      rewrite Hincr. destruct (IH (next + 1)%N) as [Hb Hnd]; [lia |].
      split.
      * constructor; [simpl; lia |].
        eapply Forall_impl; [exact Hb |]. simpl. intros cd Hcd. lia.
      * apply NoDup_cons. split; [| exact Hnd]. simpl.
        intros Hin. apply list_elem_of_fmap in Hin as (cd & Heq & Hcd).
        rewrite Forall_forall in Hb. apply Hb in Hcd. lia.
Qed.

Lemma idxDescs_ids byName idxs : forall next,
  (next + N.of_nat (length idxs) <= uint32_modulus)%N ->
  Forall (fun i => (next <= IndexDescriptor_ID i < next + N.of_nat (length idxs))%N)
         (idxDescs next byName idxs) /\
  NoDup (map IndexDescriptor_ID (idxDescs next byName idxs)).
Proof.
  induction idxs as [| c cols IH]; intros next H; cbn [idxDescs map length] in *.
  - split; constructor.
  - destruct (Nat.eq_dec (length cols) 0) as [Hz | Hnz].
    + apply length_zero_iff_nil in Hz. subst cols. simpl.
      split; [constructor; [simpl; lia | constructor] | apply NoDup_singleton].
    + assert (Hincr : uint32_incr next = (next + 1)%N)
        by (apply uint32_incr_small; lia).
      rewrite Hincr. destruct (IH (next + 1)%N) as [Hb Hnd]; [lia |].
      split.
      * constructor; [simpl; lia |].
        eapply Forall_impl; [exact Hb |]. simpl. intros cd Hcd. lia.
      * apply NoDup_cons. split; [| exact Hnd]. simpl.
        intros Hin. apply list_elem_of_fmap in Hin as (cd & Heq & Hcd).
        rewrite Forall_forall in Hb. apply Hb in Hcd. lia.
Qed.

Lemma colDescs_Column next cols :
  Forall (fun c => ToLower (Column_Name c) = Column_Name c) cols ->
  map ColumnDescriptor_Column (colDescs next cols) = cols.
Proof.
  revert next. induction cols as [| c cols IH]; intros next H; simpl; [reflexivity |].
  apply Forall_cons in H as [Hc H]. rewrite IH by exact H.
  unfold lowerColumn. rewrite Hc. destruct c; reflexivity.
Qed.

Lemma colDescs_Name next cols :
  Forall (fun c => ToLower (Column_Name c) = Column_Name c) cols ->
  map cd_Name (colDescs next cols) = map Column_Name cols.
Proof.
  intros H. unfold cd_Name.
  rewrite <- (map_map ColumnDescriptor_Column Column_Name), colDescs_Column by exact H.
  reflexivity.
Qed.


Lemma idxDescs_Name next byName idxs :
  Forall (fun i => ToLower (Index_Name (IndexByName_Index i)) = Index_Name (IndexByName_Index i))
         idxs ->
  map id_Name (idxDescs next byName idxs) =
  map (fun i => Index_Name (IndexByName_Index i)) idxs.
Proof.
  revert next. induction idxs as [| i idxs IH]; intros next H; simpl; [reflexivity |].
  apply Forall_cons in H as [Hi H]. rewrite IH by exact H.
  unfold id_Name at 1. simpl. rewrite Hi. reflexivity.
Qed.

(** Translating the column names of an index to IDs and back gives the
    names again, when the IDs of the columns are distinct. *)
Lemma columnNames_roundtrip cds names :
  NoDup (map ColumnDescriptor_ID cds) ->
  Forall (fun n => n ∈ map cd_Name cds) names ->
  columnNamesOf (byIDOf ∅ cds) (columnIDsOf (byNameOf ∅ cds) names) = names.
Proof.
  intros Hnd Hnames. unfold columnNamesOf, columnIDsOf. rewrite map_map.
  induction Hnames as [| n names Hn _ IH]; simpl; [reflexivity |].
  rewrite IH. f_equal.
  destruct (byNameOf_lookup cds ∅ n Hn) as (cd & Hcd & <- & ->). simpl.
  rewrite (byIDOf_lookup cds ∅ cd Hnd Hcd). reflexivity.
Qed.

Lemma idxDescs_roundtrip cds idxs : forall next,
  NoDup (map ColumnDescriptor_ID cds) ->
  Forall (fun i => ToLower (Index_Name (IndexByName_Index i)) = Index_Name (IndexByName_Index i))
         idxs ->
  Forall (fun i => Forall (fun n => n ∈ map cd_Name cds) (IndexByName_ColumnNames i)) idxs ->
  map (fun index =>
         {| IndexByName_Index := IndexDescriptor_Index index;
            IndexByName_ColumnNames :=
              columnNamesOf (byIDOf ∅ cds) (IndexDescriptor_ColumnIDs index) |})
      (idxDescs next (byNameOf ∅ cds) idxs) = idxs.
Proof.
  intros next Hnd Hlow Hcols. revert next.
  induction idxs as [| i idxs IH]; intros next; simpl; [reflexivity |].
  apply Forall_cons in Hlow as [Hi Hlow]. apply Forall_cons in Hcols as [Hc Hcols].
  rewrite IH by assumption. f_equal.
  rewrite columnNames_roundtrip by assumption.
  unfold lowerIndex. rewrite Hi. destruct i as [[] ?]; reflexivity.
Qed.

Lemma roundtrip s :
  Conforming ToLower s ->
  (N.of_nat (length (Schema_Columns s)) <= uint32_modulus)%N ->
  TableSchemaFromDesc (TableDescFromSchema ToLower s) = s.
Proof.
  intros Hs Hlen. rewrite TableDescFromSchema_eq. cbv zeta.
  unfold TableSchemaFromDesc. cbn [Desc_Table Desc_Columns Desc_Indexes].
  rewrite schemaColumns_eq, schemaIndexes_eq.
  cbn [Schema_Table Schema_Columns Schema_Indexes app].
  destruct (colDescs_ids (Schema_Columns s) 0%N) as [_ Hnd]; [lia |].
  rewrite colDescs_Column by apply Hs.
  rewrite idxDescs_roundtrip.
  - rewrite (cf_table_lower _ _ Hs). destruct s as [[] ? ?]; reflexivity.
  - exact Hnd.
  - apply Hs.
  - rewrite colDescs_Name by apply Hs. apply Hs.
Qed.

Lemma Forall_map_iff {A B} (f : A -> B) (P : B -> Prop) l :
  Forall (fun x => P (f x)) l <-> Forall P (map f l).
Proof.
  induction l as [| x l IH]; simpl; [split; constructor |].
  rewrite !Forall_cons, IH. tauto.
Qed.

Lemma validName_conforming n :
  containsSlash n = false -> (validName n <-> n <> EmptyString).
Proof. unfold validName. tauto. Qed.

Lemma idxDescs_columns cds idxs : forall next,
  Forall (fun i => Forall (fun n => n ∈ map cd_Name cds) (IndexByName_ColumnNames i)) idxs ->
  Forall (fun i => IndexDescriptor_ColumnIDs i <> [] /\
                   Forall (fun columnID => columnID ∈ map ColumnDescriptor_ID cds)
                          (IndexDescriptor_ColumnIDs i))
         (idxDescs next (byNameOf ∅ cds) idxs) <->
  Forall (fun i => IndexByName_ColumnNames i <> []) idxs.
Proof.
  intros next Hcols. revert next.
  induction idxs as [| i idxs IH]; intros next; simpl.
  - split; constructor.
  - apply Forall_cons in Hcols as [Hc Hcols].
    rewrite !Forall_cons, IH by exact Hcols. simpl.
    assert (Hknown : Forall (fun columnID => columnID ∈ map ColumnDescriptor_ID cds)
                       (columnIDsOf (byNameOf ∅ cds) (IndexByName_ColumnNames i))).
    { unfold columnIDsOf. apply Forall_fmap.
      eapply Forall_impl; [exact Hc |]. simpl. intros n Hn.
      destruct (byNameOf_lookup cds ∅ n Hn) as (cd & Hcd & _ & ->). simpl.
      apply list_elem_of_fmap. exists cd. auto. }
    assert (Hnil : columnIDsOf (byNameOf ∅ cds) (IndexByName_ColumnNames i) <> [] <->
                   IndexByName_ColumnNames i <> []).
    { unfold columnIDsOf. destruct (IndexByName_ColumnNames i); simpl; split; congruence. }
    tauto.
Qed.

(** The descriptor of a conforming schema whose IDs do not wrap validates
    exactly when the schema is complete. *)
Lemma desc_WellFormed s :
  Conforming ToLower s -> fitsUint32 s ->
  (WellFormed (TableDescFromSchema ToLower s) <-> Complete s).
Proof.
  intros Hs [Hc Hi]. rewrite TableDescFromSchema_eq. cbv zeta.
  set (cds := colDescs 0 (Schema_Columns s)).
  destruct (colDescs_ids (Schema_Columns s) 0%N) as [Hcb Hcnd]; [lia |].
  destruct (idxDescs_ids (byNameOf ∅ cds) (Schema_Indexes s) 0%N) as [Hib Hind]; [lia |].
  fold cds in Hcb, Hcnd.
  assert (Hcn : map cd_Name cds = map Column_Name (Schema_Columns s))
    by (apply colDescs_Name, Hs).
  assert (Hin : map id_Name (idxDescs 0 (byNameOf ∅ cds) (Schema_Indexes s)) =
                map (fun i => Index_Name (IndexByName_Index i)) (Schema_Indexes s))
    by (apply idxDescs_Name, Hs).
  assert (Hcv : Forall (fun c => validName (cd_Name c)) cds <->
                Forall (fun c => Column_Name c <> EmptyString) (Schema_Columns s)).
  { rewrite (Forall_map_iff cd_Name validName), Hcn, <- Forall_map_iff.
    pose proof (cf_columns_slash _ _ Hs) as Hsl. rewrite !Forall_forall in *.
    split; intros H c Hin'; specialize (H c Hin'); specialize (Hsl c Hin');
      simpl in *; apply validName_conforming in Hsl; tauto. }
  assert (Hiv : Forall (fun i => validName (id_Name i))
                  (idxDescs 0 (byNameOf ∅ cds) (Schema_Indexes s)) <->
                Forall (fun i => Index_Name (IndexByName_Index i) <> EmptyString)
                  (Schema_Indexes s)).
  { rewrite (Forall_map_iff id_Name validName), Hin, <- Forall_map_iff.
    pose proof (cf_indexes_slash _ _ Hs) as Hsl. rewrite !Forall_forall in *.
    split; intros H c Hin'; specialize (H c Hin'); specialize (Hsl c Hin');
      simpl in *; apply validName_conforming in Hsl; tauto. }
  assert (Hknown : Forall (fun i => Forall (fun n => n ∈ map cd_Name cds)
                                         (IndexByName_ColumnNames i)) (Schema_Indexes s))
    by (rewrite Hcn; apply Hs).
  assert (Hic := idxDescs_columns cds (Schema_Indexes s) 0%N Hknown).
  assert (Hne1 : cds <> [] <-> Schema_Columns s <> []).
  { unfold cds. destruct (Schema_Columns s); simpl; split; congruence. }
  assert (Hne2 : idxDescs 0 (byNameOf ∅ cds) (Schema_Indexes s) <> [] <->
                 Schema_Indexes s <> []).
  { destruct (Schema_Indexes s); simpl; split; congruence. }
  assert (Hname : validName (ToLower (Table_Name (Schema_Table s))) <->
                  Table_Name (Schema_Table s) <> EmptyString).
  { rewrite (cf_table_lower _ _ Hs). apply validName_conforming, Hs. }
  split.
  - intros [W1 W2 W3 W4 W5 W6 W7 W8 W9 W10 W11 W12]; simpl in *.
    constructor; try tauto.
    + rewrite <- Hcn. exact W5.
    + rewrite <- Hin. exact W9.
  - intros [P1 P2 P3 P4 P5 P6 P7 P8].
    constructor; simpl; try tauto.
    + rewrite Hcn. exact P5.
    + rewrite iter_uint32_incr by lia.
      eapply Forall_impl; [exact Hcb |]. simpl. intros; lia.
    + rewrite Hin. exact P7.
    + rewrite iter_uint32_incr by lia.
      eapply Forall_impl; [exact Hib |]. simpl. intros; lia.
Qed.

(** C1 (amended): for every schema whose table, column and index names are
    already lowercase and without a slash, whose index column names all
    refer to columns of the schema, and which has fewer than 2^32 columns
    and fewer than 2^32 indexes, converting the schema to a descriptor and
    back yields the original schema; the produced descriptor passes
    [ValidateTableDesc] exactly when, in addition, no name is empty, the
    schema has at least one column and at least one index, its column names
    are distinct, its index names are distinct and every index names at
    least one column. *)
Theorem C1_roundtrip_and_validity (s : TableSchema) :
  Conforming ToLower s -> fitsUint32 s ->
  TableSchemaFromDesc (TableDescFromSchema ToLower s) = s /\
  (ValidateTableDesc (TableDescFromSchema ToLower s) = None <-> Complete s).
Proof.
  intros Hs Hfit. split.
  - apply roundtrip; [exact Hs |]. destruct Hfit as [Hc _]. lia.
  - rewrite ValidateTableDesc_None. apply desc_WellFormed; assumption.
Qed.

End RoundTrip.

Lemma fooSchema_Conforming : Conforming ToLowerASCII fooSchema.
Proof.
  constructor; simpl; repeat constructor.
Qed.

Lemma fooSchema_Complete : Complete fooSchema.
Proof.
  constructor; simpl; repeat constructor; try discriminate;
    rewrite ?elem_of_cons, ?elem_of_nil; intuition discriminate.
Qed.

Lemma fooSchema_fits : fitsUint32 fooSchema.
Proof. split; reflexivity. Qed.

Lemma C1_witness :
  TableSchemaFromDesc (TableDescFromSchema ToLowerASCII fooSchema) = fooSchema /\
  ValidateTableDesc (TableDescFromSchema ToLowerASCII fooSchema) = None.
Proof.
  destruct (C1_roundtrip_and_validity ToLowerASCII fooSchema
              fooSchema_Conforming fooSchema_fits) as [Hrt Hv].
  split; [exact Hrt | apply Hv, fooSchema_Complete].
Defined.

(** C1 as stated fails: a schema with one column and no index, and a schema
    with two columns of the same name, have conforming names and index
    columns that exist, and go through the round trip unchanged, but their
    descriptors do not validate. *)
Lemma C1_counterexample :
  (Conforming ToLowerASCII noIndexSchema /\
   TableSchemaFromDesc (TableDescFromSchema ToLowerASCII noIndexSchema) = noIndexSchema /\
   ValidateTableDesc_message (TableDescFromSchema ToLowerASCII noIndexSchema) =
     Some "table must contain at least 1 index"%string) /\
  (Conforming ToLowerASCII twoAsSchema /\
   TableSchemaFromDesc (TableDescFromSchema ToLowerASCII twoAsSchema) = twoAsSchema /\
   ValidateTableDesc_message (TableDescFromSchema ToLowerASCII twoAsSchema) =
     Some ("duplicate column name: " ++ quote ++ "a" ++ quote)%string).
Proof.
  split; (split; [constructor; simpl; repeat constructor | split; reflexivity]).
Qed.

End proto_facts.

(** ** The reference platform satisfies the laws *)

Module reference_facts.

Import encoding client reference.

Lemma byte_of_Z_of_byte b : byte_of_Z (Z_of_byte b) = b.
Proof.
  unfold byte_of_Z, Z_of_byte.
  pose proof (Byte.to_N_bounded b) as Hb.
  rewrite Z.mod_small by lia. rewrite N2Z.id, Byte.of_to_N. reflexivity.
Qed.

Lemma Z_of_byte_of_Z x : Z_of_byte (byte_of_Z x) = (x mod 256)%Z.
Proof.
  unfold byte_of_Z, Z_of_byte.
  assert (Hx : (0 <= x mod 256 < 256)%Z) by (apply Z.mod_pos_bound; lia).
  destruct (Byte.of_N (Z.to_N (x mod 256))) as [b |] eqn:Hb.
  - apply Byte.to_of_N in Hb. rewrite Hb. lia.
  - exfalso. pose proof (Byte.to_of_N_option_map (Z.to_N (x mod 256))) as H.
    rewrite Hb in H. simpl in H.
    destruct (N.leb_spec (Z.to_N (x mod 256)) 255); [discriminate | lia].
Qed.

Lemma refDecodeBytes_escape v : forall r rest,
  refDecodeBytes (escape v ++ x00 :: x01 :: rest) r = (rest, r ++ v).
Proof.
  induction v as [| x v IH]; intros r rest; simpl.
  - rewrite app_nil_r. reflexivity.
  - destruct (Byte.eqb x x00) eqn:Hx.
    + apply Byte.byte_dec_bl in Hx. subst x. simpl.
      rewrite IH, <- app_assoc. reflexivity.
    + simpl. rewrite Hx, IH, <- app_assoc. reflexivity.
Qed.

Lemma decode_be_encode_be n : forall x rest acc,
  decode_be n (encode_be n x ++ rest) acc =
  (rest, (acc * 256 ^ Z.of_nat n + x mod 256 ^ Z.of_nat n)%Z).
Proof.
  induction n as [| n IH]; intros x rest acc.
  - simpl. rewrite Z.mod_1_r. f_equal. lia.
  - cbn [encode_be decode_be app]. rewrite IH. f_equal.
    rewrite Z_of_byte_of_Z.
    rewrite Nat2Z.inj_succ, Z.pow_succ_r by lia.
    assert (Hp : (0 < 256 ^ Z.of_nat n)%Z) by (apply Z.pow_pos_nonneg; lia).
    rewrite (Z.mul_comm 256 (256 ^ Z.of_nat n)).
    rewrite (Z.rem_mul_r x (256 ^ Z.of_nat n) 256) by lia.
    ring.
Qed.

Lemma decode_be_8 x rest :
  (0 <= x < 2 ^ 64)%Z -> decode_be 8 (encode_be 8 x ++ rest) 0 = (rest, x).
Proof.
  intros Hx. rewrite decode_be_encode_be. f_equal.
  change (256 ^ Z.of_nat 8)%Z with (2 ^ 64)%Z. rewrite Z.mod_small by lia. lia.
Qed.

Lemma refEncoding_laws : EncodingLaws refEncoding.
Proof.
  constructor; cbn [EncodeBytes DecodeBytes EncodeVarint DecodeVarint EncodeUvarint
                      DecodeUvarint EncodeNumericFloat DecodeNumericFloat refEncoding].
  - intros b v. reflexivity.
  - intros b i. reflexivity.
  - intros b u. reflexivity.
  - intros b f. reflexivity.
  - intros v rest. unfold refEncodeBytes. rewrite app_nil_l, <- app_assoc.
    apply (refDecodeBytes_escape v [] rest).
  - intros i rest Hi. unfold refDecodeVarint, refEncodeVarint, int64_range in *.
    rewrite app_nil_l, decode_be_8 by lia. f_equal. lia.
  - intros u rest Hu. unfold refDecodeUvarint, refEncodeUvarint.
    rewrite app_nil_l. apply decode_be_8. exact Hu.
  - intros f rest Hf. unfold refDecodeNumericFloat, refEncodeNumericFloat, uint64_range in *.
    rewrite app_nil_l. unfold flipFloat.
    destruct (Z.ltb_spec f (2 ^ 63)).
    + rewrite decode_be_8 by lia. f_equal. unfold unflipFloat.
      destruct (Z.leb_spec (2 ^ 63) (f + 2 ^ 63)); lia.
    + rewrite decode_be_8 by lia. f_equal. unfold unflipFloat.
      destruct (Z.leb_spec (2 ^ 63) (2 ^ 64 - 1 - f)); lia.
Qed.

Lemma refRuntime_laws : GoRuntimeLaws refRuntime.
Proof.
  constructor; simpl.
  - intros f Hf. unfold uint64_range. lia.
  - intros f Hf _. apply Z.mod_small. exact Hf.
  - reflexivity.
  - intros m. reflexivity.
Qed.

(** *** The conversions of IEEE 754 satisfy the laws of the runtime *)

Section IEEE.

Local Open Scope Z_scope.

Lemma float32_fields f :
  0 <= f < 2 ^ 32 ->
  f = f / 2 ^ 31 * 2 ^ 31 + (f / 2 ^ 23) mod 2 ^ 8 * 2 ^ 23 + f mod 2 ^ 23 /\
  0 <= f / 2 ^ 31 <= 1 /\ 0 <= (f / 2 ^ 23) mod 2 ^ 8 < 256 /\ 0 <= f mod 2 ^ 23 < 2 ^ 23 /\
  f mod 2 ^ 31 = (f / 2 ^ 23) mod 2 ^ 8 * 2 ^ 23 + f mod 2 ^ 23.
Proof.
  intros Hf.
  change (2 ^ 32) with 4294967296 in Hf.
  change (2 ^ 31) with 2147483648. change (2 ^ 23) with 8388608. change (2 ^ 8) with 256.
  Z.div_mod_to_equations. lia.
Qed.

Lemma float64_unpack s e m :
  0 <= s <= 1 -> 0 <= e < 2048 -> 0 <= m < 2 ^ 52 ->
  let d := s * 2 ^ 63 + e * 2 ^ 52 + m in
  d / 2 ^ 63 = s /\ (d / 2 ^ 52) mod 2 ^ 11 = e /\ d mod 2 ^ 52 = m.
Proof.
  intros Hs He Hm d. subst d.
  change (2 ^ 63) with 9223372036854775808. change (2 ^ 52) with 4503599627370496 in *.
  change (2 ^ 11) with 2048.
  Z.div_mod_to_equations. lia.
Qed.

Lemma roundShift_exact a k : 0 < k -> roundShift (a * 2 ^ k) k = a.
Proof.
  intros Hk. unfold roundShift.
  assert (Hp : 0 < 2 ^ k) by (apply Z.pow_pos_nonneg; lia).
  assert (Hh : 0 < 2 ^ (k - 1)) by (apply Z.pow_pos_nonneg; lia).
  rewrite Z.div_mul by lia. rewrite Z.mod_mul by lia.
  destruct (Z.ltb_spec (2 ^ (k - 1)) 0); [lia |].
  destruct (Z.eqb_spec 0 (2 ^ (k - 1))); [lia |]. reflexivity.
Qed.

Lemma narrow_packed s e m :
  0 <= s <= 1 -> 0 <= e < 2048 -> 0 <= m < 2 ^ 52 ->
  narrow (s * 2 ^ 63 + e * 2 ^ 52 + m) =
  if (e =? 2047) then
    if (m =? 0) then s * 2 ^ 31 + 255 * 2 ^ 23
    else s * 2 ^ 31 + 255 * 2 ^ 23 + quiet32 (m / 2 ^ 29)
  else
    s * 2 ^ 31 +
    Z.min (if (1 <=? e - 896)
           then (e - 896 - 1) * 2 ^ 23 + roundShift (if e =? 0 then m else 2 ^ 52 + m) 29
           else roundShift (if e =? 0 then m else 2 ^ 52 + m) (30 - (e - 896)))
          (255 * 2 ^ 23).
Proof.
  intros Hs He Hm. destruct (float64_unpack s e m Hs He Hm) as (H1 & H2 & H3).
  unfold narrow. cbv zeta. rewrite H1, H2, H3. reflexivity.
Qed.

Lemma subnormal_fraction m :
  0 < m < 2 ^ 23 ->
  0 <= Z.log2 m <= 22 /\
  0 <= (m - 2 ^ Z.log2 m) * 2 ^ (52 - Z.log2 m) < 2 ^ 52 /\
  2 ^ 52 + (m - 2 ^ Z.log2 m) * 2 ^ (52 - Z.log2 m) = m * 2 ^ (52 - Z.log2 m).
Proof.
  intros Hm. pose proof (Z.log2_spec m (proj1 Hm)) as [Hlo Hhi].
  pose proof (Z.log2_nonneg m) as Hk0.
  assert (Hk : Z.log2 m <= 22).
  { assert (Z.log2 m < 23); [| lia]. apply Z.log2_lt_pow2; lia. }
  set (k := Z.log2 m) in *.
  assert (Hpk : 0 < 2 ^ k) by (apply Z.pow_pos_nonneg; lia).
  assert (Hpr : 0 < 2 ^ (52 - k)) by (apply Z.pow_pos_nonneg; lia).
  assert (Hprod : 2 ^ k * 2 ^ (52 - k) = 2 ^ 52).
  { rewrite <- Z.pow_add_r by lia. f_equal. lia. }
  split; [lia |].
  assert (Hsucc : 2 ^ Z.succ k = 2 * 2 ^ k) by (apply Z.pow_succ_r; lia).
  split; [| lia].
  split; [apply Z.mul_nonneg_nonneg; lia |].
  rewrite <- Hprod. apply Z.mul_lt_mono_pos_r; lia.
Qed.

Lemma narrow_widen f : 0 <= f < 2 ^ 32 -> isNaN32 f = false -> narrow (widen f) = f.
Proof.
  intros Hf Hnan. destruct (float32_fields f Hf) as (Hsum & Hs & He & Hm & Hlow).
  unfold isNaN32 in Hnan. rewrite Hlow in Hnan. apply Z.ltb_ge in Hnan.
  unfold widen. cbv zeta.
  set (s := f / 2 ^ 31) in *. set (e := (f / 2 ^ 23) mod 2 ^ 8) in *.
  set (m := f mod 2 ^ 23) in *.
  change (2 ^ 23) with 8388608 in Hm, Hnan, Hsum.
  destruct (Z.eqb_spec e 255) as [He255 | He255].
  - assert (m = 0) by lia.
    destruct (Z.eqb_spec m 0); [| lia].
    replace (s * 2 ^ 63 + 2047 * 2 ^ 52) with (s * 2 ^ 63 + 2047 * 2 ^ 52 + 0) by lia.
    rewrite narrow_packed by lia. simpl. lia.
  - destruct (Z.eqb_spec e 0) as [He0 | He0].
    + destruct (Z.eqb_spec m 0) as [Hm0 | Hm0].
      * replace (s * 2 ^ 63) with (s * 2 ^ 63 + 0 * 2 ^ 52 + 0) by lia.
        rewrite narrow_packed by lia.
        match goal with
        | |- context [Z.min ?a ?b] =>
            let v := eval vm_compute in (Z.min a b) in change (Z.min a b) with v
        end.
        change (0 =? 2047) with false. cbv iota. lia.
      * destruct (subnormal_fraction m) as (Hk & Hfrac & Hsig);
          [change (2 ^ 23) with 8388608; lia |].
        set (k := Z.log2 m) in *.
        rewrite narrow_packed by lia.
        destruct (Z.eqb_spec (k + 874) 2047); [lia |].
        destruct (Z.eqb_spec (k + 874) 0); [lia |].
        destruct (Z.leb_spec 1 (k + 874 - 896)); [lia |].
        rewrite Hsig. replace (30 - (k + 874 - 896)) with (52 - k) by lia.
        rewrite roundShift_exact by lia.
        rewrite Z.min_l by lia. lia.
    + rewrite narrow_packed;
        [| lia | lia | change (2 ^ 52) with 4503599627370496; change (2 ^ 29) with 536870912; lia].
      destruct (Z.eqb_spec (e + 896) 2047); [lia |].
      destruct (Z.eqb_spec (e + 896) 0); [lia |].
      destruct (Z.leb_spec 1 (e + 896 - 896)); [| lia].
      replace (2 ^ 52 + m * 2 ^ 29) with ((8388608 + m) * 2 ^ 29)
        by (change (2 ^ 52) with 4503599627370496; change (2 ^ 29) with 536870912; lia).
      rewrite roundShift_exact by lia.
      change (2 ^ 23) with 8388608. change (2 ^ 31) with 2147483648 in *.
      rewrite Z.min_l by lia. lia.
Qed.

Lemma widen_range f : 0 <= f < 2 ^ 32 -> 0 <= widen f < 2 ^ 64.
Proof.
  intros Hf. destruct (float32_fields f Hf) as (Hsum & Hs & He & Hm & Hlow).
  unfold widen. cbv zeta.
  set (s := f / 2 ^ 31) in *. set (e := (f / 2 ^ 23) mod 2 ^ 8) in *.
  set (m := f mod 2 ^ 23) in *.
  change (2 ^ 23) with 8388608 in Hm.
  change (2 ^ 64) with 18446744073709551616. change (2 ^ 63) with 9223372036854775808.
  change (2 ^ 52) with 4503599627370496.
  destruct (Z.eqb_spec e 255) as [He255 | He255].
  - destruct (Z.eqb_spec m 0); [lia |].
    unfold quiet32. change (2 ^ 22) with 4194304. change (2 ^ 29) with 536870912.
    destruct (Z.ltb_spec m 4194304); lia.
  - destruct (Z.eqb_spec e 0) as [He0 | He0].
    + destruct (Z.eqb_spec m 0) as [Hm0 | Hm0]; [lia |].
      destruct (subnormal_fraction m) as (Hk & Hfrac & Hsig);
        [change (2 ^ 23) with 8388608; lia |].
      change (2 ^ 52) with 4503599627370496 in Hfrac. lia.
    + change (2 ^ 29) with 536870912. lia.
Qed.

Lemma ieeeRuntime_laws : GoRuntimeLaws ieeeRuntime.
Proof.
  constructor; cbn [float32to64 float64to32 rangeKeys ieeeRuntime].
  - intros f Hf. apply widen_range. exact Hf.
  - apply narrow_widen.
  - vm_compute. reflexivity.
  - intros m. reflexivity.
Qed.

End IEEE.

End reference_facts.

(** ** The record/row adapter *)

Module client_facts.

Import encoding client client_spec.

Section Marshal.

Context {E : Encoding} {R : GoRuntime} {RL : GoRuntimeLaws R}.

Lemma wrap_signed_small w x :
  (0 < w)%Z -> (- 2 ^ (w - 1) <= x < 2 ^ (w - 1))%Z -> wrap_signed w x = x.
Proof.
  intros Hw Hx. unfold wrap_signed.
  assert (H2 : (2 ^ w = 2 * 2 ^ (w - 1))%Z).
  { rewrite <- Z.pow_succ_r by lia. f_equal. lia. }
  rewrite Z.mod_small by lia. lia.
Qed.

Lemma wrap_unsigned_signed u : (0 <= u < 2 ^ 64)%Z -> wrap_unsigned 64 (wrap_signed 64 u) = u.
Proof.
  intros Hu. unfold wrap_unsigned, wrap_signed.
  rewrite Zminus_mod_idemp_l. replace (u + 2 ^ (64 - 1) - 2 ^ (64 - 1))%Z with u by lia.
  apply Z.mod_small. exact Hu.
Qed.

Lemma bits_pos w : (0 < bits w <= 64)%Z.
Proof. destruct w; simpl; lia. Qed.

Lemma marshal_unmarshal_converted v dest :
  inRange v -> supported (KindOf v) -> KindOf dest = KindOf v ->
  exists pv, marshalTableValue v = Ok pv /\
             unmarshalTableValue (Some pv) dest = Ok (converted v).
Proof.
  intros Hr Hs Hk.
  destruct v as [b | w i | w u | f | f | [] s | t | i | z out | z out |]; simpl in Hr;
    destruct dest as [b' | w' i' | w' u' | f' | f' | [] s' | t' | i' | z' out' | z' out' |];
    try discriminate Hk; try (injection Hk as ->);
    try (exfalso; apply Hs; reflexivity);
    eexists; (split; [reflexivity |]); cbn.
  - destruct b; reflexivity.
  - rewrite wrap_signed_small by (apply bits_pos || exact Hr). reflexivity.
  - assert (Hu : (0 <= u < 2 ^ 64)%Z).
    { split; [lia |]. eapply Z.lt_le_trans; [apply Hr |].
      apply Z.pow_le_mono_r; [lia | apply bits_pos]. }
    rewrite wrap_unsigned_signed by exact Hu.
    unfold wrap_unsigned. rewrite Z.mod_small by exact Hr. reflexivity.
  - pose proof (float32to64_range f Hr) as Hf. unfold uint64_range in Hf.
    rewrite wrap_unsigned_signed by exact Hf. reflexivity.
  - rewrite wrap_unsigned_signed by exact Hr. reflexivity.
  - f_equal. f_equal. apply string_of_list_byte_of_string.
  - f_equal. f_equal. apply string_of_list_byte_of_string.
  - destruct t; reflexivity.
Qed.

Lemma converted_exact v : inRange v -> notNaN32 v -> converted v = v.
Proof.
  destruct v; simpl; try reflexivity.
  intros Hr Hn. rewrite float64to32_float32to64 by assumption. reflexivity.
Qed.

Lemma marshal_unmarshal v dest :
  inRange v -> supported (KindOf v) -> notNaN32 v -> KindOf dest = KindOf v ->
  exists pv, marshalTableValue v = Ok pv /\ unmarshalTableValue (Some pv) dest = Ok v.
Proof.
  intros Hr Hs Hn Hk.
  destruct (marshal_unmarshal_converted v dest Hr Hs Hk) as (pv & Hm & Hu).
  exists pv. split; [exact Hm |]. rewrite Hu, converted_exact by assumption. reflexivity.
Qed.

Lemma unmarshal_integer_into_text src dest :
  integerPayload src -> textKind (KindOf dest) ->
  unmarshalTableValue (Some src) dest = Err (ErrUnmarshalInteger dest).
Proof.
  unfold integerPayload. intros Hi Hk.
  destruct dest as [| | | | | [] s | t | | | |]; simpl in Hk; try contradiction; simpl;
    destruct (Value_Integer src); congruence.
Qed.

Lemma unmarshal_bytes_into_numeric src dest :
  bytePayload src -> numericKind (KindOf dest) ->
  unmarshalTableValue (Some src) dest = Err (ErrUnmarshalBytes dest).
Proof.
  unfold bytePayload. intros Hi Hk.
  destruct dest as [| | | | | [] s | t | | | |]; simpl in Hk; try contradiction; simpl;
    destruct (Value_Bytes src); congruence.
Qed.

(** C5 (amended): marshalling a field value of a supported scalar kind
    other than a [float32] NaN and unmarshalling the result into a field
    of the same type succeeds and restores the value. A [float32] is
    marshalled as the [float64] it widens to and narrowed when it is
    unmarshalled: what comes back for any value of a supported kind is
    the value so converted, which for a NaN need not be the NaN that was
    marshalled. Unmarshalling fails on an integer payload into a string or
    byte-slice field and on a byte payload into a bool, integer or float
    field. *)
Theorem C5_marshal_unmarshal_inverse :
  (forall v dest,
     inRange v -> supported (KindOf v) -> notNaN32 v -> KindOf dest = KindOf v ->
     exists pv, marshalTableValue v = Ok pv /\ unmarshalTableValue (Some pv) dest = Ok v) /\
  (forall v dest,
     inRange v -> supported (KindOf v) -> KindOf dest = KindOf v ->
     exists pv, marshalTableValue v = Ok pv /\
                unmarshalTableValue (Some pv) dest = Ok (converted v)) /\
  (forall src dest,
     integerPayload src -> textKind (KindOf dest) ->
     unmarshalTableValue (Some src) dest = Err (ErrUnmarshalInteger dest)) /\
  (forall src dest,
     bytePayload src -> numericKind (KindOf dest) ->
     unmarshalTableValue (Some src) dest = Err (ErrUnmarshalBytes dest)).
Proof.
  split; [exact marshal_unmarshal |].
  split; [exact marshal_unmarshal_converted |].
  split; [exact unmarshal_integer_into_text | exact unmarshal_bytes_into_numeric].
Qed.

(** C10: unmarshalling a nil value, or a value with neither payload set,
    into a field of a supported scalar kind succeeds and leaves the zero
    value of the field's type: the empty string, the nil byte slice, 0,
    positive zero or false. *)
Theorem C10_unmarshal_absent_value (dest : FieldValue) :
  supported (KindOf dest) ->
  unmarshalTableValue None dest = Ok (Zero (KindOf dest)) /\
  (forall src,
     Value_Bytes src = None -> Value_Integer src = None ->
     unmarshalTableValue (Some src) dest = Ok (Zero (KindOf dest))) /\
  match KindOf dest with
  | KBool => Zero (KindOf dest) = VBool false
  | KInt w => Zero (KindOf dest) = VInt w 0
  | KUint w => Zero (KindOf dest) = VUint w 0
  | KFloat32 => Zero (KindOf dest) = VFloat32 0
  | KFloat64 => Zero (KindOf dest) = VFloat64 0
  | KString named => Zero (KindOf dest) = VString named EmptyString
  | KBytes => Zero (KindOf dest) = VBytes None
  | KOther => False
  end.
Proof.
  intros Hs. split.
  { destruct dest; try reflexivity; exfalso; apply Hs; reflexivity. }
  split.
  - intros src Hb Hi. unfold unmarshalTableValue, GetInteger. rewrite Hb, Hi.
    destruct dest as [b | w i | w u | f | f | [] s | t | i | z out | z out |]; cbn;
      try reflexivity; try (exfalso; apply Hs; reflexivity).
    + destruct w; reflexivity.
    + rewrite float64to32_zero. reflexivity.
  - destruct dest as [b | w i | w u | f | f | [] s | t | i | z out | z out |]; cbn;
      try reflexivity; apply Hs; reflexivity.
Qed.

End Marshal.

(** On an IEEE 754 platform a [float32] field holding 1.5 goes through
    marshal and unmarshal. *)
Lemma C5_witness :
  exists pv,
    marshalTableValue (R := reference.ieeeRuntime) (VFloat32 1069547520) = Ok pv /\
    unmarshalTableValue (R := reference.ieeeRuntime) (Some pv) (VFloat32 0) =
      Ok (VFloat32 1069547520).
Proof.
  apply (proj1 (C5_marshal_unmarshal_inverse (RL := reference_facts.ieeeRuntime_laws))
           (VFloat32 1069547520) (VFloat32 0)).
  - simpl. lia.
  - discriminate.
  - reflexivity.
  - reflexivity.
Defined.

(** C5 as stated fails: on an IEEE 754 platform, which satisfies the laws
    of the runtime, a [float32] field holding the signalling NaN
    0x7FA00000 is marshalled as the quiet NaN 0x7FFC000000000000 and comes
    back as the quiet NaN 0x7FE00000, so marshal followed by unmarshal is
    not the identity on the values of a supported scalar kind. *)
Lemma C5_counterexample :
  GoRuntimeLaws reference.ieeeRuntime /\
  inRange (VFloat32 2141192192) /\ supported (KindOf (VFloat32 2141192192)) /\
  marshalTableValue (R := reference.ieeeRuntime) (VFloat32 2141192192) =
    Ok (mkValue None (Some 9222246136947933184%Z) None) /\
  unmarshalTableValue (R := reference.ieeeRuntime)
    (Some (mkValue None (Some 9222246136947933184%Z) None)) (VFloat32 0) =
    Ok (VFloat32 2145386496) /\
  ~ (forall v dest,
       inRange v -> supported (KindOf v) -> KindOf dest = KindOf v ->
       exists pv, marshalTableValue (R := reference.ieeeRuntime) v = Ok pv /\
                  unmarshalTableValue (R := reference.ieeeRuntime) (Some pv) dest = Ok v).
Proof.
  split; [exact reference_facts.ieeeRuntime_laws |].
  assert (Hr : inRange (VFloat32 2141192192)) by (simpl; lia).
  assert (Hs : supported (KindOf (VFloat32 2141192192))) by discriminate.
  split; [exact Hr |]. split; [exact Hs |].
  split; [vm_compute; reflexivity |]. split; [vm_compute; reflexivity |].
  intros H. destruct (H (VFloat32 2141192192) (VFloat32 0) Hr Hs eq_refl) as (pv & Hm & Hu).
  vm_compute in Hm. injection Hm as <-. vm_compute in Hu. discriminate Hu.
Qed.

(** A string field holding x is left empty by a nil value. *)
Lemma C10_witness :
  unmarshalTableValue None (VString false "x") = Ok (VString false EmptyString).
Proof.
  apply (C10_unmarshal_absent_value (RL := reference_facts.refRuntime_laws)
           (VString false "x")).
  discriminate.
Defined.

End client_facts.

Module batch_facts.

Import encoding client client_spec.

Section Setup.

Context {E : Encoding} {R : GoRuntime} {C : ValueChecksum}.

Lemma setupFailed_initResult b err : setupFailed b (initResult b 0 0 (Some err)) err.
Proof. split; reflexivity. Qed.

Lemma enqueued_initResult b calls numRows :
  enqueued b (initResult (appendCalls b calls) (length calls) numRows None) calls.
Proof. split; [reflexivity | exists numRows; reflexivity]. Qed.

(** Every operation either fails its setup or enqueues its calls. *)
Lemma applyOp_outcome b op :
  (exists err, setupFailed b (applyOp b op) err) \/
  (exists calls, enqueued b (applyOp b op) calls).
Proof.
  destruct op as [obj columns | obj columns | obj value column
                 | dest start end_ maxRows columns | obj columns]; simpl.
  - unfold GetStruct.
    destruct (getModel _ _ _) as [m | err]; [| left; eexists; apply setupFailed_initResult].
    destruct (encodePrimaryKey _ _) as [pk | err]; [| left; eexists; apply setupFailed_initResult].
    destruct (GetStruct_calls _ _ _ _ _) as [calls | err];
      [| left; eexists; apply setupFailed_initResult].
    right. eexists. apply enqueued_initResult.
  - unfold PutStruct.
    destruct (getModel _ _ _) as [m | err]; [| left; eexists; apply setupFailed_initResult].
    destruct (encodePrimaryKey _ _) as [pk | err]; [| left; eexists; apply setupFailed_initResult].
    destruct (PutStruct_calls _ _ _ _ _) as [calls | err];
      [| left; eexists; apply setupFailed_initResult].
    right. eexists. apply enqueued_initResult.
  - unfold IncStruct.
    destruct (getModel _ _ _) as [m | err]; [| left; eexists; apply setupFailed_initResult].
    destruct (encodePrimaryKey _ _) as [pk | err]; [| left; eexists; apply setupFailed_initResult].
    destruct (fields m !! column) as [f |]; [| left; eexists; apply setupFailed_initResult].
    right. eexists. apply (enqueued_initResult b [_] 1).
  - unfold ScanStruct.
    destruct dest as [l elem | | l]; try (left; eexists; apply setupFailed_initResult).
    destruct (getModel _ _ _) as [m | err]; [| left; eexists; apply setupFailed_initResult].
    destruct (negb _); [left; eexists; apply setupFailed_initResult |].
    destruct (negb _); [left; eexists; apply setupFailed_initResult |].
    destruct (encodePrimaryKey _ _) as [startKey | err];
      [| left; eexists; apply setupFailed_initResult].
    destruct (encodePrimaryKey _ _) as [endKey | err];
      [| left; eexists; apply setupFailed_initResult].
    right. eexists. apply (enqueued_initResult b [_] 0).
  - unfold DelStruct.
    destruct (getModel _ _ _) as [m | err]; [| left; eexists; apply setupFailed_initResult].
    destruct (encodePrimaryKey _ _) as [pk | err]; [| left; eexists; apply setupFailed_initResult].
    destruct (DelStruct_calls _ _ _ _) as [calls | err];
      [| left; eexists; apply setupFailed_initResult].
    right. eexists. apply enqueued_initResult.
Qed.



End Setup.

End batch_facts.

Module key_facts.

Import encoding client client_spec.

Section Keys.

Context {E : Encoding} {EL : EncodingLaws E} {R : GoRuntime} {C : ValueChecksum}.

Lemma encodeTableKey_app b v key :
  encodeTableKey b v = Ok key -> key = b ++ encode_T v.
Proof.
  destruct v as [[] | w i | w u | f | f | [] s | t | | | |]; simpl; intros H;
    try discriminate; injection H as <-.
  all: first [ apply EncodeBytes_app | apply EncodeVarint_app
             | apply EncodeUvarint_app | apply EncodeNumericFloat_app ].
Qed.

Lemma encodePrimaryKeyCols_app m v cols : forall key key',
  encodePrimaryKeyCols m cols v key = Ok key' ->
  key' = key ++ concat (map encode_T
           (omap (fun col => FieldByIndex v <$> (fields m !! col)) cols)).
Proof.
  induction cols as [| col cols IH]; intros key key' H; simpl in *.
  - injection H as <-. rewrite app_nil_r. reflexivity.
  - destruct (fields m !! col) as [f |]; [| discriminate]. simpl.
    destruct (encodeTableKey key (FieldByIndex v f)) as [key1 | err] eqn:Hk; [| discriminate].
    apply encodeTableKey_app in Hk. subst key1.
    apply IH in H. rewrite H, <- app_assoc. reflexivity.
Qed.

(** A primary key that encodes is the row prefix of the record. *)
Lemma encodePrimaryKey_rowPrefix m v key :
  encodePrimaryKey m v = Ok key -> key = rowPrefix m v.
Proof.
  unfold encodePrimaryKey, rowPrefix, pkValues. apply encodePrimaryKeyCols_app.
Qed.

End Keys.

End key_facts.

Module binding_facts.

Import encoding client client_spec examples.

Section Binding.

Context {E : Encoding} {R : GoRuntime}.

Lemma encodePrimaryKeyCols_unknown m v col cols : forall key,
  col ∈ cols -> fields m !! col = None ->
  exists err, encodePrimaryKeyCols m cols v key = Err err.
Proof.
  induction cols as [| c cols IH]; intros key Hin Hnone; [inversion Hin |].
  simpl. destruct (fields m !! c) as [f |] eqn:Hf; [| eauto].
  destruct (encodeTableKey key (FieldByIndex v f)) as [key' | err]; [| eauto].
  apply IH; [| exact Hnone].
  apply elem_of_cons in Hin as [-> | Hin]; [congruence | exact Hin].
Qed.

(** C8 (amended): [BindModel] does not look at the primary-key column
    list. It fails exactly when the record type is already bound, with the
    already-defined error; otherwise it registers the model with the
    primary key as given, even when a primary-key column is not among the
    fields of the type. Such a column is reported later, when a key is
    built from a record: [encodePrimaryKey] fails on every record. *)
Theorem C8_bind_ignores_primary_key (db : DB) (table : string) (obj : Interface)
    (pk : list string) :
  let t := deref (TypeOf obj) in
  (forall m, experimentalModels db !! t = Some m ->
     BindModel db table obj pk = (db, Some (ErrAlreadyDefined table t))) /\
  (experimentalModels db !! t = None ->
   exists m,
     snd (BindModel db table obj pk) = None /\
     experimentalModels (fst (BindModel db table obj pk)) !! t = Some m /\
     name m = table /\ fields m = getDBFields t /\ primaryKey m = pk /\
     forall col, col ∈ pk -> getDBFields t !! col = None ->
       forall v, exists err, encodePrimaryKey m v = Err err).
Proof.
  intros t. split.
  - intros m Hm. unfold BindModel. fold t. rewrite Hm. reflexivity.
  - intros Hnone. unfold BindModel. fold t. rewrite Hnone. simpl.
    eexists. split; [reflexivity |]. split; [apply lookup_insert_eq |].
    simpl. repeat (split; [reflexivity |]).
    intros col Hin Hcol v. unfold encodePrimaryKey.
    apply encodePrimaryKeyCols_unknown with (col := col); assumption.
Qed.

End Binding.

(** Binding [User] with the primary key nope, which is not a field,
    registers the model. *)
Lemma C8_witness :
  exists m,
    snd (BindModel emptyDB "users" (IStruct (zeroStruct UserT)) ["nope"]) = None /\
    experimentalModels (fst (BindModel emptyDB "users" (IStruct (zeroStruct UserT)) ["nope"]))
      !! UserT = Some m /\
    name m = "users" /\ fields m = getDBFields UserT /\ primaryKey m = ["nope"] /\
    forall col, col ∈ ["nope"] -> getDBFields UserT !! col = None ->
      forall v, exists err, encodePrimaryKey m v = Err err.
Proof.
  apply (proj2 (C8_bind_ignores_primary_key emptyDB "users" (IStruct (zeroStruct UserT))
                  ["nope"])).
  reflexivity.
Defined.

(** C8 as stated fails: nope is not among the fields of [User], and
    binding [User] with the primary key nope returns no error. *)
Lemma C8_counterexample :
  getDBFields UserT !! "nope" = None /\
  snd (BindModel emptyDB "users" (IStruct (zeroStruct UserT)) ["nope"]) = None.
Proof. split; reflexivity. Qed.

End binding_facts.

Module cycle_facts.

Import encoding client client_spec examples.

Section Cycle.

Context {E : Encoding} {R : GoRuntime} {RL : GoRuntimeLaws R} {C : ValueChecksum}.

Lemma usersDB_model : experimentalModels usersDB !! UserT = Some usersModel.
Proof. unfold usersDB, BindModel. simpl. apply lookup_insert_eq. Qed.

Lemma users_field_name : fields usersModel !! "name" = Some 1.
Proof. reflexivity. Qed.

Lemma users_field_title : fields usersModel !! "title" = Some 2.
Proof. reflexivity. Qed.

(** The columns of [User] outside the primary key, in the order in which
    the binding found them. *)
Lemma users_otherColumns :
  otherColumns usersModel = ["name"; "title"] \/
  otherColumns usersModel = ["title"; "name"].
Proof.
  assert (H : otherColumns usersModel ≡ₚ ["name"; "title"]).
  { unfold usersModel. cbn [otherColumns].
    rewrite (rangeKeys_perm (getDBFields UserT)).
    unfold getDBFields. cbn [UserT st_Fields imap fst].
    rewrite map_to_list_to_map by (apply (bool_decide_unpack _); vm_compute; exact I).
    reflexivity. }
  symmetry in H. apply Permutation_length_2_inv in H. tauto.
Qed.


Lemma users_keys_distinct (pk : list byte) :
  pk ++ list_byte_of_string "name" <> pk ++ list_byte_of_string "title".
Proof. intros H. apply app_inv_head in H. discriminate. Qed.

Lemma users_encodePrimaryKey n t :
  encodePrimaryKey usersModel (user "42" n t) =
  Ok (EncodeBytes (EncodeBytes [] (list_byte_of_string "users")) (list_byte_of_string "42")).
Proof. reflexivity. Qed.


Lemma put_ada_calls :
  exists c1 c2 v1 v2 k1 k2,
    Batch_calls (PutStruct (NewBatch usersDB) (IStruct ada) []) = [c1; c2] /\
    Batch_Results (PutStruct (NewBatch usersDB) (IStruct ada) []) = [mkResult 2 None 2] /\
    Call_Args c1 = PutRequest k1 v1 /\ Call_Post c1 = None /\
    Call_Args c2 = PutRequest k2 v2 /\ Call_Post c2 = None /\
    k1 <> k2 /\
    ((k1 = usersPK ++ list_byte_of_string "name" /\ k2 = usersPK ++ list_byte_of_string "title" /\
      Value_Bytes v1 = Some (list_byte_of_string "ada") /\ Value_Integer v1 = None /\
      Value_Bytes v2 = Some (list_byte_of_string "admin") /\ Value_Integer v2 = None) \/
     (k2 = usersPK ++ list_byte_of_string "name" /\ k1 = usersPK ++ list_byte_of_string "title" /\
      Value_Bytes v2 = Some (list_byte_of_string "ada") /\ Value_Integer v2 = None /\
      Value_Bytes v1 = Some (list_byte_of_string "admin") /\ Value_Integer v1 = None)).
Proof.
  unfold PutStruct, ada. cbn [Indirect Batch_DB NewBatch]. unfold getModel.
  cbn [andb isPtr negb deref]. change (sv_Type (user "42" "ada" "admin")) with UserT.
  rewrite usersDB_model.
  rewrite users_encodePrimaryKey. fold usersPK. cbn [length Nat.eqb].
  destruct users_otherColumns as [-> | ->]; cbn.
  - do 6 eexists. repeat (split; [reflexivity |]).
    split; [apply users_keys_distinct |]. left. repeat split; reflexivity.
  - do 6 eexists. repeat (split; [reflexivity |]).
    split; [intros H; symmetry in H; revert H; apply users_keys_distinct |].
    right. repeat split; reflexivity.
Qed.


Lemma put_ada_store (store : Store) (h : Heap) :
  exists store1,
    DB_PutStruct usersDB store h (IStruct ada) [] = (store1, h, None) /\
    holdsAda store1.
Proof.
  unfold DB_PutStruct, runOneResult.
  destruct put_ada_calls
    as (c1 & c2 & v1 & v2 & k1 & k2 & -> & -> & Ha1 & Hp1 & Ha2 & Hp2 & Hne & Hcase).
  cbn [Result_Err send]. rewrite Ha1, Ha2, Hp1, Hp2. cbn [execute].
  eexists. split; [reflexivity |].
  destruct Hcase as [(-> & -> & Hb1 & Hi1 & Hb2 & Hi2) | (-> & -> & Hb2 & Hi2 & Hb1 & Hi1)].
  - exists v1, v2. fold nameKey titleKey in *.
    rewrite lookup_insert_ne, !lookup_insert_eq by congruence. auto 10.
  - exists v2, v1. fold nameKey titleKey in *.
    rewrite lookup_insert_eq, lookup_insert_ne, lookup_insert_eq by congruence. auto 10.
Qed.

Lemma unmarshal_string (v : Value) (bs : list byte) (old : string) :
  Value_Bytes v = Some bs -> Value_Integer v = None ->
  unmarshalTableValue (Some v) (VString false old) = Ok (VString false (string_of_list_byte bs)).
Proof. intros Hb Hi. simpl. rewrite Hi, Hb. reflexivity. Qed.

Lemma get_ada (store : Store) (h : Heap) (l : loc) :
  holdsAda store -> h !! l = Some (HStruct only42) ->
  DB_GetStruct usersDB store h (IPtr l only42) [] = (store, <[l := HStruct ada]> h, None).
Proof.
  intros (vn & vt & Hn & Ht & Hbn & Hin & Hbt & Hit) Hl.
  unfold DB_GetStruct, GetStruct, only42. cbn [Indirect Batch_DB NewBatch TypeOf].
  unfold getModel. cbn [andb isPtr negb deref].
  change (sv_Type (user "42" EmptyString EmptyString)) with UserT.
  rewrite usersDB_model, users_encodePrimaryKey. fold usersPK. cbn [length Nat.eqb].
  destruct users_otherColumns as [-> | ->];
    cbn [GetStruct_calls]; rewrite users_field_name, users_field_title;
    cbn -[unmarshalTableValue usersModel list_byte_of_string string_of_list_byte];
    fold nameKey titleKey; rewrite Hn, Ht, Hl;
    cbn -[unmarshalTableValue usersModel list_byte_of_string string_of_list_byte];
    rewrite ?(unmarshal_string vn _ _ Hbn Hin), ?(unmarshal_string vt _ _ Hbt Hit);
    rewrite lookup_insert_eq;
    cbn -[unmarshalTableValue usersModel list_byte_of_string string_of_list_byte];
    rewrite ?(unmarshal_string vn _ _ Hbn Hin), ?(unmarshal_string vt _ _ Hbt Hit);
    rewrite insert_insert_eq, !string_of_list_byte_of_string; reflexivity.
Qed.

Lemma bind_users : snd (BindModel emptyDB "users" (IStruct (zeroStruct UserT)) ["id"]) = None.
Proof. reflexivity. Qed.

(** C3. After binding [User = (id string primary key, name string, title
    string)] to the table users, [PutStruct] of [User{42, ada, admin}]
    with an empty column list enqueues two KV Put calls, one for each
    column outside the primary key (the id is carried by the keys and has
    no cell of its own), and a [GetStruct] that follows on a record
    holding only the id 42 populates that record so that it equals the
    original. *)
Theorem C3_put_get_cycle (store : Store) (h : Heap) (l : loc) :
  h !! l = Some (HStruct only42) ->
  snd (BindModel emptyDB "users" (IStruct (zeroStruct UserT)) ["id"]) = None /\
  length (Batch_calls (PutStruct (NewBatch usersDB) (IStruct ada) [])) = 2 /\
  Forall (fun c => exists key value, Call_Args c = PutRequest key value)
         (Batch_calls (PutStruct (NewBatch usersDB) (IStruct ada) [])) /\
  exists store1,
    DB_PutStruct usersDB store h (IStruct ada) [] = (store1, h, None) /\
    DB_GetStruct usersDB store1 h (IPtr l only42) [] =
      (store1, <[l := HStruct ada]> h, None).
Proof.
  intros Hl. split; [exact bind_users |].
  destruct put_ada_calls
    as (c1 & c2 & v1 & v2 & k1 & k2 & Hcalls & _ & Ha1 & _ & Ha2 & _).
  rewrite Hcalls. split; [reflexivity |]. split.
  - repeat constructor; eauto.
  - destruct (put_ada_store store h) as (store1 & Hput & Hholds).
    exists store1. split; [exact Hput |]. apply get_ada; assumption.
Qed.

End Cycle.

(** The example on the reference codec and runtime, with the heap holding
    the record with only the id at address 0. *)
Lemma C3_witness :
  ({[0 := HStruct only42]} : Heap) !! 0 = Some (HStruct only42) /\
  length (Batch_calls (PutStruct (NewBatch usersDB) (IStruct ada) [])) = 2.
Proof.
  assert (H : ({[0 := HStruct only42]} : Heap) !! 0 = Some (HStruct only42))
    by (vm_compute; reflexivity).
  split; [exact H |].
  apply (C3_put_get_cycle (RL := reference_facts.refRuntime_laws)
           ∅ {[0 := HStruct only42]} 0 H).
Defined.

(** With the reference codec and runtime the put of the example enqueues
    two calls, not three. *)
Lemma C3_counterexample :
  length (Batch_calls (PutStruct (NewBatch usersDB) (IStruct ada) [])) <> 3.
Proof. vm_compute. discriminate. Qed.

End cycle_facts.

Module scan_facts.

Import encoding client client_spec client_facts.

Section Scan.

Context {E : Encoding} {EL : EncodingLaws E} {R : GoRuntime} {RL : GoRuntimeLaws R}
        {C : ValueChecksum}.

(** *** Fields of a record *)

Lemma FieldByIndex_Set rec f x f' :
  FieldByIndex (SetFieldByIndex rec f x) f' =
  if decide (f = f' /\ f < length (sv_Fields rec)) then x else FieldByIndex rec f'.
Proof.
  unfold FieldByIndex, SetFieldByIndex. simpl.
  destruct (decide (f = f' /\ f < length (sv_Fields rec))) as [[-> Hlt] | Hn].
  - rewrite list_lookup_insert_eq by exact Hlt. reflexivity.
  - destruct (decide (f = f')) as [-> | Hne].
    + rewrite list_insert_ge by lia. reflexivity.
    + rewrite list_lookup_insert_ne by exact Hne. reflexivity.
Qed.

Lemma Set_same rec f x : FieldByIndex rec f = x -> SetFieldByIndex rec f x = rec.
Proof.
  unfold FieldByIndex, SetFieldByIndex. intros H. destruct rec as [t l]. simpl in *.
  f_equal. destruct (l !! f) as [y |] eqn:Hl.
  - simpl in H. subst y. apply list_insert_id. exact Hl.
  - apply list_insert_ge. apply lookup_ge_None. exact Hl.
Qed.

Lemma supported_in_range (v : StructVal) f :
  supported (KindOf (FieldByIndex v f)) -> f < length (sv_Fields v).
Proof.
  unfold FieldByIndex. intros H. apply lookup_lt_is_Some.
  destruct (sv_Fields v !! f); [eauto |]. exfalso. apply H. reflexivity.
Qed.

Lemma lookup_map {A B} (g : A -> B) (l : list A) i : map g l !! i = g <$> (l !! i).
Proof. apply (list_lookup_fmap g l i). Qed.

Lemma map_insert {A B} (g : A -> B) (l : list A) i x :
  map g (<[i := x]> l) = <[i := g x]> (map g l).
Proof. apply (list_fmap_insert g l i x). Qed.

Lemma kindsOf_FieldByIndex v v' f :
  kindsOf v = kindsOf v' -> KindOf (FieldByIndex v f) = KindOf (FieldByIndex v' f).
Proof.
  unfold kindsOf, FieldByIndex. intros H.
  assert (Hl : KindOf <$> (sv_Fields v !! f) = KindOf <$> (sv_Fields v' !! f))
    by (rewrite <- !lookup_map, H; reflexivity).
  destruct (sv_Fields v !! f), (sv_Fields v' !! f); simpl in *; congruence.
Qed.

Lemma kindsOf_Set rec f x :
  KindOf x = KindOf (FieldByIndex rec f) -> kindsOf (SetFieldByIndex rec f x) = kindsOf rec.
Proof.
  unfold kindsOf, SetFieldByIndex, FieldByIndex. simpl. intros H.
  rewrite map_insert. destruct (sv_Fields rec !! f) as [y |] eqn:Hl.
  - simpl in H. apply list_insert_id. rewrite lookup_map, Hl. simpl. congruence.
  - apply list_insert_ge. rewrite length_map. apply lookup_ge_None. exact Hl.
Qed.

Lemma kindsOf_zeroStruct t : kindsOf (zeroStruct t) = map snd (st_Fields t).
Proof.
  unfold kindsOf, zeroStruct. simpl. rewrite map_map. apply map_ext.
  intros [c k]. simpl. destruct k as [| | | | | [] | |]; reflexivity.
Qed.

Lemma typed_inRange modelT r f : typed modelT r -> inRange (FieldByIndex r f).
Proof.
  intros (_ & _ & Hr). unfold FieldByIndex.
  destruct (sv_Fields r !! f) as [y |] eqn:Hl; [| exact I].
  simpl. rewrite Forall_forall in Hr. apply Hr. eapply list_elem_of_lookup_2. exact Hl.
Qed.

(** *** Decoding what was encoded *)

Lemma decodeTableKey_encode v dest rest :
  KindOf dest = KindOf v -> inRange v -> keyValue v ->
  decodeTableKey (encode_T v ++ rest) dest = Ok (rest, v).
Proof.
  intros Hk Hr (Hs & Hnil & Hnan).
  destruct v as [b | w i | w u | f | f | [] s | t | i | z out | z out |]; simpl in Hr, Hnan;
    destruct dest as [b' | w' i' | w' u' | f' | f' | [] s' | t' | i' | z' out' | z' out' |];
    try discriminate Hk; try (injection Hk as ->);
    try (exfalso; apply Hs; reflexivity); simpl.
  - rewrite DecodeVarint_Encode by (unfold int64_range; destruct b; lia).
    destruct b; reflexivity.
  - pose proof (bits_pos w) as Hw.
    assert (H63 : (2 ^ (bits w - 1) <= 2 ^ 63)%Z) by (apply Z.pow_le_mono_r; lia).
    rewrite DecodeVarint_Encode by (unfold int64_range; lia).
    rewrite wrap_signed_small by lia. reflexivity.
  - pose proof (bits_pos w) as Hw.
    assert (H64 : (2 ^ bits w <= 2 ^ 64)%Z) by (apply Z.pow_le_mono_r; lia).
    rewrite DecodeUvarint_Encode by (unfold uint64_range; lia).
    unfold wrap_unsigned. rewrite Z.mod_small by lia. reflexivity.
  - rewrite DecodeNumericFloat_Encode by (apply float32to64_range; exact Hr).
    rewrite float64to32_float32to64 by assumption. reflexivity.
  - rewrite DecodeNumericFloat_Encode by exact Hr. reflexivity.
  - rewrite DecodeBytes_Encode, string_of_list_byte_of_string. reflexivity.
  - rewrite DecodeBytes_Encode, string_of_list_byte_of_string. reflexivity.
  - destruct t as [t |]; [| congruence]. simpl. rewrite DecodeBytes_Encode. reflexivity.
Qed.


(** *** The primary-key fields of a record *)

Lemma setFrom_type r locs : forall rec, sv_Type (setFrom r rec locs) = sv_Type rec.
Proof.
  unfold setFrom. induction locs as [| f locs IH]; intros rec; simpl; [reflexivity |].
  rewrite IH. reflexivity.
Qed.

Lemma setFrom_length r locs : forall rec,
  length (sv_Fields (setFrom r rec locs)) = length (sv_Fields rec).
Proof.
  unfold setFrom. induction locs as [| f locs IH]; intros rec; simpl; [reflexivity |].
  rewrite IH. simpl. apply length_insert.
Qed.

Lemma lookup_setFrom r locs : forall rec i,
  sv_Fields (setFrom r rec locs) !! i =
  if decide (i ∈ locs /\ i < length (sv_Fields rec))
  then Some (FieldByIndex r i) else sv_Fields rec !! i.
Proof.
  unfold setFrom. induction locs as [| f locs IH]; intros rec i; cbn [foldl].
  - rewrite decide_False by (intros [H _]; inversion H). reflexivity.
  - rewrite IH. cbn [SetFieldByIndex sv_Fields]. rewrite length_insert.
    destruct (decide (i ∈ locs /\ i < length (sv_Fields rec))) as [[Hin Hlt] | Hn].
    + rewrite decide_True by (split; [right; exact Hin | exact Hlt]). reflexivity.
    + destruct (decide (i = f)) as [-> | Hne].
      * destruct (decide (f < length (sv_Fields rec))) as [Hlt | Hge].
        -- rewrite list_lookup_insert_eq by exact Hlt.
           rewrite decide_True by (split; [left | exact Hlt]). reflexivity.
        -- rewrite list_insert_ge by lia.
           rewrite decide_False by (intros [_ ?]; contradiction). reflexivity.
      * rewrite list_lookup_insert_ne by congruence.
        rewrite decide_False; [reflexivity |].
        intros [Hin Hlt]. apply Hn. split; [| exact Hlt].
        apply elem_of_cons in Hin as [-> | Hin]; [contradiction | exact Hin].
Qed.

Lemma StructVal_eq (a b : StructVal) :
  sv_Type a = sv_Type b -> (forall i, sv_Fields a !! i = sv_Fields b !! i) -> a = b.
Proof.
  destruct a as [ta la], b as [tb lb]. simpl. intros -> H. f_equal.
  apply list_eq. exact H.
Qed.

(** Taking the same fields from another record first changes nothing. *)
Lemma setFrom_setFrom r r0 rec locs :
  setFrom r (setFrom r0 rec locs) locs = setFrom r rec locs.
Proof.
  apply StructVal_eq; [rewrite !setFrom_type; reflexivity |].
  intros i. rewrite !lookup_setFrom, setFrom_length.
  destruct (decide (i ∈ locs /\ i < length (sv_Fields rec))); reflexivity.
Qed.

(** Taking fields that the record already has changes nothing. *)
Lemma setFrom_same r rec locs :
  (forall f, f ∈ locs -> FieldByIndex rec f = FieldByIndex r f) ->
  setFrom r rec locs = rec.
Proof.
  intros H. apply StructVal_eq; [apply setFrom_type |].
  intros i. rewrite lookup_setFrom.
  destruct (decide (i ∈ locs /\ i < length (sv_Fields rec))) as [[Hin Hlt] | Hn];
    [| reflexivity].
  rewrite <- (H i Hin). unfold FieldByIndex.
  apply lookup_lt_is_Some in Hlt as [y Hy]. rewrite Hy. reflexivity.
Qed.

Lemma FieldByIndex_setFrom r rec locs f :
  f ∈ locs -> f < length (sv_Fields rec) ->
  FieldByIndex (setFrom r rec locs) f = FieldByIndex r f.
Proof.
  intros Hin Hlt. unfold FieldByIndex at 1. rewrite lookup_setFrom.
  rewrite decide_True by (split; assumption). reflexivity.
Qed.

Lemma FieldByIndex_setFrom_other r rec locs f :
  f ∉ locs -> FieldByIndex (setFrom r rec locs) f = FieldByIndex rec f.
Proof.
  intros Hin. unfold FieldByIndex. rewrite lookup_setFrom.
  rewrite decide_False by (intros [? _]; contradiction). reflexivity.
Qed.

Lemma pkRecord_setFrom m modelT r :
  pkRecord m modelT r = setFrom r (zeroStruct modelT) (pkLocs m).
Proof.
  unfold pkRecord, pkLocs, setFrom. generalize (zeroStruct modelT).
  induction (primaryKey m) as [| col cols IH]; intros rec; simpl; [reflexivity |].
  destruct (fields m !! col) as [f |]; simpl; apply IH.
Qed.


(** *** Decoding a row prefix *)

Lemma decodePrimaryKeyCols_encode m modelT r cols : forall rec rest,
  Forall (fun col => exists f, fields m !! col = Some f /\ keyValue (FieldByIndex r f)) cols ->
  typed modelT r -> kindsOf rec = kindsOf r ->
  decodePrimaryKeyCols m cols
    (concat (map encode_T (omap (fun col => FieldByIndex r <$> (fields m !! col)) cols))
       ++ rest) rec =
  Ok (rest, setFrom r rec (omap (fun col => fields m !! col) cols)).
Proof.
  induction cols as [| col cols IH]; intros rec rest Hcols Ht Hk; simpl; [reflexivity |].
  apply Forall_cons in Hcols as [(f & Hf & Hkv) Hcols]. rewrite Hf. simpl.
  rewrite <- app_assoc.
  rewrite decodeTableKey_encode;
    [| apply kindsOf_FieldByIndex; exact Hk | eapply typed_inRange; exact Ht | exact Hkv].
  apply IH; [exact Hcols | exact Ht |].
  rewrite kindsOf_Set; [exact Hk |]. symmetry. apply kindsOf_FieldByIndex. exact Hk.
Qed.

Lemma decodePrimaryKey_rowPrefix m modelT r rec rest :
  validPK m r -> typed modelT r -> kindsOf rec = kindsOf r ->
  decodePrimaryKey m (rowPrefix m r ++ rest) rec = Ok (rest, setFrom r rec (pkLocs m)).
Proof.
  intros Hpk Ht Hk. unfold decodePrimaryKey, rowPrefix, pkValues.
  rewrite <- app_assoc, DecodeBytes_Encode, string_of_list_byte_of_string.
  rewrite bool_decide_eq_true_2 by reflexivity.
  eapply decodePrimaryKeyCols_encode; eassumption.
Qed.

Lemma typed_kindsOf modelT r : typed modelT r -> kindsOf r = map snd (st_Fields modelT).
Proof. intros (_ & H & _). exact H. Qed.

Lemma typed_length modelT r :
  typed modelT r -> length (sv_Fields r) = length (st_Fields modelT).
Proof.
  intros Ht. apply typed_kindsOf in Ht. unfold kindsOf in Ht.
  rewrite <- (length_map KindOf), Ht, length_map. reflexivity.
Qed.

Lemma pkLocs_elem m r f :
  validPK m r -> f ∈ pkLocs m -> keyValue (FieldByIndex r f).
Proof.
  unfold validPK, pkLocs. intros Hpk Hin.
  apply list_elem_of_omap in Hin as (col & Hcol & Hf).
  rewrite Forall_forall in Hpk. destruct (Hpk col Hcol) as (f' & Hf' & Hkv).
  congruence.
Qed.

(** Row prefixes are free of prefixes: a key has one row prefix and one
    column, and equal row prefixes carry equal primary-key fields. *)
Lemma rowPrefix_unique m modelT r1 r2 x y :
  validPK m r1 -> typed modelT r1 -> validPK m r2 -> typed modelT r2 ->
  rowPrefix m r1 ++ x = rowPrefix m r2 ++ y ->
  x = y /\ rowPrefix m r1 = rowPrefix m r2 /\
  forall f, f ∈ pkLocs m -> FieldByIndex r1 f = FieldByIndex r2 f.
Proof.
  intros Hp1 Ht1 Hp2 Ht2 Heq.
  pose proof (decodePrimaryKey_rowPrefix m modelT r1 (zeroStruct modelT) x Hp1 Ht1) as H1.
  pose proof (decodePrimaryKey_rowPrefix m modelT r2 (zeroStruct modelT) y Hp2 Ht2) as H2.
  rewrite kindsOf_zeroStruct in H1, H2.
  specialize (H1 (eq_sym (typed_kindsOf _ _ Ht1))).
  specialize (H2 (eq_sym (typed_kindsOf _ _ Ht2))).
  rewrite Heq, H2 in H1. injection H1 as Hxy Hset. subst y.
  split; [reflexivity |]. split; [apply app_inv_tail in Heq; exact Heq |].
  intros f Hf.
  assert (Hlt : f < length (sv_Fields (zeroStruct modelT))).
  { simpl. rewrite length_map, <- (typed_length _ _ Ht1).
    apply supported_in_range, (pkLocs_elem m r1 f Hp1 Hf). }
  rewrite <- (FieldByIndex_setFrom r1 (zeroStruct modelT) (pkLocs m) f Hf Hlt).
  rewrite <- (FieldByIndex_setFrom r2 (zeroStruct modelT) (pkLocs m) f Hf Hlt).
  rewrite Hset. reflexivity.
Qed.


(** *** One row of the reply *)

Lemma HasPrefix_app s p : HasPrefix s p = true <-> exists x, s = p ++ x.
Proof.
  revert s. induction p as [| b p IH]; intros s.
  - split; [intros _; exists s; reflexivity | intros _; destruct s; reflexivity].
  - destruct s as [| a s]; simpl.
    + split; [discriminate | intros [x Hx]; discriminate].
    + rewrite andb_true_iff, IH. split.
      * intros [Hab [x ->]]. apply Byte.byte_dec_bl in Hab. subst. exists x. reflexivity.
      * intros [x Hx]. injection Hx as -> ->. split; [apply Byte.byte_dec_lb; reflexivity |].
        exists x. reflexivity.
Qed.

Lemma unmarshal_InitChecksum pv key dest :
  unmarshalTableValue (Some (InitChecksum pv key)) dest = unmarshalTableValue (Some pv) dest.
Proof.
  unfold InitChecksum. destruct (Value_Checksum pv); [reflexivity |].
  destruct dest as [| | | | | [] | | [] | | |]; reflexivity.
Qed.

(** The content of a cell unmarshals to the field it was written from. *)
Lemma unmarshal_cellValue m modelT c f dest :
  typed modelT (fst c) -> fields m !! snd c = Some f ->
  cellContent (FieldByIndex (fst c) f) ->
  KindOf dest = KindOf (FieldByIndex (fst c) f) ->
  unmarshalTableValue (Some (cellValue m c)) dest = Ok (FieldByIndex (fst c) f).
Proof.
  intros Ht Hf [Hs Hn] Hk. unfold cellValue. rewrite Hf.
  destruct (marshal_unmarshal (FieldByIndex (fst c) f) dest) as (pv & Hm & Hu);
    [eapply typed_inRange; exact Ht | exact Hs | exact Hn | exact Hk |].
  rewrite Hm, unmarshal_InitChecksum. exact Hu.
Qed.

Lemma skip_requested columns col :
  match scanColsOf columns with
  | Some cols => negb (bool_decide (col ∈ cols))
  | None => false
  end = negb (requested columns col).
Proof.
  unfold scanColsOf, requested. destruct columns as [| c columns]; [reflexivity |].
  cbn [length Nat.ltb Nat.leb Nat.eqb orb]. f_equal.
  apply bool_decide_ext. apply elem_of_list_to_set.
Qed.

Lemma kindsOf_setFrom r rec locs :
  kindsOf rec = kindsOf r -> kindsOf (setFrom r rec locs) = kindsOf rec.
Proof.
  unfold setFrom. revert rec. induction locs as [| f locs IH]; intros rec Hk; simpl;
    [reflexivity |].
  assert (Hs : kindsOf (SetFieldByIndex rec f (FieldByIndex r f)) = kindsOf rec)
    by (apply kindsOf_Set; symmetry; apply kindsOf_FieldByIndex; exact Hk).
  rewrite IH by congruence. exact Hs.
Qed.

Lemma ScanStruct_cell_valid m modelT columns c rec :
  validCell m modelT c -> kindsOf rec = kindsOf (fst c) ->
  ScanStruct_cell m (scanColsOf columns) (cellRow m c) rec =
  Ok (Some (rowPrefix m (fst c)),
      applyCell m columns (setFrom (fst c) rec (pkLocs m)) c).
Proof.
  intros (Ht & Hpk & f & Hf & Hs) Hk. unfold ScanStruct_cell, cellRow, cellKey.
  cbn [KeyValue_Key KeyValue_Value].
  rewrite (decodePrimaryKey_rowPrefix m modelT (fst c) rec _ Hpk Ht Hk).
  rewrite length_app, Nat.add_sub, take_app_length.
  rewrite string_of_list_byte_of_string, skip_requested.
  unfold applyCell. destruct (requested columns (snd c)); cbn [negb]; [| reflexivity].
  rewrite Hf.
  rewrite (unmarshal_cellValue m modelT c f _ Ht Hf Hs); [reflexivity |].
  apply kindsOf_FieldByIndex. rewrite kindsOf_setFrom by exact Hk. exact Hk.
Qed.

Lemma ScanStruct_flush_same m modelT ptrResults row pk rec sliceV :
  HasPrefix (KeyValue_Key row) pk = true ->
  ScanStruct_flush m modelT ptrResults row (Some pk) rec sliceV = Ok (sliceV, rec).
Proof. intros H. unfold ScanStruct_flush. rewrite H. reflexivity. Qed.

Lemma ScanStruct_flush_new m modelT ptrResults row r0 rec sliceV :
  validPK m r0 -> typed modelT r0 ->
  HasPrefix (KeyValue_Key row) (rowPrefix m r0) = false ->
  ScanStruct_flush m modelT ptrResults row (Some (rowPrefix m r0)) rec sliceV =
  Ok (sliceV ++ [rec], setFrom r0 (zeroStruct modelT) (pkLocs m)).
Proof.
  intros Hpk Ht H. unfold ScanStruct_flush. rewrite H. cbn [negb].
  rewrite <- (app_nil_r (rowPrefix m r0)).
  destruct ptrResults;
    rewrite (decodePrimaryKey_rowPrefix m modelT r0 (zeroStruct modelT) [] Hpk Ht)
      by (rewrite kindsOf_zeroStruct; symmetry; eapply typed_kindsOf; exact Ht);
    reflexivity.
Qed.

(** A cell is in the row of [r0] exactly when its key starts with the row
    prefix of [r0]. *)
Lemma HasPrefix_cellRow m modelT c r0 :
  validCell m modelT c -> validPK m r0 -> typed modelT r0 ->
  HasPrefix (KeyValue_Key (cellRow m c)) (rowPrefix m r0) =
  bool_decide (rowPrefix m r0 = rowPrefix m (fst c)).
Proof.
  intros (Ht & Hpk & _) Hpk0 Ht0. cbn [cellRow KeyValue_Key]. unfold cellKey.
  destruct (bool_decide (rowPrefix m r0 = rowPrefix m (fst c))) eqn:Hd.
  - apply bool_decide_eq_true in Hd. apply HasPrefix_app. rewrite Hd. eauto.
  - apply bool_decide_eq_false in Hd. apply not_true_is_false. intros H.
    apply HasPrefix_app in H as [x Hx].
    destruct (rowPrefix_unique m modelT (fst c) r0 _ _ Hpk Ht Hpk0 Ht0 Hx) as (_ & Heq & _).
    congruence.
Qed.


(** *** The rows of the reply *)

Lemma rowsOf_cons m c rest :
  rowsOf m (c :: rest) =
  match rowsOf m rest with
  | (c' :: row) :: rows =>
      if bool_decide (rowPrefix m (fst c) = rowPrefix m (fst c'))
      then (c :: c' :: row) :: rows
      else [c] :: (c' :: row) :: rows
  | _ => [[c]]
  end.
Proof. reflexivity. Qed.

Lemma remaining_same m modelT columns r0 rec c rest :
  rowPrefix m r0 = rowPrefix m (fst c) ->
  remaining m modelT columns r0 rec (c :: rest) =
  remaining m modelT columns r0 (applyCell m columns rec c) rest.
Proof.
  intros Hp. unfold remaining. rewrite rowsOf_cons.
  destruct (rowsOf m rest) as [| [| c' row] rows].
  - rewrite bool_decide_eq_true_2 by exact Hp. reflexivity.
  - rewrite bool_decide_eq_true_2 by exact Hp. reflexivity.
  - rewrite <- Hp.
    destruct (bool_decide (rowPrefix m r0 = rowPrefix m (fst c'))) eqn:Hd.
    + rewrite bool_decide_eq_true_2 by exact Hp. reflexivity.
    + rewrite bool_decide_eq_true_2 by exact Hp. reflexivity.
Qed.

Lemma records_head m modelT columns c rest :
  map (recordOf m modelT columns) (rowsOf m (c :: rest)) =
  remaining m modelT columns (fst c)
    (applyCell m columns (pkRecord m modelT (fst c)) c) rest.
Proof.
  unfold remaining. rewrite rowsOf_cons.
  destruct (rowsOf m rest) as [| [| c' row] rows]; try reflexivity.
  destruct (bool_decide (rowPrefix m (fst c) = rowPrefix m (fst c'))); reflexivity.
Qed.

Lemma rowsOf_head m c rest :
  exists row rows, rowsOf m (c :: rest) = (c :: row) :: rows.
Proof.
  rewrite rowsOf_cons. destruct (rowsOf m rest) as [| [| c' row] rows]; eauto.
  destruct (bool_decide _); eauto.
Qed.

Lemma remaining_new m modelT columns r0 rec c rest :
  rowPrefix m r0 <> rowPrefix m (fst c) ->
  remaining m modelT columns r0 rec (c :: rest) =
  rec :: remaining m modelT columns (fst c)
           (applyCell m columns (pkRecord m modelT (fst c)) c) rest.
Proof.
  intros Hp. rewrite <- records_head. unfold remaining.
  destruct (rowsOf_head m c rest) as (row & rows & ->).
  rewrite bool_decide_eq_false_2 by exact Hp. reflexivity.
Qed.

Lemma kindsOf_applyCell m modelT columns rec c :
  validCell m modelT c -> kindsOf rec = kindsOf (fst c) ->
  kindsOf (applyCell m columns rec c) = kindsOf rec.
Proof.
  intros _ Hk. unfold applyCell. destruct (requested columns (snd c)); [| reflexivity].
  destruct (fields m !! snd c) as [f |]; [| reflexivity].
  apply kindsOf_Set. symmetry. apply kindsOf_FieldByIndex. exact Hk.
Qed.

Lemma inFlight_applyCell m modelT columns r0 rec c :
  validCell m modelT c -> typed modelT r0 ->
  (forall f, f ∈ pkLocs m -> FieldByIndex (fst c) f = FieldByIndex r0 f) ->
  inFlight m r0 rec -> inFlight m r0 (applyCell m columns rec c).
Proof.
  intros Hc Ht0 Hsame [Hk Hpk].
  assert (Hkc : kindsOf rec = kindsOf (fst c)).
  { rewrite Hk. destruct Hc as (Ht & _). rewrite (typed_kindsOf _ _ Ht0).
    symmetry. eapply typed_kindsOf. exact Ht. }
  split; [rewrite (kindsOf_applyCell m modelT) by assumption; exact Hk |].
  intros f Hf. unfold applyCell. destruct (requested columns (snd c)); [| auto].
  destruct (fields m !! snd c) as [fc |]; [| auto].
  rewrite FieldByIndex_Set. destruct (decide _) as [[-> _] | _]; auto.
Qed.

Lemma inFlight_pkRecord m modelT r :
  validPK m r -> typed modelT r -> inFlight m r (pkRecord m modelT r).
Proof.
  intros Hpk Ht. rewrite pkRecord_setFrom.
  assert (Hz : kindsOf (zeroStruct modelT) = kindsOf r)
    by (rewrite kindsOf_zeroStruct; symmetry; eapply typed_kindsOf; exact Ht).
  split; [rewrite kindsOf_setFrom; assumption |].
  intros f Hf. apply FieldByIndex_setFrom; [exact Hf |].
  simpl. rewrite length_map, <- (typed_length _ _ Ht).
  apply supported_in_range, (pkLocs_elem m r f Hpk Hf).
Qed.

Lemma same_kinds modelT r r' : typed modelT r -> typed modelT r' -> kindsOf r = kindsOf r'.
Proof. intros H H'. rewrite (typed_kindsOf _ _ H), (typed_kindsOf _ _ H'). reflexivity. Qed.

(** The loop, from a state in which the record of the row of [r0] is in
    flight: it ends with the records appended so far followed by the
    remaining ones, the last of which is still in flight. *)
Lemma ScanStruct_rows_valid m modelT ptrResults columns cells :
  Forall (validCell m modelT) cells ->
  forall r0 rec sliceV,
    validPK m r0 -> typed modelT r0 -> inFlight m r0 rec ->
    exists sliceV' rec',
      ScanStruct_rows m modelT ptrResults (scanColsOf columns) (map (cellRow m) cells)
        (Some (rowPrefix m r0)) rec sliceV = Ok (sliceV', rec') /\
      sliceV' ++ [rec'] = sliceV ++ remaining m modelT columns r0 rec cells.
Proof.
  induction 1 as [| c cells Hc Hcells IH]; intros r0 rec sliceV Hpk0 Ht0 Hfl.
  - simpl. exists sliceV, rec. split; reflexivity.
  - cbn [map ScanStruct_rows].
    pose proof Hc as (Htc & Hpkc & _).
    destruct (bool_decide (rowPrefix m r0 = rowPrefix m (fst c))) eqn:Hd.
    + apply bool_decide_eq_true in Hd.
      rewrite ScanStruct_flush_same
        by (rewrite (HasPrefix_cellRow m modelT c r0 Hc Hpk0 Ht0);
            apply bool_decide_eq_true_2; exact Hd).
      destruct Hfl as [Hk Hfields].
      assert (Hsame : forall f, f ∈ pkLocs m -> FieldByIndex (fst c) f = FieldByIndex r0 f).
      { assert (Hx : rowPrefix m (fst c) ++ [] = rowPrefix m r0 ++ [])
          by (rewrite Hd; reflexivity).
        apply (rowPrefix_unique m modelT (fst c) r0 [] [] Hpkc Htc Hpk0 Ht0 Hx). }
      rewrite (ScanStruct_cell_valid m modelT columns c rec Hc)
        by (rewrite Hk; apply (same_kinds modelT); assumption).
      rewrite setFrom_same by (intros f Hf; rewrite Hsame by exact Hf; auto).
      rewrite <- Hd, (remaining_same m modelT columns r0 rec c cells Hd).
      apply IH; [exact Hpk0 | exact Ht0 |].
      apply (inFlight_applyCell m modelT); [exact Hc | exact Ht0 | exact Hsame |].
      split; assumption.
    + apply bool_decide_eq_false in Hd.
      rewrite (ScanStruct_flush_new m modelT ptrResults _ r0 rec sliceV Hpk0 Ht0)
        by (rewrite (HasPrefix_cellRow m modelT c r0 Hc Hpk0 Ht0);
            apply bool_decide_eq_false_2; exact Hd).
      rewrite (ScanStruct_cell_valid m modelT columns c _ Hc)
        by (rewrite kindsOf_setFrom;
            rewrite kindsOf_zeroStruct; symmetry;
            first [eapply typed_kindsOf; eassumption]).
      rewrite setFrom_setFrom, <- pkRecord_setFrom.
      rewrite (remaining_new m modelT columns r0 rec c cells Hd).
      destruct (IH (fst c) (applyCell m columns (pkRecord m modelT (fst c)) c)
                  (sliceV ++ [rec]) Hpkc Htc) as (sliceV' & rec' & Hrun & Hres).
      { apply (inFlight_applyCell m modelT); [exact Hc | exact Htc | auto |].
        apply inFlight_pkRecord; assumption. }
      exists sliceV', rec'. split; [exact Hrun |].
      rewrite Hres, <- app_assoc. reflexivity.
Qed.


(** *** The order of keys *)

Lemma to_N_inj x y : Byte.to_N x = Byte.to_N y -> x = y.
Proof.
  intros H. pose proof (Byte.of_to_N x) as Hx. rewrite H, Byte.of_to_N in Hx.
  congruence.
Qed.

Lemma bytes_le_cons x a y b :
  bytes_le (x :: a) (y :: b) <->
  (Byte.to_N x < Byte.to_N y)%N \/ (x = y /\ bytes_le a b).
Proof.
  unfold bytes_le. simpl.
  destruct (N.compare_spec (Byte.to_N x) (Byte.to_N y)) as [Heq | Hlt | Hgt].
  - apply to_N_inj in Heq. subst. split; [auto | intros [H | [_ H]]; [lia | exact H]].
  - split; [auto | discriminate].
  - split; [congruence |]. intros [H | [-> _]]; lia.
Qed.

Lemma bytes_le_nil_r a : bytes_le a [] -> a = [].
Proof. destruct a; [reflexivity |]. unfold bytes_le. simpl. congruence. Qed.

Lemma bytes_le_trans : Transitive bytes_le.
Proof.
  intros a. induction a as [| x a IH]; intros b c Hab Hbc.
  - destruct c; unfold bytes_le; simpl; discriminate.
  - destruct b as [| y b]; [apply bytes_le_nil_r in Hab; discriminate |].
    destruct c as [| z c]; [apply bytes_le_nil_r in Hbc; discriminate |].
    apply bytes_le_cons in Hab, Hbc. apply bytes_le_cons.
    destruct Hab as [Hab | [-> Hab]], Hbc as [Hbc | [-> Hbc]];
      [left; lia | left; exact Hab | left; exact Hbc | right].
    split; [reflexivity | eapply IH; eassumption].
Qed.

(** The keys with a given prefix are convex in the key order. *)
Lemma HasPrefix_convex p : forall a b c,
  bytes_le a b -> bytes_le b c ->
  HasPrefix a p = true -> HasPrefix c p = true -> HasPrefix b p = true.
Proof.
  induction p as [| x p IH]; intros a b c Hab Hbc Ha Hc.
  - destruct b; reflexivity.
  - destruct a as [| xa a]; [discriminate |]. destruct c as [| xc c]; [discriminate |].
    simpl in Ha, Hc. apply andb_true_iff in Ha as [Hxa Ha], Hc as [Hxc Hc].
    apply Byte.byte_dec_bl in Hxa, Hxc. subst xa xc.
    destruct b as [| y b]; [apply bytes_le_nil_r in Hab; discriminate |].
    apply bytes_le_cons in Hab, Hbc.
    destruct Hab as [Hab | [<- Hab]], Hbc as [Hbc | [Heq Hbc]]; try lia.
    + subst y. lia.
    + simpl. rewrite (Byte.byte_dec_lb eq_refl). simpl. eapply IH; eassumption.
Qed.


(** *** The rows of a sorted reply *)

Lemma rowsOf_nonempty m cells : Forall (fun row => row <> []) (rowsOf m cells).
Proof.
  induction cells as [| c cells IH]; [constructor |].
  rewrite rowsOf_cons. destruct (rowsOf m cells) as [| [| c' row] rows].
  - repeat constructor. discriminate.
  - repeat constructor. discriminate.
  - apply Forall_cons in IH as [_ IH].
    destruct (bool_decide _); repeat constructor; try discriminate; exact IH.
Qed.

Lemma rowsOf_concat m cells : concat (rowsOf m cells) = cells.
Proof.
  induction cells as [| c cells IH]; [reflexivity |].
  pose proof (rowsOf_nonempty m cells) as Hne.
  rewrite rowsOf_cons. destruct (rowsOf m cells) as [| [| c' row] rows]; simpl in *.
  - subst. reflexivity.
  - apply Forall_cons in Hne as [Hne _]. congruence.
  - destruct (bool_decide _); simpl; rewrite <- IH; reflexivity.
Qed.

Lemma rowsOf_first m cells c row rows :
  rowsOf m cells = (c :: row) :: rows -> exists rest, cells = c :: rest.
Proof.
  intros H. pose proof (rowsOf_concat m cells) as Hc. rewrite H in Hc. simpl in Hc.
  eexists. symmetry. exact Hc.
Qed.

Lemma rowsOf_prefix m cells :
  Forall (fun row => Forall (fun c => rowPrefix m (fst c) = prefixOf m row) row)
         (rowsOf m cells).
Proof.
  induction cells as [| c cells IH]; [constructor |].
  rewrite rowsOf_cons. destruct (rowsOf m cells) as [| [| c' row] rows].
  - repeat constructor.
  - repeat constructor.
  - apply Forall_cons in IH as [Hrow IH].
    destruct (bool_decide _) eqn:Hd.
    + apply bool_decide_eq_true in Hd. constructor; [| exact IH].
      constructor; [reflexivity |]. simpl in *.
      eapply Forall_impl; [exact Hrow |]. simpl. intros c0 H0. congruence.
    + constructor; [repeat constructor |]. constructor; assumption.
Qed.

Lemma prefixOf_elem m cells p :
  p ∈ map (prefixOf m) (rowsOf m cells) -> exists c, c ∈ cells /\ rowPrefix m (fst c) = p.
Proof.
  intros Hp. apply list_elem_of_fmap in Hp as (row & -> & Hrow).
  pose proof (rowsOf_nonempty m cells) as Hne. rewrite Forall_forall in Hne.
  specialize (Hne row Hrow). destruct row as [| c row]; [congruence |].
  exists c. split; [| reflexivity].
  rewrite <- (rowsOf_concat m cells). apply list_elem_of_In, in_concat.
  exists (c :: row). split; [apply list_elem_of_In; exact Hrow | left; reflexivity].
Qed.

(** In a reply sorted by key the rows have distinct row prefixes. *)
Lemma rowsOf_distinct m modelT cells :
  Forall (validCell m modelT) cells ->
  Sorted bytes_le (map (fun c => cellKey m (fst c) (snd c)) cells) ->
  NoDup (map (prefixOf m) (rowsOf m cells)).
Proof.
  intros Hvalid Hsorted. apply Sorted_StronglySorted in Hsorted; [| apply bytes_le_trans].
  induction cells as [| c cells IH]; [constructor |].
  apply Forall_cons in Hvalid as [Hc Hvalid].
  simpl in Hsorted. apply StronglySorted_inv in Hsorted as [Hsorted Hle].
  specialize (IH Hvalid Hsorted). rewrite rowsOf_cons.
  destruct (rowsOf m cells) as [| [| c' row] rows] eqn:Hrows;
    try (apply NoDup_singleton).
  destruct (bool_decide (rowPrefix m (fst c) = rowPrefix m (fst c'))) eqn:Hd.
  - apply bool_decide_eq_true in Hd. simpl in *. rewrite Hd. exact IH.
  - apply bool_decide_eq_false in Hd.
    change (NoDup (rowPrefix m (fst c) :: map (prefixOf m) ((c' :: row) :: rows))).
    apply NoDup_cons. split; [| exact IH].
    intros Hin. rewrite <- Hrows in Hin.
    apply prefixOf_elem in Hin as (ck & Hck & Hpk).
    destruct (rowsOf_first m cells c' row rows Hrows) as (rest & ->).
    apply Forall_cons in Hvalid as [Hc' Hvalid].
    simpl in Hsorted, Hle. apply StronglySorted_inv in Hsorted as [_ Hle'].
    apply Forall_cons in Hle as [Hcc' _].
    apply Hd.
    pose proof Hc as (Htc & Hpkc & _).
    rewrite <- (bool_decide_eq_true (rowPrefix m (fst c) = rowPrefix m (fst c'))).
    rewrite <- (HasPrefix_cellRow m modelT c' (fst c) Hc' Hpkc Htc).
    apply elem_of_cons in Hck as [-> | Hck].
    + apply HasPrefix_app. cbn [cellRow KeyValue_Key]. unfold cellKey. rewrite Hpk. eauto.
    + apply (HasPrefix_convex _ (cellKey m (fst c) (snd c)) _ (cellKey m (fst ck) (snd ck))).
      * exact Hcc'.
      * rewrite Forall_forall in Hle'. apply Hle'.
        apply (list_elem_of_fmap_2 (fun c => cellKey m (fst c) (snd c))). exact Hck.
      * apply HasPrefix_app. unfold cellKey. eauto.
      * apply HasPrefix_app. unfold cellKey. rewrite Hpk. eauto.
Qed.


(** *** The record of a row *)

Lemma applyCell_length m columns rec c :
  length (sv_Fields (applyCell m columns rec c)) = length (sv_Fields rec).
Proof.
  unfold applyCell. destruct (requested columns (snd c)); [| reflexivity].
  destruct (fields m !! snd c); [| reflexivity]. simpl. apply length_insert.
Qed.

Lemma foldl_applyCell_length m columns row : forall rec,
  length (sv_Fields (foldl (applyCell m columns) rec row)) = length (sv_Fields rec).
Proof.
  induction row as [| c row IH]; intros rec; simpl; [reflexivity |].
  rewrite IH. apply applyCell_length.
Qed.

(** A field that no requested cell of the row is written to keeps its
    content. *)
Lemma foldl_applyCell_other m columns f row : forall rec,
  Forall (fun c => requested columns (snd c) = true -> fields m !! snd c <> Some f) row ->
  FieldByIndex (foldl (applyCell m columns) rec row) f = FieldByIndex rec f.
Proof.
  induction row as [| c row IH]; intros rec Hrow; simpl; [reflexivity |].
  apply Forall_cons in Hrow as [Hc Hrow]. rewrite IH by exact Hrow.
  unfold applyCell. destruct (requested columns (snd c)); [| reflexivity].
  destruct (fields m !! snd c) as [fc |]; [| reflexivity].
  rewrite FieldByIndex_Set. rewrite decide_False; [reflexivity |].
  intros [-> _]. apply Hc; reflexivity.
Qed.

(** The record of a row carries the primary-key fields of the cells of
    the row. *)
Lemma recordOf_pk m modelT columns row c f :
  Forall (validCell m modelT) row ->
  Forall (fun c' => rowPrefix m (fst c') = prefixOf m row) row ->
  c ∈ row -> f ∈ pkLocs m ->
  FieldByIndex (recordOf m modelT columns row) f = FieldByIndex (fst c) f.
Proof.
  intros Hvalid Hprefix Hc Hf.
  destruct row as [| c0 row]; [inversion Hc |]. cbn [recordOf prefixOf] in *.
  pose proof (Forall_inv Hvalid) as (Ht0 & Hpk0 & _).
  assert (Hsame : forall c', c' ∈ c0 :: row ->
            forall f', f' ∈ pkLocs m -> FieldByIndex (fst c') f' = FieldByIndex (fst c0) f').
  { intros c' Hc'. rewrite Forall_forall in Hvalid, Hprefix.
    destruct (Hvalid c' Hc') as (Ht' & Hpk' & _).
    assert (Hx : rowPrefix m (fst c') ++ [] = rowPrefix m (fst c0) ++ [])
      by (rewrite (Hprefix c' Hc'); reflexivity).
    apply (rowPrefix_unique m modelT (fst c') (fst c0) [] [] Hpk' Ht' Hpk0 Ht0 Hx). }
  rewrite (Hsame c Hc f Hf).
  assert (Hfl : inFlight m (fst c0) (foldl (applyCell m columns)
                                       (pkRecord m modelT (fst c0)) (c0 :: row))).
  { generalize (inFlight_pkRecord m modelT (fst c0) Hpk0 Ht0).
    generalize (pkRecord m modelT (fst c0)).
    revert Hvalid Hsame. generalize (c0 :: row) as cells.
    induction cells as [| c1 cells IH]; intros Hvalid Hsame rec Hrec; [exact Hrec |].
    simpl. apply IH.
    - eapply Forall_inv_tail. exact Hvalid.
    - intros c' Hc'. apply Hsame. right. exact Hc'.
    - apply (inFlight_applyCell m modelT); [apply (Forall_inv Hvalid) | exact Ht0 | | exact Hrec].
      apply Hsame. left. }
  apply Hfl. exact Hf.
Qed.

(** A requested cell of the row is in its field, unless a later cell of
    the row is written to the same field. *)
Lemma recordOf_cell m modelT columns pre c post f :
  Forall (validCell m modelT) (pre ++ c :: post) ->
  requested columns (snd c) = true -> fields m !! snd c = Some f ->
  Forall (fun c' => requested columns (snd c') = true -> fields m !! snd c' <> Some f) post ->
  FieldByIndex (recordOf m modelT columns (pre ++ c :: post)) f = FieldByIndex (fst c) f.
Proof.
  intros Hvalid Hreq Hf Hpost.
  assert (Hlt : f < length (st_Fields modelT)).
  { apply Forall_app in Hvalid as [_ Hvalid].
    pose proof (Forall_inv Hvalid) as (Ht & _ & f' & Hf' & Hs).
    rewrite Hf in Hf'. injection Hf' as <-.
    rewrite <- (typed_length _ _ Ht). apply supported_in_range. exact (proj1 Hs). }
  assert (Hfold : forall rec, length (sv_Fields rec) = length (st_Fields modelT) ->
            FieldByIndex (foldl (applyCell m columns) rec (pre ++ c :: post)) f =
            FieldByIndex (fst c) f).
  { intros rec Hlen. rewrite foldl_app. cbn [foldl].
    rewrite foldl_applyCell_other by exact Hpost.
    unfold applyCell at 1. rewrite Hreq, Hf, FieldByIndex_Set.
    rewrite decide_True; [reflexivity |]. split; [reflexivity |].
    rewrite foldl_applyCell_length, Hlen. exact Hlt. }
  assert (Hpkl : forall r, length (sv_Fields (pkRecord m modelT r)) = length (st_Fields modelT)).
  { intros r. rewrite pkRecord_setFrom, setFrom_length. simpl. apply length_map. }
  destruct pre as [| c0 pre]; cbn [recordOf app]; apply (Hfold _ (Hpkl _)).
Qed.

(** A field outside the primary key that no requested cell of the row is
    written to has its zero value. *)
Lemma recordOf_zero m modelT columns row f :
  f ∉ pkLocs m ->
  Forall (fun c => requested columns (snd c) = true -> fields m !! snd c <> Some f) row ->
  FieldByIndex (recordOf m modelT columns row) f = FieldByIndex (zeroStruct modelT) f.
Proof.
  intros Hf Hrow. destruct row as [| c row]; [reflexivity |]. cbn [recordOf].
  rewrite foldl_applyCell_other by exact Hrow.
  rewrite pkRecord_setFrom. apply FieldByIndex_setFrom_other. exact Hf.
Qed.

(** *** The post-reply decoder *)

Lemma ScanStruct_Post_empty m l modelT ptrResults columns h :
  ScanStruct_Post m l modelT ptrResults columns (ScanResponse []) h = Ok h.
Proof. reflexivity. Qed.

Lemma ScanStruct_Post_valid m l modelT ptrResults columns c cells h old :
  Forall (validCell m modelT) (c :: cells) -> h !! l = Some (HSlice old) ->
  ScanStruct_Post m l modelT ptrResults columns
      (ScanResponse (map (cellRow m) (c :: cells))) h =
  Ok (<[l := HSlice (old ++ map (recordOf m modelT columns) (rowsOf m (c :: cells)))]> h).
Proof.
  intros Hvalid Hl. apply Forall_cons in Hvalid as [Hc Hcells].
  pose proof Hc as (Htc & Hpkc & _).
  unfold ScanStruct_Post. cbn [map length Nat.eqb]. rewrite Hl.
  fold (scanColsOf columns). cbn [ScanStruct_rows ScanStruct_flush].
  assert (Hz : kindsOf (zeroStruct modelT) = kindsOf (fst c))
    by (rewrite kindsOf_zeroStruct; symmetry; eapply typed_kindsOf; exact Htc).
  rewrite (ScanStruct_cell_valid m modelT columns c _ Hc Hz), <- pkRecord_setFrom.
  destruct (ScanStruct_rows_valid m modelT ptrResults columns cells Hcells (fst c)
              (applyCell m columns (pkRecord m modelT (fst c)) c) old Hpkc Htc)
    as (sliceV' & rec' & -> & Hres).
  { apply (inFlight_applyCell m modelT); [exact Hc | exact Htc | auto |].
    apply inFlight_pkRecord; assumption. }
  rewrite Hres, <- records_head. reflexivity.
Qed.

(** Records with the same primary-key fields have the same row prefix. *)
Lemma rowPrefix_ext m r1 r2 :
  (forall f, f ∈ pkLocs m -> FieldByIndex r1 f = FieldByIndex r2 f) ->
  rowPrefix m r1 = rowPrefix m r2.
Proof.
  intros H. unfold rowPrefix, pkValues. do 3 f_equal.
  unfold pkLocs in H. induction (primaryKey m) as [| col cols IH]; [reflexivity |].
  cbn [omap list_omap] in *. destruct (fields m !! col) as [f |]; cbn [fmap option_fmap option_map] in *.
  - f_equal; [apply H; left | apply IH; intros f' Hf'; apply H; right; exact Hf'].
  - apply IH. exact H.
Qed.

Lemma recordOf_decodedFrom m modelT columns row :
  row <> [] -> Forall (validCell m modelT) row ->
  Forall (fun c => rowPrefix m (fst c) = prefixOf m row) row ->
  decodedFrom m modelT columns row (recordOf m modelT columns row).
Proof.
  intros Hne Hvalid Hprefix. repeat split.
  - destruct row as [| c row]; [congruence |]. cbn [prefixOf].
    apply rowPrefix_ext. intros f Hf.
    apply (recordOf_pk m modelT columns (c :: row) c f Hvalid Hprefix); [left | exact Hf].
  - intros c f. apply recordOf_pk; assumption.
  - intros pre c post f ->. apply recordOf_cell. exact Hvalid.
  - intros f. apply recordOf_zero.
Qed.

Lemma Forall_concat {A} (P : A -> Prop) (ls : list (list A)) :
  Forall P (concat ls) -> Forall (Forall P) ls.
Proof.
  induction ls as [| l ls IH]; simpl; intros H; [constructor |].
  apply Forall_app in H as [Hl Hls]. constructor; auto.
Qed.

(** C2. For a scan reply whose pairs are sorted by key and are cells of
    the table bound to the record type (cells of records of the type,
    whose primary-key fields and content are of a supported kind, with no
    nil byte slice in the primary key and no [float32] NaN, which the
    conversions to and from [float64] may change), the post-reply decoder of
    [ScanStruct] appends to the destination slice one record per distinct
    row prefix, in the order of the keys: the cells are cut into rows of
    consecutive cells with the same row prefix, no two rows have the same
    prefix, and the record of a row has the primary-key fields of the row,
    every requested cell (every cell when no column is named) in its
    field, and zero values in the other fields outside the primary key;
    the record in flight is appended after the last pair. A reply without
    rows leaves the heap, and so the destination slice, as it was. *)
Theorem C2_scan_one_record_per_row m l modelT ptrResults columns cells h old :
  Forall (validCell m modelT) cells ->
  Sorted bytes_le (map KeyValue_Key (map (cellRow m) cells)) ->
  h !! l = Some (HSlice old) ->
  exists rows recs,
    grouped m cells rows /\
    Forall2 (decodedFrom m modelT columns) rows recs /\
    ScanStruct_Post m l modelT ptrResults columns
        (ScanResponse (map (cellRow m) cells)) h =
      Ok (<[l := HSlice (old ++ recs)]> h) /\
    (cells = [] ->
     ScanStruct_Post m l modelT ptrResults columns
         (ScanResponse (map (cellRow m) cells)) h = Ok h).
Proof.
  intros Hvalid Hsorted Hl.
  exists (rowsOf m cells), (map (recordOf m modelT columns) (rowsOf m cells)).
  assert (Hg : grouped m cells (rowsOf m cells)).
  { repeat split.
    - apply rowsOf_concat.
    - apply rowsOf_nonempty.
    - apply rowsOf_prefix.
    - apply (rowsOf_distinct m modelT); [exact Hvalid |].
      rewrite map_map in Hsorted. exact Hsorted. }
  split; [exact Hg |]. split; [| split].
  - destruct Hg as (Hcat & Hne & Hpre & _).
    rewrite <- Hcat in Hvalid. apply Forall_concat in Hvalid.
    revert Hne Hpre Hvalid. generalize (rowsOf m cells) as rows.
    induction rows as [| row rows IH]; intros Hne Hpre Hvalid; [constructor |].
    apply Forall_cons in Hne as [Hne1 Hne], Hpre as [Hpre1 Hpre], Hvalid as [Hv1 Hvalid].
    cbn [map]. constructor; [| apply IH; assumption].
    apply recordOf_decodedFrom; assumption.
  - destruct cells as [| c cells].
    + cbn. rewrite app_nil_r, insert_id by exact Hl. reflexivity.
    + apply ScanStruct_Post_valid; assumption.
  - intros ->. reflexivity.
Qed.

End Scan.

Lemma scanCells_valid : Forall (validCell examples.usersModel examples.UserT) examples.scanCells.
Proof.
  repeat (apply Forall_cons; split); try apply Forall_nil_2;
    (split; [| split]).
  all: try (repeat split; repeat constructor).
  all: try (eexists; split; [reflexivity | repeat split; first [discriminate | exact I]]).
Qed.

Lemma scanCells_sorted :
  Sorted bytes_le (map KeyValue_Key (map (cellRow examples.usersModel) examples.scanCells)).
Proof. repeat constructor; vm_compute; discriminate. Qed.

(** The scan over the cells of two users on the reference codec and
    runtime, into an empty slice at address 0. *)
Lemma C2_witness :
  exists rows recs,
    grouped examples.usersModel examples.scanCells rows /\
    Forall2 (decodedFrom examples.usersModel examples.UserT []) rows recs /\
    ScanStruct_Post examples.usersModel 0 examples.UserT false []
        (ScanResponse (map (cellRow examples.usersModel) examples.scanCells))
        {[0 := HSlice []]} =
      Ok (<[0 := HSlice ([] ++ recs)]> {[0 := HSlice []]}) /\
    (examples.scanCells = [] ->
     ScanStruct_Post examples.usersModel 0 examples.UserT false []
         (ScanResponse (map (cellRow examples.usersModel) examples.scanCells))
         {[0 := HSlice []]} = Ok {[0 := HSlice []]}).
Proof.
  apply (C2_scan_one_record_per_row (EL := reference_facts.refEncoding_laws)
           (RL := reference_facts.refRuntime_laws)
           examples.usersModel 0 examples.UserT false [] examples.scanCells
           {[0 := HSlice []]} [] scanCells_valid scanCells_sorted).
  vm_compute. reflexivity.
Defined.

End scan_facts.

(** ** The setup of the row operations and the keys of their calls *)

Module operation_facts.

Import encoding client client_spec adapter_spec operation_spec.
Import batch_facts key_facts.

Section Setup.

Context {E : Encoding} {R : GoRuntime} {C : ValueChecksum}.

Lemma encodeTableKey_outcome b v :
  match encodeTableKey b v with
  | Ok _ => supported (KindOf v)
  | Err _ => ~ supported (KindOf v)
  end.
Proof.
  destruct v as [[] | | | | | [] | | | | |]; simpl; try discriminate;
    intros H; apply H; reflexivity.
Qed.

Lemma encodePrimaryKeyCols_outcome m v cols : forall key,
  match encodePrimaryKeyCols m cols v key with
  | Ok _ =>
      Forall (fun col => exists f, fields m !! col = Some f /\
                                   supported (KindOf (FieldByIndex v f))) cols
  | Err _ =>
      ~ Forall (fun col => exists f, fields m !! col = Some f /\
                                     supported (KindOf (FieldByIndex v f))) cols
  end.
Proof.
  induction cols as [| col cols IH]; intros key; simpl; [constructor |].
  destruct (fields m !! col) as [f |] eqn:Hf.
  - pose proof (encodeTableKey_outcome key (FieldByIndex v f)) as Hk.
    destruct (encodeTableKey key (FieldByIndex v f)) as [key' | err].
    + specialize (IH key'). destruct (encodePrimaryKeyCols m cols v key') as [k | err].
      * constructor; [eauto | exact IH].
      * intros H. apply Forall_cons in H as [_ H]. exact (IH H).
    + intros H. apply Forall_cons in H as [(f' & Hf' & Hs) _].
      rewrite Hf in Hf'. injection Hf' as <-. exact (Hk Hs).
  - intros H. apply Forall_cons in H as [(f' & Hf' & _) _]. congruence.
Qed.

(** [encodePrimaryKey] succeeds on the records whose primary key can be
    encoded, and on no other. *)
Lemma encodePrimaryKey_outcome m v :
  match encodePrimaryKey m v with
  | Ok _ => encodable m v
  | Err _ => ~ encodable m v
  end.
Proof. apply encodePrimaryKeyCols_outcome. Qed.

Lemma marshalTableValue_outcome x :
  match marshalTableValue x with
  | Ok _ => marshals x
  | Err _ => ~ marshals x
  end.
Proof.
  destruct x as [[] | | | | | [] | | | ? [] | ? [] |]; simpl; try exact I; tauto.
Qed.

(** The loops over the columns: they succeed when every column is a field
    (that can be marshalled, for a put), with one call per column on the
    key of the column, and fail otherwise. *)
Lemma GetStruct_calls_outcome m obj pk cols : forall calls,
  match GetStruct_calls m obj pk cols calls with
  | Ok calls' =>
      Forall (fun col => is_Some (fields m !! col)) cols /\
      exists new, calls' = calls ++ new /\
                  keysOf new = map (fun col => pk ++ list_byte_of_string col) cols
  | Err _ => exists col, col ∈ cols /\ fields m !! col = None
  end.
Proof.
  induction cols as [| col cols IH]; intros calls; simpl.
  - split; [constructor |]. exists []. rewrite app_nil_r. split; reflexivity.
  - destruct (fields m !! col) as [f |] eqn:Hf.
    + specialize (IH (calls ++ [{| Call_Args := Call_Args (Get (encodeColumnKey m pk col));
                                   Call_Post := Some (GetStruct_Post obj f) |}])).
      destruct (GetStruct_calls m obj pk cols _) as [calls' | err].
      * destruct IH as (Hall & new & -> & Hkeys). split; [constructor; eauto |].
        eexists (_ :: new). rewrite <- app_assoc. split; [reflexivity |].
        unfold keysOf in *. cbn [map]. rewrite Hkeys. reflexivity.
      * destruct IH as (c & Hc & Hn). exists c. split; [right; exact Hc | exact Hn].
    + exists col. split; [left | exact Hf].
Qed.

Lemma PutStruct_calls_outcome m v pk cols : forall calls,
  match PutStruct_calls m v pk cols calls with
  | Ok calls' =>
      Forall (fun col => exists f, fields m !! col = Some f /\
                                   marshals (FieldByIndex v f)) cols /\
      exists new, calls' = calls ++ new /\
                  keysOf new = map (fun col => pk ++ list_byte_of_string col) cols
  | Err _ =>
      exists col, col ∈ cols /\
        (fields m !! col = None \/
         exists f, fields m !! col = Some f /\ ~ marshals (FieldByIndex v f))
  end.
Proof.
  induction cols as [| col cols IH]; intros calls; simpl.
  - split; [constructor |]. exists []. rewrite app_nil_r. split; reflexivity.
  - destruct (fields m !! col) as [f |] eqn:Hf.
    + pose proof (marshalTableValue_outcome (FieldByIndex v f)) as Hv.
      destruct (marshalTableValue (FieldByIndex v f)) as [pv | err].
      * match goal with
        | |- match PutStruct_calls _ _ _ _ ?cs with _ => _ end => specialize (IH cs)
        end.
        destruct (PutStruct_calls m v pk cols _) as [calls' | err].
        -- destruct IH as (Hall & new & -> & Hkeys). split; [constructor; eauto |].
           eexists (_ :: new). rewrite <- app_assoc. split; [reflexivity |].
           unfold keysOf in *. cbn [map]. rewrite Hkeys. reflexivity.
        -- destruct IH as (c & Hc & Hn). exists c. split; [right; exact Hc | exact Hn].
      * exists col. split; [left |]. right. eauto.
    + exists col. split; [left |]. left. exact Hf.
Qed.

Lemma DelStruct_calls_outcome m pk cols : forall calls,
  match DelStruct_calls m pk cols calls with
  | Ok calls' =>
      Forall (fun col => is_Some (fields m !! col)) cols /\
      exists new, calls' = calls ++ new /\
                  keysOf new = map (fun col => pk ++ list_byte_of_string col) cols
  | Err _ => exists col, col ∈ cols /\ fields m !! col = None
  end.
Proof.
  induction cols as [| col cols IH]; intros calls; simpl.
  - split; [constructor |]. exists []. rewrite app_nil_r. split; reflexivity.
  - destruct (fields m !! col) as [f |] eqn:Hf.
    + specialize (IH (calls ++ [Delete (encodeColumnKey m pk col)])).
      destruct (DelStruct_calls m pk cols _) as [calls' | err].
      * destruct IH as (Hall & new & -> & Hkeys). split; [constructor; eauto |].
        eexists (_ :: new). rewrite <- app_assoc. split; [reflexivity |].
        unfold keysOf in *. cbn [map]. rewrite Hkeys. reflexivity.
      * destruct IH as (c & Hc & Hn). exists c. split; [right; exact Hc | exact Hn].
    + exists col. split; [left | exact Hf].
Qed.

(** What the setup of an operation has found when it succeeds. *)
Lemma not_misused db op m :
  ~ notPointer op -> ~ badDest op ->
  (forall t, opType op = Some t -> experimentalModels db !! t = Some m) ->
  (forall t v, opType op = Some t -> v ∈ opKeys op -> sv_Type v = t /\ encodable m v) ->
  Forall (fun col => is_Some (fields m !! col)) (opCols m op) ->
  ~ marshalFailure db op ->
  ~ misused db op.
Proof.
  intros Hptr Hdest Hbound Hkeys Hcols Hmar [H | [H | [H | [H | [H | [H | H]]]]]].
  - exact (Hptr H).
  - exact (Hdest H).
  - destruct H as (t & Ht & Hn). rewrite (Hbound t Ht) in Hn. discriminate.
  - destruct H as (t & v & Ht & Hin & Hne). apply Hne. apply (Hkeys t v Ht Hin).
  - destruct H as (t & m' & v & Ht & Hm' & Hin & Hne).
    rewrite (Hbound t Ht) in Hm'. injection Hm' as <-. apply Hne. apply (Hkeys t v Ht Hin).
  - destruct H as (t & m' & col & Ht & Hm' & Hin & Hn).
    rewrite (Hbound t Ht) in Hm'. injection Hm' as <-.
    rewrite Forall_forall in Hcols. destruct (Hcols col Hin) as [f Hf]. congruence.
  - exact (Hmar H).
Qed.

Lemma GetStruct_cases b obj columns :
  let op := OpGet obj columns in
  (misused (Batch_DB b) op /\ exists err, setupFailed b (applyOp b op) err) \/
  (~ misused (Batch_DB b) op /\
   exists calls m pk,
     enqueued b (applyOp b op) calls /\
     experimentalModels (Batch_DB b) !! sv_Type (Indirect obj) = Some m /\
     encodable m (Indirect obj) /\ encodePrimaryKey m (Indirect obj) = Ok pk /\
     keysOf calls = map (fun col => pk ++ list_byte_of_string col) (opCols m op)).
Proof.
  intros op. subst op. cbn [applyOp]. unfold GetStruct, getModel.
  destruct obj as [s | l s]; cbn [TypeOf isPtr negb andb deref Indirect].
  { left. split; [left; exact I | eexists; apply setupFailed_initResult]. }
  destruct (experimentalModels (Batch_DB b) !! sv_Type s) as [m |] eqn:Hm.
  2:{ left. split; [| eexists; apply setupFailed_initResult].
      right; right; left. exists (sv_Type s). split; [reflexivity | exact Hm]. }
  pose proof (encodePrimaryKey_outcome m s) as Henc.
  destruct (encodePrimaryKey m s) as [pk | err] eqn:Hpk.
  2:{ left. split; [| eexists; apply setupFailed_initResult].
      do 4 right; left. exists (sv_Type s), m, s.
      split; [reflexivity |]. split; [exact Hm |]. split; [left | exact Henc]. }
  fold (columnsOf m columns).
  pose proof (GetStruct_calls_outcome m (IPtr l s) pk (columnsOf m columns) []) as Hc.
  destruct (GetStruct_calls m (IPtr l s) pk (columnsOf m columns) []) as [calls | err].
  2:{ left. split; [| eexists; apply setupFailed_initResult].
      destruct Hc as (col & Hin & Hn). do 5 right; left.
      exists (sv_Type s), m, col. auto. }
  destruct Hc as (Hall & new & -> & Hkeys). right. split.
  - apply (not_misused _ _ m); [cbn; tauto | cbn; tauto | | | exact Hall | cbn; tauto].
    + intros t [= <-]. exact Hm.
    + intros t v [= <-] Hin. apply list_elem_of_singleton in Hin. subst v. auto.
  - exists new, m, pk. split; [apply enqueued_initResult |]. repeat split; assumption.
Qed.

Lemma PutStruct_cases b obj columns :
  let op := OpPut obj columns in
  (misused (Batch_DB b) op /\ exists err, setupFailed b (applyOp b op) err) \/
  (~ misused (Batch_DB b) op /\
   exists calls m pk,
     enqueued b (applyOp b op) calls /\
     experimentalModels (Batch_DB b) !! sv_Type (Indirect obj) = Some m /\
     encodable m (Indirect obj) /\ encodePrimaryKey m (Indirect obj) = Ok pk /\
     keysOf calls = map (fun col => pk ++ list_byte_of_string col) (opCols m op)).
Proof.
  intros op. subst op. cbn [applyOp]. unfold PutStruct, getModel.
  cbn [andb deref]. set (s := Indirect obj).
  destruct (experimentalModels (Batch_DB b) !! sv_Type s) as [m |] eqn:Hm.
  2:{ left. split; [| eexists; apply setupFailed_initResult].
      right; right; left. exists (sv_Type s). split; [reflexivity | exact Hm]. }
  pose proof (encodePrimaryKey_outcome m s) as Henc.
  destruct (encodePrimaryKey m s) as [pk | err] eqn:Hpk.
  2:{ left. split; [| eexists; apply setupFailed_initResult].
      do 4 right; left. exists (sv_Type s), m, s.
      split; [reflexivity |]. split; [exact Hm |]. split; [left | exact Henc]. }
  fold (columnsOf m columns).
  pose proof (PutStruct_calls_outcome m s pk (columnsOf m columns) []) as Hc.
  destruct (PutStruct_calls m s pk (columnsOf m columns) []) as [calls | err].
  2:{ left. split; [| eexists; apply setupFailed_initResult].
      destruct Hc as (col & Hin & [Hn | (f & Hf & Hv)]).
      - do 5 right; left. exists (sv_Type s), m, col. auto.
      - do 6 right. exists m, col, f. auto. }
  destruct Hc as (Hall & new & -> & Hkeys). right. split.
  - apply (not_misused _ _ m); [cbn; tauto | cbn; tauto | | | |].
    + intros t [= <-]. exact Hm.
    + intros t v [= <-] Hin. apply list_elem_of_singleton in Hin. subst v. auto.
    + eapply Forall_impl; [exact Hall |]. intros col (f & Hf & _). eauto.
    + intros (m' & col & f & Hm' & Hin & Hf & Hv). fold s in Hm'.
      rewrite Hm in Hm'. injection Hm' as <-.
      rewrite Forall_forall in Hall. destruct (Hall col Hin) as (f' & Hf' & Hv').
      rewrite Hf in Hf'. injection Hf' as <-. exact (Hv Hv').
  - exists new, m, pk. split; [apply enqueued_initResult |]. repeat split; assumption.
Qed.

Lemma IncStruct_cases b obj value column :
  let op := OpInc obj value column in
  (misused (Batch_DB b) op /\ exists err, setupFailed b (applyOp b op) err) \/
  (~ misused (Batch_DB b) op /\
   exists calls m pk,
     enqueued b (applyOp b op) calls /\
     experimentalModels (Batch_DB b) !! sv_Type (Indirect obj) = Some m /\
     encodable m (Indirect obj) /\ encodePrimaryKey m (Indirect obj) = Ok pk /\
     keysOf calls = map (fun col => pk ++ list_byte_of_string col) (opCols m op)).
Proof.
  intros op. subst op. cbn [applyOp]. unfold IncStruct, getModel.
  destruct obj as [s | l s]; cbn [TypeOf isPtr negb andb deref Indirect].
  { left. split; [left; exact I | eexists; apply setupFailed_initResult]. }
  destruct (experimentalModels (Batch_DB b) !! sv_Type s) as [m |] eqn:Hm.
  2:{ left. split; [| eexists; apply setupFailed_initResult].
      right; right; left. exists (sv_Type s). split; [reflexivity | exact Hm]. }
  pose proof (encodePrimaryKey_outcome m s) as Henc.
  destruct (encodePrimaryKey m s) as [pk | err] eqn:Hpk.
  2:{ left. split; [| eexists; apply setupFailed_initResult].
      do 4 right; left. exists (sv_Type s), m, s.
      split; [reflexivity |]. split; [exact Hm |]. split; [left | exact Henc]. }
  destruct (fields m !! column) as [f |] eqn:Hf.
  2:{ left. split; [| eexists; apply setupFailed_initResult].
      do 5 right; left. exists (sv_Type s), m, column.
      split; [reflexivity |]. split; [exact Hm |]. split; [left | exact Hf]. }
  right. split.
  - apply (not_misused _ _ m); [cbn; tauto | cbn; tauto | | | | cbn; tauto].
    + intros t [= <-]. exact Hm.
    + intros t v [= <-] Hin. apply list_elem_of_singleton in Hin. subst v. auto.
    + repeat constructor. eauto.
  - eexists [_], m, pk. split; [apply (enqueued_initResult b [_] 1) |].
    repeat split; first [assumption | reflexivity].
Qed.

Lemma DelStruct_cases b obj columns :
  let op := OpDel obj columns in
  (misused (Batch_DB b) op /\ exists err, setupFailed b (applyOp b op) err) \/
  (~ misused (Batch_DB b) op /\
   exists calls m pk,
     enqueued b (applyOp b op) calls /\
     experimentalModels (Batch_DB b) !! sv_Type (Indirect obj) = Some m /\
     encodable m (Indirect obj) /\ encodePrimaryKey m (Indirect obj) = Ok pk /\
     keysOf calls = map (fun col => pk ++ list_byte_of_string col) (opCols m op)).
Proof.
  intros op. subst op. cbn [applyOp]. unfold DelStruct, getModel.
  cbn [andb deref]. set (s := Indirect obj).
  destruct (experimentalModels (Batch_DB b) !! sv_Type s) as [m |] eqn:Hm.
  2:{ left. split; [| eexists; apply setupFailed_initResult].
      right; right; left. exists (sv_Type s). split; [reflexivity | exact Hm]. }
  pose proof (encodePrimaryKey_outcome m s) as Henc.
  destruct (encodePrimaryKey m s) as [pk | err] eqn:Hpk.
  2:{ left. split; [| eexists; apply setupFailed_initResult].
      do 4 right; left. exists (sv_Type s), m, s.
      split; [reflexivity |]. split; [exact Hm |]. split; [left | exact Henc]. }
  fold (columnsOf m columns).
  pose proof (DelStruct_calls_outcome m pk (columnsOf m columns) []) as Hc.
  destruct (DelStruct_calls m pk (columnsOf m columns) []) as [calls | err].
  2:{ left. split; [| eexists; apply setupFailed_initResult].
      destruct Hc as (col & Hin & Hn). do 5 right; left.
      exists (sv_Type s), m, col. auto. }
  destruct Hc as (Hall & new & -> & Hkeys). right. split.
  - apply (not_misused _ _ m); [cbn; tauto | cbn; tauto | | | exact Hall | cbn; tauto].
    + intros t [= <-]. exact Hm.
    + intros t v [= <-] Hin. apply list_elem_of_singleton in Hin. subst v. auto.
  - exists new, m, pk. split; [apply enqueued_initResult |]. repeat split; assumption.
Qed.



End Setup.

Section Claims.

Context {E : Encoding} {EL : EncodingLaws E} {R : GoRuntime} {C : ValueChecksum}.



Lemma encodable_keyFields m v cols :
  Forall (fun col => exists f, fields m !! col = Some f /\
                               supported (KindOf (FieldByIndex v f))) cols ->
  Forall2 (fun col x => exists f, fields m !! col = Some f /\ FieldByIndex v f = x /\
                                  supported (KindOf x))
          cols (omap (fun col => FieldByIndex v <$> (fields m !! col)) cols).
Proof.
  induction cols as [| col cols IH]; intros H; [constructor |].
  apply Forall_cons in H as [(f & Hf & Hs) H]. simpl. rewrite Hf. simpl.
  constructor; [eauto | apply IH; exact H].
Qed.

Lemma cellLayout_key m v pk col :
  encodePrimaryKey m v = Ok pk ->
  pk ++ list_byte_of_string col = cellLayout m (pkValues m v) col.
Proof.
  intros Hpk. apply encodePrimaryKey_rowPrefix in Hpk. subst pk.
  unfold rowPrefix, cellLayout. rewrite <- app_assoc. reflexivity.
Qed.

(** C4. The keys of the calls that a get, put, increment or delete
    enqueues on a record of a bound type. Either the operation is not
    misused: it then enqueues one call per column it works on, in their
    order, and the key of the call of a column is the encoded table name,
    followed by the encodings of the primary-key values of the record in
    the declared order of the primary key (each the content of a field of
    a supported kind), followed by the bytes of the column name. Or it is
    misused, and no key is enqueued. *)
Theorem C4_cell_key_layout (b : Batch) (op : RowOp) (v : StructVal) (m : model) :
  opRecord op = Some v ->
  experimentalModels (Batch_DB b) !! sv_Type v = Some m ->
  (~ misused (Batch_DB b) op /\
   exists calls vals,
     enqueued b (applyOp b op) calls /\ keyFields m v vals /\
     keysOf calls = map (cellLayout m vals) (opCols m op)) \/
  (misused (Batch_DB b) op /\ Batch_calls (applyOp b op) = Batch_calls b).
Proof.
  intros Hv Hm.
  assert (Hcases :
    (misused (Batch_DB b) op /\ exists err, setupFailed b (applyOp b op) err) \/
    (~ misused (Batch_DB b) op /\
     exists calls pk,
       enqueued b (applyOp b op) calls /\ encodable m v /\ encodePrimaryKey m v = Ok pk /\
       keysOf calls = map (fun col => pk ++ list_byte_of_string col) (opCols m op))).
  { destruct op as [obj columns | obj columns | obj value column
                   | dest start end_ maxRows columns | obj columns];
      try discriminate Hv; injection Hv as <-.
    - destruct (GetStruct_cases b obj columns)
        as [H | (H & calls & m' & pk & Hq & Hm' & Henc & Hpk & Hk)]; [left; exact H |].
      rewrite Hm in Hm'. injection Hm' as <-. right. eauto 8.
    - destruct (PutStruct_cases b obj columns)
        as [H | (H & calls & m' & pk & Hq & Hm' & Henc & Hpk & Hk)]; [left; exact H |].
      rewrite Hm in Hm'. injection Hm' as <-. right. eauto 8.
    - destruct (IncStruct_cases b obj value column)
        as [H | (H & calls & m' & pk & Hq & Hm' & Henc & Hpk & Hk)]; [left; exact H |].
      rewrite Hm in Hm'. injection Hm' as <-. right. eauto 8.
    - destruct (DelStruct_cases b obj columns)
        as [H | (H & calls & m' & pk & Hq & Hm' & Henc & Hpk & Hk)]; [left; exact H |].
      rewrite Hm in Hm'. injection Hm' as <-. right. eauto 8. }
  destruct Hcases as [[Hmis [err [Hcalls _]]] | (Hok & calls & pk & Hq & Henc & Hpk & Hk)].
  - right. split; [exact Hmis | exact Hcalls].
  - left. split; [exact Hok |]. exists calls, (pkValues m v).
    split; [exact Hq |]. split; [apply encodable_keyFields; exact Henc |].
    rewrite Hk. apply map_ext. intros col. apply cellLayout_key. exact Hpk.
Qed.

End Claims.

(** The put of [User{"42", "ada", "admin"}] with no column named is not
    misused. *)
Lemma put_ada_not_misused :
  ~ misused examples.usersDB (OpPut (IStruct examples.ada) []).
Proof.
  apply (not_misused _ _ examples.usersModel); [cbn; tauto | cbn; tauto | | | |].
  - intros t [= <-]. vm_compute. reflexivity.
  - intros t v [= <-] Hin. apply list_elem_of_singleton in Hin. subst v.
    split; [reflexivity |]. repeat constructor. exists 0%nat.
    split; [reflexivity | discriminate].
  - vm_compute. repeat constructor; eexists; reflexivity.
  - intros (m & col & f & Hm & Hin & Hf & Hv). apply Hv. clear Hv.
    assert (Hdb : experimentalModels examples.usersDB !! examples.UserT =
                  Some examples.usersModel) by (vm_compute; reflexivity).
    cbn [Indirect] in Hm. change (sv_Type examples.ada) with examples.UserT in Hm.
    rewrite Hdb in Hm. injection Hm as <-.
    unfold FieldByIndex. cbn [Indirect].
    assert (Hcols : columnsOf examples.usersModel [] = ["name"; "title"]
                    \/ columnsOf examples.usersModel [] = ["title"; "name"])
      by (vm_compute; auto).
    assert (Hcol : col = "name" \/ col = "title").
    { destruct Hcols as [Hc | Hc]; rewrite Hc in Hin;
        repeat (apply elem_of_cons in Hin as [-> | Hin]; [auto |]); inversion Hin. }
    destruct Hcol as [-> | ->]; vm_compute in Hf; injection Hf as <-; exact I.
Qed.

(** The keys of that put on the reference codec: one for each of the two
    columns outside the primary key, each on the row prefix of the table
    users and the id 42. *)
Lemma C4_witness :
  exists calls vals,
    enqueued (NewBatch examples.usersDB)
      (applyOp (NewBatch examples.usersDB) (OpPut (IStruct examples.ada) [])) calls /\
    keyFields examples.usersModel examples.ada vals /\
    keysOf calls =
      map (cellLayout examples.usersModel vals)
          (opCols examples.usersModel (OpPut (IStruct examples.ada) [])).
Proof.
  assert (Hm : experimentalModels (Batch_DB (NewBatch examples.usersDB))
                 !! sv_Type examples.ada = Some examples.usersModel)
    by (vm_compute; reflexivity).
  destruct (C4_cell_key_layout (EL := reference_facts.refEncoding_laws)
              (NewBatch examples.usersDB) (OpPut (IStruct examples.ada) [])
              examples.ada examples.usersModel eq_refl Hm) as [[_ H] | [H _]].
  - exact H.
  - destruct (put_ada_not_misused H).
Defined.


End operation_facts.

(** ** Further properties of the descriptors *)

Module schema_facts.

Import proto proto_spec schema_spec proto_facts.

Lemma validateName_Some_inv n typ e :
  validateName n typ = Some e ->
  (e = EmptyName typ /\ n = EmptyString) \/
  (e = NameContainsSlash n /\ containsSlash n = true).
Proof.
  unfold validateName. destruct n as [| a n]; simpl.
  - intros [= <-]. left. split; reflexivity.
  - destruct (containsSlash (String a n)) eqn:Hs; [| discriminate].
    intros [= <-]. right. split; reflexivity.
Qed.

Lemma allColumnChecks_In_split next cols : forall before e,
  In (Some e) (allColumnChecks next before cols) ->
  exists pre c post,
    cols = pre ++ c :: post /\ In (Some e) (columnChecks next (before ++ pre) c).
Proof.
  induction cols as [| c cols IH]; intros before e H; [contradiction |].
  cbn [allColumnChecks] in H. apply in_app_or in H as [H | H].
  - exists [], c, cols. rewrite app_nil_r. split; [reflexivity | exact H].
  - apply IH in H as (pre & c' & post & -> & H).
    exists (c :: pre), c', post. split; [reflexivity |].
    rewrite <- app_assoc in H. exact H.
Qed.

Lemma allIndexChecks_In_split next columns idxs : forall before e,
  In (Some e) (allIndexChecks next columns before idxs) ->
  exists pre i post,
    idxs = pre ++ i :: post /\ In (Some e) (indexChecks next columns (before ++ pre) i).
Proof.
  induction idxs as [| i idxs IH]; intros before e H; [contradiction |].
  cbn [allIndexChecks] in H. apply in_app_or in H as [H | H].
  - exists [], i, idxs. rewrite app_nil_r. split; [reflexivity | exact H].
  - apply IH in H as (pre & i' & post & -> & H).
    exists (i :: pre), i', post. split; [reflexivity |].
    rewrite <- app_assoc in H. exact H.
Qed.

Lemma In_check b e e' : In (Some e') [check b e] -> b = true /\ e' = e.
Proof.
  intros [H | []]. apply check_Some. exact H.
Qed.

Lemma checks_genuine d e : In (Some e) (checks d) -> genuine d e.
Proof.
  unfold checks. intros H.
  apply in_app_or in H as [H | H]; [| apply in_app_or in H as [H | H];
    [| apply in_app_or in H as [H | H]]].
  - destruct H as [H | [H | []]].
    + apply validateName_Some_inv in H as [[-> Hn] | [-> Hs]]; simpl; auto.
    + apply check_Some in H as [Hb ->]. apply bool_decide_eq_true in Hb. exact Hb.
  - apply allColumnChecks_In_split in H as (pre & c & post & Hcols & H).
    simpl in H.
    assert (Hc : In c (Desc_Columns d)) by (rewrite Hcols; apply in_elt).
    destruct H as [H | [H | [H | [H | []]]]].
    + apply validateName_Some_inv in H as [[-> Hn] | [-> Hs]]; simpl.
      * right. left. split; [reflexivity |]. eauto.
      * split; [exact Hs |]. right. left. apply in_map. exact Hc.
    + apply check_Some in H as [Hb ->]. apply bool_decide_eq_true in Hb.
      exists pre, c, post. rewrite <- list_elem_of_In. auto.
    + apply check_Some in H as [Hb ->]. apply bool_decide_eq_true in Hb.
      exists pre, c, post. rewrite <- list_elem_of_In. auto.
    + apply check_Some in H as [Hb ->]. apply N.leb_le in Hb.
      simpl. split; [reflexivity |]. split; [exact Hb |]. eauto.
  - apply In_check in H as [Hb ->]. apply bool_decide_eq_true in Hb. exact Hb.
  - apply allIndexChecks_In_split in H as (pre & i & post & Hidx & H).
    assert (Hi : In i (Desc_Indexes d)) by (rewrite Hidx; apply in_elt).
    unfold indexChecks in H. apply in_app_or in H as [H | H].
    + simpl in H. destruct H as [H | [H | [H | [H | [H | []]]]]].
      * apply validateName_Some_inv in H as [[-> Hn] | [-> Hs]]; simpl.
        -- right. right. split; [reflexivity |]. eauto.
        -- split; [exact Hs |]. right. right. apply in_map. exact Hi.
      * apply check_Some in H as [Hb ->]. apply bool_decide_eq_true in Hb.
        exists pre, i, post. rewrite <- list_elem_of_In. auto.
      * apply check_Some in H as [Hb ->]. apply bool_decide_eq_true in Hb.
        exists pre, i, post. rewrite <- list_elem_of_In. auto.
      * apply check_Some in H as [Hb ->]. apply N.leb_le in Hb.
        simpl. split; [reflexivity |]. split; [exact Hb |]. eauto.
      * apply check_Some in H as [Hb ->]. apply bool_decide_eq_true in Hb.
        simpl. eauto.
    + apply in_map_iff in H as (columnID & H & Hin).
      apply check_Some in H as [Hb ->]. apply negb_true_iff in Hb.
      apply bool_decide_eq_false in Hb. rewrite list_elem_of_In in Hb.
      simpl. eauto 6.
Qed.

(** X1. [ValidateTableDesc] returns no error exactly on the well-formed
    descriptors: a table name, column names and index names that are not
    empty and have no slash, at least one column and one index, distinct
    column names, distinct column IDs all below [NextColumnID], the same
    for the indexes with [NextIndexID], and in every index at least one
    column ID, each the ID of a column. *)
Theorem validator_accepts_exactly_well_formed (d : TableDescriptor) :
  ValidateTableDesc d = None <-> WellFormed d.
Proof. apply ValidateTableDesc_None. Qed.

Lemma ValidateTableDesc_genuine d e : ValidateTableDesc d = Some e -> genuine d e.
Proof.
  rewrite ValidateTableDesc_firstError. intros H.
  apply firstError_In in H. apply checks_genuine. exact H.
Qed.

(** X2. Every error that [ValidateTableDesc] returns names a defect that
    the descriptor has. *)
Theorem validator_errors_are_genuine (d : TableDescriptor) (e : ValidationError) :
  ValidateTableDesc d = Some e -> genuine d e.
Proof. apply ValidateTableDesc_genuine. Qed.

Lemma validator_errors_are_genuine_witness :
  genuine fixtures.twoBars (DuplicateColumnName "bar").
Proof.
  apply (validator_errors_are_genuine fixtures.twoBars (DuplicateColumnName "bar")).
  reflexivity.
Defined.

Lemma containsSlash_In n :
  containsSlash n = true <-> In "/"%char (list_ascii_of_string n).
Proof.
  unfold containsSlash. induction n as [| b n IH].
  - simpl. split; [discriminate | tauto].
  - cbn [index String.prefix list_ascii_of_string In].
    destruct (ascii_dec "/" b) as [Heq | Hne].
    + assert (Hp : String.prefix EmptyString n = true) by (destruct n; reflexivity).
      rewrite Hp. split; auto.
    + destruct (index 0 "/" n) as [k |].
      * split; [intros _ | reflexivity]. right. apply IH. reflexivity.
      * split; [discriminate |].
        intros [H | H]; [congruence | apply IH in H; discriminate].
Qed.

(** X3. [validateName] rejects the empty name with the empty-name error
    of its kind, rejects a name in which the character [/] occurs with the
    slash error, and accepts every other name. *)
Theorem validateName_by_characters (n typ : string) :
  validateName n typ =
  if decide (n = EmptyString) then Some (EmptyName typ)
  else if decide ("/"%char ∈ list_ascii_of_string n) then Some (NameContainsSlash n)
  else None.
Proof.
  unfold validateName. destruct n as [| a n]; [reflexivity |].
  rewrite decide_False by discriminate. cbn [String.length Nat.eqb].
  destruct (containsSlash (String a n)) eqn:Hs.
  - rewrite decide_True; [reflexivity | apply list_elem_of_In, containsSlash_In; exact Hs].
  - rewrite decide_False; [reflexivity |].
    rewrite list_elem_of_In, <- containsSlash_In, Hs. discriminate.
Qed.

Section Conversion.

Variable ToLower : string -> string.

Lemma colDescs_imap cols : forall next,
  (next + N.of_nat (length cols) <= uint32_modulus)%N ->
  colDescs ToLower next cols =
  imap (fun i c => {| ColumnDescriptor_ID := (next + N.of_nat i)%N;
                      ColumnDescriptor_Column := lowerColumn ToLower c |}) cols.
Proof.
  induction cols as [| c cols IH]; intros next H; [reflexivity |].
  cbn [colDescs imap length] in *. rewrite N.add_0_r. f_equal.
  destruct cols as [| c' cols]; [reflexivity |].
  rewrite uint32_incr_small by (cbn [length] in H; lia).
  rewrite IH by (cbn [length] in *; lia).
  apply imap_ext. intros i x _. simpl. f_equal. lia.
Qed.

Lemma idxDescs_imap byName idxs : forall next,
  (next + N.of_nat (length idxs) <= uint32_modulus)%N ->
  idxDescs ToLower next byName idxs =
  imap (fun k i => {| IndexDescriptor_ID := (next + N.of_nat k)%N;
                      IndexDescriptor_Index := lowerIndex ToLower (IndexByName_Index i);
                      IndexDescriptor_ColumnIDs :=
                        columnIDsOf byName (IndexByName_ColumnNames i) |}) idxs.
Proof.
  induction idxs as [| c idxs IH]; intros next H; [reflexivity |].
  cbn [idxDescs imap length] in *. rewrite N.add_0_r. f_equal.
  destruct idxs as [| c' idxs]; [reflexivity |].
  rewrite uint32_incr_small by (cbn [length] in H; lia).
  rewrite IH by (cbn [length] in *; lia).
  apply imap_ext. intros i x _. simpl. f_equal. lia.
Qed.

(** X4. [TableDescFromSchema] numbers the columns, and the indexes, by
    their position, from 0: the descriptor has the table name in lower
    case, for the column at position [i] a column descriptor with the ID
    [i] and the column with its name in lower case, for the index at
    position [k] an index descriptor with the ID [k] and the index with
    its name in lower case, and the two counters are the numbers of
    columns and of indexes. *)
Theorem conversion_numbers_by_position (s : TableSchema) :
  fitsUint32 s ->
  let d := TableDescFromSchema ToLower s in
  desc_Name d = ToLower (Table_Name (Schema_Table s)) /\
  Desc_Columns d =
    imap (fun i c => {| ColumnDescriptor_ID := N.of_nat i;
                        ColumnDescriptor_Column := lowerColumn ToLower c |})
         (Schema_Columns s) /\
  Desc_NextColumnID d = N.of_nat (length (Schema_Columns s)) /\
  map IndexDescriptor_ID (Desc_Indexes d) =
    imap (fun k _ => N.of_nat k) (Schema_Indexes s) /\
  map IndexDescriptor_Index (Desc_Indexes d) =
    map (fun i => lowerIndex ToLower (IndexByName_Index i)) (Schema_Indexes s) /\
  Desc_NextIndexID d = N.of_nat (length (Schema_Indexes s)).
Proof.
  intros [Hc Hi] d. unfold d. rewrite TableDescFromSchema_eq. cbv zeta.
  cbn [desc_Name Desc_Table Table_Name Desc_Columns Desc_Indexes Desc_NextColumnID
       Desc_NextIndexID].
  rewrite !iter_uint32_incr by lia. rewrite !N.add_0_l.
  rewrite colDescs_imap by lia. rewrite idxDescs_imap by lia.
  repeat split.
  - rewrite fmap_imap. apply imap_ext. intros k i _. reflexivity.
  - rewrite fmap_imap. rewrite <- (imap_const (fun i => lowerIndex ToLower (IndexByName_Index i))).
    apply imap_ext. intros k i _. reflexivity.
Qed.

Lemma no_columns_error d e :
  ValidateTableDesc d = Some e -> Desc_Columns d = [] -> ~ idError e.
Proof.
  unfold ValidateTableDesc. intros H Hc. rewrite Hc in H.
  destruct (validateName (desc_Name d) "table") as [e' |] eqn:Hn.
  - injection H as <-. apply validateName_Some in Hn as [-> | ->]; simpl; tauto.
  - injection H as <-. simpl. tauto.
Qed.

Lemma byNameOf_value cds n id :
  byNameOf ∅ cds !! n = Some id -> In id (map ColumnDescriptor_ID cds).
Proof.
  intros H. destruct (decide (n ∈ map cd_Name cds)) as [Hin | Hout].
  - destruct (byNameOf_lookup cds ∅ n Hin) as (cd & Hcd & _ & Hl).
    rewrite Hl in H. injection H as <-. apply in_map, list_elem_of_In. exact Hcd.
  - rewrite byNameOf_other in H by exact Hout. rewrite lookup_empty in H. discriminate.
Qed.

Lemma prefix_not_NoDup {A B} (f : A -> B) pre c post :
  In (f c) (map f pre) -> ~ NoDup (map f (pre ++ c :: post)).
Proof.
  intros Hin Hnd. rewrite map_app in Hnd. apply NoDup_app in Hnd as (_ & Hdis & _).
  apply (Hdis (f c)); [apply list_elem_of_In; exact Hin | left].
Qed.

Lemma idxDescs_columnIDs byName idxs : forall next i,
  In i (idxDescs ToLower next byName idxs) ->
  exists names, IndexDescriptor_ColumnIDs i = columnIDsOf byName names.
Proof.
  induction idxs as [| i0 idxs IH]; intros next i Hi; [contradiction |].
  destruct Hi as [<- | Hi]; [eexists; reflexivity | eapply IH; exact Hi].
Qed.

(** X5. The descriptor that [TableDescFromSchema] builds never fails a
    check on IDs: whatever the schema, [ValidateTableDesc] reports on it no
    duplicate column or index ID, no ID beyond its counter and no unknown
    column ID. In particular an index of the schema that names a column
    the schema does not have goes unreported. *)
Theorem converted_descriptor_passes_id_checks (s : TableSchema) (e : ValidationError) :
  fitsUint32 s ->
  ValidateTableDesc (TableDescFromSchema ToLower s) = Some e -> ~ idError e.
Proof.
  intros [Hc Hi] He Hid.
  pose proof (ValidateTableDesc_genuine _ _ He) as Hg.
  assert (Hne : Desc_Columns (TableDescFromSchema ToLower s) <> [])
    by (intros Hnil; exact (no_columns_error _ _ He Hnil Hid)).
  clear He. revert Hg Hne. rewrite TableDescFromSchema_eq. cbv zeta.
  set (cds := colDescs ToLower 0 (Schema_Columns s)).
  set (ids := idxDescs ToLower 0 (byNameOf ∅ cds) (Schema_Indexes s)).
  destruct (colDescs_ids ToLower (Schema_Columns s) 0%N) as [Hcb Hcnd]; [lia |].
  destruct (idxDescs_ids ToLower (byNameOf ∅ cds) (Schema_Indexes s) 0%N) as [Hib Hind];
    [lia |].
  fold cds in Hcb, Hcnd. fold ids in Hib, Hind.
  rewrite !iter_uint32_incr by lia. rewrite !N.add_0_l in *.
  intros Hg Hne. cbn [Desc_Columns] in Hne.
  destruct e; simpl in Hid; try contradiction;
    cbn [genuine Desc_Columns Desc_Indexes Desc_NextColumnID Desc_NextIndexID] in Hg.
  - destruct Hg as (pre & c & post & Heq & _ & <- & Hin).
    rewrite Heq in Hcnd. revert Hcnd. apply prefix_not_NoDup. exact Hin.
  - destruct Hg as (-> & Hle & c & Hin & _ & <-).
    rewrite Forall_forall in Hcb. apply list_elem_of_In, Hcb in Hin. lia.
  - destruct Hg as (pre & c & post & Heq & _ & <- & Hin).
    rewrite Heq in Hind. revert Hind. apply prefix_not_NoDup. exact Hin.
  - destruct Hg as (-> & Hle & c & Hin & _ & <-).
    rewrite Forall_forall in Hib. apply list_elem_of_In, Hib in Hin. lia.
  - destruct Hg as (i & Hi' & _ & Hin & Hout). apply Hout. clear Hout.
    destruct (idxDescs_columnIDs _ _ _ _ Hi') as (names & Hnames).
    rewrite Hnames in Hin.
    unfold columnIDsOf in Hin. apply in_map_iff in Hin as (n & <- & _).
    destruct (byNameOf ∅ cds !! n) as [x |] eqn:Hl; simpl.
    + eapply byNameOf_value. exact Hl.
    + clear -Hne. subst cds. destruct (Schema_Columns s) as [| c0 cols];
        [exfalso; apply Hne; reflexivity | left; reflexivity].
Qed.

Lemma colDescs_lowered next cols :
  map ColumnDescriptor_Column (colDescs ToLower next cols) = map (lowerColumn ToLower) cols.
Proof.
  revert next. induction cols as [| c cols IH]; intros next; simpl; [reflexivity |].
  rewrite IH. reflexivity.
Qed.

Lemma colDescs_names next cols :
  map cd_Name (colDescs ToLower next cols) = map (fun c => ToLower (Column_Name c)) cols.
Proof.
  revert next. induction cols as [| c cols IH]; intros next; simpl; [reflexivity |].
  rewrite IH. reflexivity.
Qed.

Lemma columnNames_resolve cds names :
  NoDup (map ColumnDescriptor_ID cds) ->
  (forall cd rest, cds = cd :: rest -> ColumnDescriptor_ID cd = 0%N) ->
  columnNamesOf (byIDOf ∅ cds) (columnIDsOf (byNameOf ∅ cds) names) =
  map (resolve (map cd_Name cds)) names.
Proof.
  intros Hnd Hfirst. unfold columnNamesOf, columnIDsOf. rewrite map_map.
  apply map_ext. intros n. unfold resolve.
  destruct (decide (n ∈ map cd_Name cds)) as [Hin | Hout].
  - rewrite bool_decide_eq_true_2 by exact Hin.
    destruct (byNameOf_lookup cds ∅ n Hin) as (cd & Hcd & <- & ->). simpl.
    rewrite (byIDOf_lookup cds ∅ cd Hnd Hcd). reflexivity.
  - rewrite bool_decide_eq_false_2 by exact Hout.
    rewrite byNameOf_other by exact Hout. rewrite lookup_empty. simpl.
    destruct cds as [| cd rest]; [reflexivity |].
    rewrite <- (Hfirst cd rest eq_refl).
    rewrite (byIDOf_lookup (cd :: rest) ∅ cd Hnd) by left. reflexivity.
Qed.

(** X6. Converting a schema to a descriptor and back normalizes it: the
    table, column and index names come back in lower case, and an index
    column name comes back as itself when it is the lowercased name of a
    column of the schema, and as the name of the first column otherwise
    (the empty name when the schema has no column). The rest of the schema
    comes back as it was. *)
Theorem roundtrip_normalizes_schema (s : TableSchema) :
  (N.of_nat (length (Schema_Columns s)) <= uint32_modulus)%N ->
  TableSchemaFromDesc (TableDescFromSchema ToLower s) = normalize ToLower s.
Proof.
  intros Hlen. rewrite TableDescFromSchema_eq. cbv zeta.
  unfold TableSchemaFromDesc. cbn [Desc_Table Desc_Columns Desc_Indexes].
  rewrite schemaColumns_eq, schemaIndexes_eq.
  cbn [Schema_Table Schema_Columns Schema_Indexes app].
  destruct (colDescs_ids ToLower (Schema_Columns s) 0%N) as [_ Hnd]; [lia |].
  unfold normalize. f_equal; [apply colDescs_lowered |].
  rewrite <- colDescs_names with (next := 0%N).
  set (cds := colDescs ToLower 0 (Schema_Columns s)) in *.
  assert (Hfirst : forall cd rest, cds = cd :: rest -> ColumnDescriptor_ID cd = 0%N).
  { unfold cds. destruct (Schema_Columns s); simpl; [discriminate |].
    intros cd rest [= <- _]. reflexivity. }
  generalize 0%N. induction (Schema_Indexes s) as [| i idxs IH]; intros next;
    simpl; [reflexivity |].
  rewrite IH. f_equal. f_equal. apply columnNames_resolve; assumption.
Qed.

Lemma idxDescs_names next byName idxs :
  map id_Name (idxDescs ToLower next byName idxs) =
  map (fun i => ToLower (Index_Name (IndexByName_Index i))) idxs.
Proof.
  revert next. induction idxs as [| i idxs IH]; intros next; simpl; [reflexivity |].
  rewrite IH. reflexivity.
Qed.

Lemma idxDescs_any_columns cds idxs : forall next,
  cds <> [] ->
  (forall cd rest, cds = cd :: rest -> ColumnDescriptor_ID cd = 0%N) ->
  (Forall (fun i => IndexDescriptor_ColumnIDs i <> [] /\
                    Forall (fun columnID => columnID ∈ map ColumnDescriptor_ID cds)
                           (IndexDescriptor_ColumnIDs i))
          (idxDescs ToLower next (byNameOf ∅ cds) idxs) <->
   Forall (fun i => IndexByName_ColumnNames i <> []) idxs).
Proof.
  intros next Hne Hfirst. revert next.
  induction idxs as [| i idxs IH]; intros next; simpl.
  - split; constructor.
  - rewrite !Forall_cons, IH. cbn [IndexDescriptor_ColumnIDs].
    assert (Hall : Forall (fun columnID => columnID ∈ map ColumnDescriptor_ID cds)
                     (columnIDsOf (byNameOf ∅ cds) (IndexByName_ColumnNames i))).
    { unfold columnIDsOf. apply Forall_forall. intros id Hid.
      apply list_elem_of_fmap in Hid as (n & -> & _). apply list_elem_of_In.
      destruct (byNameOf ∅ cds !! n) as [x |] eqn:Hl; simpl.
      - eapply byNameOf_value. exact Hl.
      - destruct cds as [| cd rest]; [congruence |]. left. apply (Hfirst cd rest eq_refl). }
    assert (Hnil : columnIDsOf (byNameOf ∅ cds) (IndexByName_ColumnNames i) <> [] <->
                   IndexByName_ColumnNames i <> []).
    { unfold columnIDsOf. destruct (IndexByName_ColumnNames i); simpl; split; congruence. }
    tauto.
Qed.

Lemma converted_WellFormed s :
  fitsUint32 s -> (WellFormed (TableDescFromSchema ToLower s) <-> Accepted ToLower s).
Proof.
  intros [Hc Hi]. rewrite TableDescFromSchema_eq. cbv zeta.
  set (cds := colDescs ToLower 0 (Schema_Columns s)).
  destruct (colDescs_ids ToLower (Schema_Columns s) 0%N) as [Hcb Hcnd]; [lia |].
  destruct (idxDescs_ids ToLower (byNameOf ∅ cds) (Schema_Indexes s) 0%N) as [Hib Hind];
    [lia |].
  fold cds in Hcb, Hcnd.
  pose proof (colDescs_names 0%N (Schema_Columns s)) as Hcn. fold cds in Hcn.
  pose proof (idxDescs_names 0%N (byNameOf ∅ cds) (Schema_Indexes s)) as Hin.
  assert (Hfirst : forall cd rest, cds = cd :: rest -> ColumnDescriptor_ID cd = 0%N).
  { unfold cds. destruct (Schema_Columns s); simpl; [discriminate |].
    intros cd rest [= <- _]. reflexivity. }
  assert (Hne1 : cds <> [] <-> Schema_Columns s <> []).
  { unfold cds. destruct (Schema_Columns s); simpl; split; congruence. }
  assert (Hne2 : idxDescs ToLower 0 (byNameOf ∅ cds) (Schema_Indexes s) <> [] <->
                 Schema_Indexes s <> []).
  { destruct (Schema_Indexes s); simpl; split; congruence. }
  assert (Hcv : Forall (fun c => validName (cd_Name c)) cds <->
                Forall (fun c => validName (ToLower (Column_Name c))) (Schema_Columns s)).
  { rewrite (Forall_map_iff cd_Name validName), Hcn, <- Forall_map_iff. reflexivity. }
  assert (Hiv : Forall (fun i => validName (id_Name i))
                  (idxDescs ToLower 0 (byNameOf ∅ cds) (Schema_Indexes s)) <->
                Forall (fun i => validName (ToLower (Index_Name (IndexByName_Index i))))
                  (Schema_Indexes s)).
  { rewrite (Forall_map_iff id_Name validName), Hin, <- Forall_map_iff. reflexivity. }
  split.
  - intros [W1 W2 W3 W4 W5 W6 W7 W8 W9 W10 W11 W12]; simpl in *.
    constructor; try tauto.
    + rewrite <- Hcn. exact W5.
    + rewrite <- Hin. exact W9.
    + apply (idxDescs_any_columns cds (Schema_Indexes s) 0%N); tauto.
  - intros [P1 P2 P3 P4 P5 P6 P7 P8].
    constructor; simpl; try tauto.
    + rewrite Hcn. exact P5.
    + rewrite iter_uint32_incr by lia.
      eapply Forall_impl; [exact Hcb |]. simpl. intros; lia.
    + rewrite Hin. exact P7.
    + rewrite iter_uint32_incr by lia.
      eapply Forall_impl; [exact Hib |]. simpl. intros; lia.
    + apply (idxDescs_any_columns cds (Schema_Indexes s) 0%N); tauto.
Qed.

(** X7. The descriptor of a schema validates exactly when the lowercased
    table, column and index names are not empty and have no slash, the
    schema has at least one column and one index, the lowercased column
    names are distinct, the lowercased index names are distinct, and every
    index names at least one column. Whether the columns that the indexes
    name exist plays no part. *)
Theorem converted_descriptor_validates_iff (s : TableSchema) :
  fitsUint32 s ->
  (ValidateTableDesc (TableDescFromSchema ToLower s) = None <-> Accepted ToLower s).
Proof.
  intros Hfit. rewrite ValidateTableDesc_None. apply converted_WellFormed. exact Hfit.
Qed.

Lemma TableSchemaFromDesc_eq d :
  TableSchemaFromDesc d =
  {| Schema_Table := Desc_Table d;
     Schema_Columns := map ColumnDescriptor_Column (Desc_Columns d);
     Schema_Indexes :=
       map (fun index =>
              {| IndexByName_Index := IndexDescriptor_Index index;
                 IndexByName_ColumnNames :=
                   columnNamesOf (byIDOf ∅ (Desc_Columns d))
                     (IndexDescriptor_ColumnIDs index) |}) (Desc_Indexes d) |}.
Proof.
  unfold TableSchemaFromDesc. rewrite schemaColumns_eq, schemaIndexes_eq. reflexivity.
Qed.

Lemma columnNamesOf_known cds ids :
  NoDup (map ColumnDescriptor_ID cds) ->
  Forall (fun id => id ∈ map ColumnDescriptor_ID cds) ids ->
  Forall (fun n => n ∈ map cd_Name cds) (columnNamesOf (byIDOf ∅ cds) ids).
Proof.
  intros Hnd Hids. unfold columnNamesOf. apply Forall_forall. intros n Hn.
  apply list_elem_of_fmap in Hn as (id & -> & Hid).
  rewrite Forall_forall in Hids. specialize (Hids id Hid).
  apply list_elem_of_fmap in Hids as (cd & -> & Hcd).
  rewrite (byIDOf_lookup cds ∅ cd Hnd Hcd). simpl.
  apply list_elem_of_fmap. exists cd. split; [reflexivity | exact Hcd].
Qed.

Lemma extracted_Conforming d :
  WellFormed d -> lowercase ToLower d ->
  Conforming ToLower (TableSchemaFromDesc d) /\ Complete (TableSchemaFromDesc d).
Proof.
  intros [W1 W2 W3 W4 W5 W6 W7 W8 W9 W10 W11 W12] (L1 & L2 & L3).
  rewrite TableSchemaFromDesc_eq.
  assert (Hcn : map Column_Name (map ColumnDescriptor_Column (Desc_Columns d)) =
                map cd_Name (Desc_Columns d)) by (rewrite map_map; reflexivity).
  split; constructor; cbn [Schema_Table Schema_Columns Schema_Indexes].
  - exact L1.
  - apply W1.
  - rewrite <- (Forall_map_iff ColumnDescriptor_Column
                  (fun c => ToLower (Column_Name c) = Column_Name c)). exact L2.
  - rewrite <- (Forall_map_iff ColumnDescriptor_Column
                  (fun c => containsSlash (Column_Name c) = false)).
    eapply Forall_impl; [exact W4 |]. intros c Hc. apply Hc.
  - rewrite <- Forall_map_iff. exact L3.
  - rewrite <- Forall_map_iff. eapply Forall_impl; [exact W8 |]. intros i Hi. apply Hi.
  - rewrite <- Forall_map_iff. cbn [IndexByName_ColumnNames]. rewrite Hcn.
    eapply Forall_impl; [exact W12 |]. intros i [_ Hi]. simpl.
    apply columnNamesOf_known; assumption.
  - apply W1.
  - destruct (Desc_Columns d); simpl; congruence.
  - destruct (Desc_Indexes d); simpl; congruence.
  - rewrite <- (Forall_map_iff ColumnDescriptor_Column (fun c => Column_Name c <> EmptyString)).
    eapply Forall_impl; [exact W4 |]. intros c Hc. apply Hc.
  - rewrite Hcn. exact W5.
  - rewrite <- Forall_map_iff. eapply Forall_impl; [exact W8 |]. intros i Hi. apply Hi.
  - rewrite map_map. exact W9.
  - rewrite <- Forall_map_iff. cbn [IndexByName_ColumnNames].
    eapply Forall_impl; [exact W12 |]. intros i [Hi _]. simpl.
    unfold columnNamesOf. destruct (IndexDescriptor_ColumnIDs i); simpl; congruence.
Qed.

(** X8. The schema of a valid descriptor whose names are in lower case
    converts back to a valid descriptor, and the round trip through that
    descriptor gives the schema again. *)
Theorem valid_descriptor_stays_valid (d : TableDescriptor) :
  ValidateTableDesc d = None -> lowercase ToLower d -> fitsUint32Desc d ->
  ValidateTableDesc (TableDescFromSchema ToLower (TableSchemaFromDesc d)) = None /\
  TableSchemaFromDesc (TableDescFromSchema ToLower (TableSchemaFromDesc d)) =
    TableSchemaFromDesc d.
Proof.
  intros Hv Hl [Hc Hi]. apply ValidateTableDesc_None in Hv.
  destruct (extracted_Conforming d Hv Hl) as [Hconf Hcomp].
  assert (Hfit : fitsUint32 (TableSchemaFromDesc d)).
  { rewrite TableSchemaFromDesc_eq. split; simpl; rewrite length_map; assumption. }
  split.
  - apply ValidateTableDesc_None. apply (desc_WellFormed ToLower); assumption.
  - apply (roundtrip ToLower); [exact Hconf |]. destruct Hfit as [Hf _]. lia.
Qed.

End Conversion.

Lemma conversion_numbers_by_position_witness :
  Desc_NextColumnID (TableDescFromSchema ToLowerASCII fixtures.fooSchema) = 3%N.
Proof.
  apply (conversion_numbers_by_position ToLowerASCII fixtures.fooSchema).
  split; reflexivity.
Defined.

(** A schema whose index names the column B, in upper case: the round
    trip answers with the first column, a. *)
Lemma roundtrip_normalizes_schema_witness :
  TableSchemaFromDesc (TableDescFromSchema ToLowerASCII upperSchema) =
  normalize ToLowerASCII upperSchema.
Proof.
  apply (roundtrip_normalizes_schema ToLowerASCII upperSchema).
  vm_compute. discriminate.
Defined.

Lemma converted_descriptor_passes_id_checks_witness :
  ~ idError (NoIndexes).
Proof.
  apply (converted_descriptor_passes_id_checks ToLowerASCII fixtures.noIndexSchema NoIndexes).
  - split; reflexivity.
  - reflexivity.
Defined.

Lemma byIDOf_last cds : forall (byID : gmap N string) id,
  byIDOf byID cds !! id =
  match last (filter (fun c => ColumnDescriptor_ID c = id) cds) with
  | Some c => Some (cd_Name c)
  | None => byID !! id
  end.
Proof.
  induction cds as [| cd cds IH]; intros byID id; [reflexivity |].
  change (byIDOf byID (cd :: cds))
    with (byIDOf (<[ColumnDescriptor_ID cd := cd_Name cd]> byID) cds).
  rewrite IH, filter_cons.
  destruct (decide (ColumnDescriptor_ID cd = id)) as [<- | Hne].
  - destruct (filter _ cds) as [| c l] eqn:Hf; simpl.
    + apply lookup_insert_eq.
    + rewrite <- Hf. destruct (last (c :: l)) eqn:Hl; [| apply last_None in Hl; discriminate].
      rewrite Hf in *. change (last (cd :: c :: l)) with (last (c :: l)). rewrite Hl.
      reflexivity.
  - destruct (last _); [reflexivity |]. apply lookup_insert_ne. exact Hne.
Qed.

(** X9. What [TableSchemaFromDesc] makes of any descriptor, valid or not:
    the schema has the table of the descriptor, its columns in order, and
    for each index in order the index with, for each of its column IDs,
    the name of the last column of the descriptor with that ID, or the
    empty name when no column has it. *)
Theorem schema_of_any_descriptor (d : TableDescriptor) :
  TableSchemaFromDesc d =
  {| Schema_Table := Desc_Table d;
     Schema_Columns := map ColumnDescriptor_Column (Desc_Columns d);
     Schema_Indexes :=
       map (fun index =>
              {| IndexByName_Index := IndexDescriptor_Index index;
                 IndexByName_ColumnNames :=
                   map (nameOfID (Desc_Columns d)) (IndexDescriptor_ColumnIDs index) |})
           (Desc_Indexes d) |}.
Proof.
  unfold TableSchemaFromDesc. rewrite schemaColumns_eq, schemaIndexes_eq.
  cbn [Schema_Table Schema_Columns Schema_Indexes app]. f_equal.
  apply map_ext. intros index. f_equal. unfold columnNamesOf. apply map_ext.
  intros id. unfold nameOfID. rewrite byIDOf_last, lookup_empty.
  destruct (last _); reflexivity.
Qed.

Lemma fooSchema_Accepted : Accepted ToLowerASCII fixtures.fooSchema.
Proof.
  constructor; simpl; repeat constructor; try discriminate;
    rewrite ?elem_of_cons, ?elem_of_nil; intuition discriminate.
Qed.

Lemma converted_descriptor_validates_iff_witness :
  ValidateTableDesc (TableDescFromSchema ToLowerASCII fixtures.fooSchema) = None.
Proof.
  apply (converted_descriptor_validates_iff ToLowerASCII fixtures.fooSchema).
  - split; reflexivity.
  - exact fooSchema_Accepted.
Defined.

Lemma valid_descriptor_stays_valid_witness :
  ValidateTableDesc
    (TableDescFromSchema ToLowerASCII (TableSchemaFromDesc fooDesc)) = None /\
  TableSchemaFromDesc (TableDescFromSchema ToLowerASCII (TableSchemaFromDesc fooDesc)) =
    TableSchemaFromDesc fooDesc.
Proof.
  apply (valid_descriptor_stays_valid ToLowerASCII fooDesc).
  - reflexivity.
  - repeat split; repeat constructor.
  - split; reflexivity.
Defined.

End schema_facts.

(** ** Further properties of the record/row adapter *)

Module adapter_facts.

Import encoding client client_spec adapter_spec.
Import client_facts batch_facts key_facts scan_facts.

Section Registry.

Context {E : Encoding} {R : GoRuntime} {RL : GoRuntimeLaws R}.

Lemma BindModel_bound db table obj pk :
  is_Some (experimentalModels (fst (BindModel db table obj pk)) !! deref (TypeOf obj)).
Proof.
  unfold BindModel. destruct (experimentalModels db !! deref (TypeOf obj)) eqn:Hl; simpl.
  - rewrite Hl. eauto.
  - rewrite lookup_insert_eq. eauto.
Qed.

(** X10. Bindings are permanent. After [BindModel] the record type is
    bound, whether the call succeeded or not; every binding that was there
    is still there, to the same model; the bindings of the other types are
    as they were; and binding the type once more fails with the
    already-defined error and changes nothing. *)
Theorem bindings_are_permanent (db : DB) (table : string) (obj : Interface)
    (pk : list string) :
  let t := deref (TypeOf obj) in
  let db' := fst (BindModel db table obj pk) in
  is_Some (experimentalModels db' !! t) /\
  (forall t' m, experimentalModels db !! t' = Some m ->
                experimentalModels db' !! t' = Some m) /\
  (forall t', t' <> t -> experimentalModels db' !! t' = experimentalModels db !! t') /\
  (forall table' obj' pk', deref (TypeOf obj') = t ->
     BindModel db' table' obj' pk' = (db', Some (ErrAlreadyDefined table' t))).
Proof.
  intros t db'. split; [apply BindModel_bound |]. split; [| split].
  - intros t' m Hm. unfold db', BindModel. fold t.
    destruct (experimentalModels db !! t) eqn:Hl; simpl; [exact Hm |].
    rewrite lookup_insert_ne; [exact Hm | congruence].
  - intros t' Hne. unfold db', BindModel. fold t.
    destruct (experimentalModels db !! t) eqn:Hl; simpl; [reflexivity |].
    apply lookup_insert_ne. congruence.
  - intros table' obj' pk' Ht.
    destruct (BindModel_bound db table obj pk) as [m Hm]. fold t db' in Hm.
    unfold BindModel at 1. rewrite Ht, Hm. reflexivity.
Qed.

(** X11. A successful [BindModel] registers a model whose other columns
    are the fields of the record type outside the primary key, each once:
    the columns that the row operations use when none is named. *)
Theorem other_columns_are_the_non_key_fields (db db' : DB) (table : string)
    (obj : Interface) (pk : list string) (m : model) :
  BindModel db table obj pk = (db', None) ->
  experimentalModels db' !! deref (TypeOf obj) = Some m ->
  name m = table /\ primaryKey m = pk /\
  NoDup (otherColumns m) /\
  forall col, col ∈ otherColumns m <-> is_Some (fields m !! col) /\ col ∉ pk.
Proof.
  unfold BindModel. destruct (experimentalModels db !! deref (TypeOf obj)); [discriminate |].
  intros [= <-]. simpl. rewrite lookup_insert_eq. intros [= <-]. simpl.
  split; [reflexivity |]. split; [reflexivity |].
  pose proof (rangeKeys_perm (getDBFields (deref (TypeOf obj)))) as Hp.
  split.
  - apply NoDup_filter. rewrite Hp. apply NoDup_fst_map_to_list.
  - intros col. rewrite list_elem_of_filter, Hp, elem_of_list_to_set.
    rewrite list_elem_of_fmap. split.
    + intros [Hpk ([c f] & -> & Hin)]. apply elem_of_map_to_list in Hin.
      simpl. split; [eauto | exact Hpk].
    + intros [[f Hf] Hpk]. split; [exact Hpk |].
      exists (col, f). split; [reflexivity |]. apply elem_of_map_to_list. exact Hf.
Qed.

End Registry.

Lemma other_columns_are_the_non_key_fields_witness :
  NoDup (otherColumns examples.usersModel) /\
  forall col, col ∈ otherColumns examples.usersModel <->
              is_Some (fields examples.usersModel !! col) /\ col ∉ ["id"].
Proof.
  apply (other_columns_are_the_non_key_fields (RL := reference_facts.refRuntime_laws)
           examples.emptyDB examples.usersDB "users"
           (IStruct (zeroStruct examples.UserT)) ["id"] examples.usersModel).
  - reflexivity.
  - vm_compute. reflexivity.
Defined.

Section Keys.

Context {E : Encoding} {EL : EncodingLaws E} {R : GoRuntime} {RL : GoRuntimeLaws R}
        {C : ValueChecksum}.

Lemma encodeTableKey_Err b v err :
  encodeTableKey b v = Err err -> KindOf v = KOther /\ err = ErrEncodeKey v.
Proof.
  destruct v as [[] | | | | | [] | | | | |]; simpl; try discriminate;
    intros [= <-]; split; reflexivity.
Qed.

Lemma encodeTableKey_Ok b v : supported (KindOf v) -> exists key, encodeTableKey b v = Ok key.
Proof.
  destruct v as [[] | | | | | [] | | | | |]; simpl; eauto;
    intros H; exfalso; apply H; reflexivity.
Qed.

Lemma encodePrimaryKeyCols_cases m v cols : forall key,
  match encodePrimaryKeyCols m cols v key with
  | Ok _ =>
      Forall (fun col => exists f, fields m !! col = Some f /\
                                   supported (KindOf (FieldByIndex v f))) cols
  | Err err =>
      exists col, col ∈ cols /\
        ((fields m !! col = None /\ err = ErrNoField (name m) col) \/
         (exists f, fields m !! col = Some f /\ KindOf (FieldByIndex v f) = KOther /\
                    err = ErrEncodeKey (FieldByIndex v f)))
  end.
Proof.
  induction cols as [| col cols IH]; intros key; simpl; [constructor |].
  destruct (fields m !! col) as [f |] eqn:Hf.
  - destruct (encodeTableKey key (FieldByIndex v f)) as [key' | err] eqn:He.
    + specialize (IH key'). destruct (encodePrimaryKeyCols m cols v key') as [k | err].
      * constructor; [| exact IH]. exists f. split; [exact Hf |].
        intros Hk. destruct (FieldByIndex v f); discriminate.
      * destruct IH as (c & Hc & H). exists c. split; [right; exact Hc | exact H].
    + apply encodeTableKey_Err in He as [Hv ->].
      exists col. split; [left |]. right. exists f. auto.
  - exists col. split; [left |]. left. auto.
Qed.

Lemma keyError_not_encodable m v err : keyError m v err -> ~ encodable m v.
Proof.
  intros (col & Hcol & H) Henc. unfold encodable in Henc.
  rewrite Forall_forall in Henc. destruct (Henc col Hcol) as (f & Hf & Hs).
  destruct H as [[Hn _] | (f' & Hf' & Hv & _)]; [congruence |].
  rewrite Hf in Hf'. injection Hf' as <-. rewrite Hv in Hs. apply Hs. reflexivity.
Qed.

Lemma encodePrimaryKey_cases m v :
  match encodePrimaryKey m v with
  | Ok key => encodable m v /\ key = rowPrefix m v
  | Err err => ~ encodable m v /\ keyError m v err
  end.
Proof.
  pose proof (encodePrimaryKeyCols_cases m v (primaryKey m)
                (EncodeBytes [] (list_byte_of_string (name m)))) as H.
  pose proof (encodePrimaryKey_rowPrefix m v) as Hk.
  unfold encodePrimaryKey in *.
  destruct (encodePrimaryKeyCols m (primaryKey m) v _) as [key | err].
  - split; [exact H | apply Hk; reflexivity].
  - split; [apply (keyError_not_encodable m v err) |]; exact H.
Qed.

(** X12. [encodePrimaryKey] succeeds exactly when every primary-key column
    of the model is a field of the record of a supported kind, and the key
    is then the row prefix of the record; otherwise its error is that of a
    primary-key column that is not a field or whose field is of no
    supported kind. *)
Theorem encodePrimaryKey_succeeds_iff_encodable (m : model) (v : StructVal) :
  match encodePrimaryKey m v with
  | Ok key => encodable m v /\ key = rowPrefix m v
  | Err err => ~ encodable m v /\ keyError m v err
  end.
Proof. apply encodePrimaryKey_cases. Qed.

Lemma validPK_encodable m r : validPK m r -> encodable m r.
Proof.
  unfold validPK, encodable. intros H. eapply Forall_impl; [exact H |].
  intros col (f & Hf & Hs & _). eauto.
Qed.

(** X13. The primary key round trip. For a record of the bound type
    whose primary-key fields hold values a key can carry (values of a
    supported kind, no nil byte slice and no [float32] NaN, which the
    conversions to and from [float64] may change), [encodePrimaryKey]
    gives a key, and [decodePrimaryKey] on that key followed by any bytes gives
    those bytes back and leaves a record with the primary-key fields of
    the original and its other fields as they were. *)
Theorem primary_key_round_trip (m : model) (modelT : StructType) (r rec : StructVal)
    (rest : list byte) :
  validPK m r -> typed modelT r -> kindsOf rec = kindsOf r ->
  exists key rec',
    encodePrimaryKey m r = Ok key /\
    decodePrimaryKey m (key ++ rest) rec = Ok (rest, rec') /\
    (forall f, f ∈ pkLocs m -> FieldByIndex rec' f = FieldByIndex r f) /\
    (forall f, f ∉ pkLocs m -> FieldByIndex rec' f = FieldByIndex rec f).
Proof.
  intros Hpk Ht Hk.
  pose proof (encodePrimaryKey_cases m r) as Hc.
  destruct (encodePrimaryKey m r) as [key | err].
  - destruct Hc as [_ ->]. exists (rowPrefix m r), (setFrom r rec (pkLocs m)).
    split; [reflexivity |].
    split; [apply (decodePrimaryKey_rowPrefix m modelT); assumption |]. split.
    + intros f Hf. apply FieldByIndex_setFrom; [exact Hf |].
      assert (Hlen : length (sv_Fields rec) = length (sv_Fields r)).
      { unfold kindsOf in Hk. rewrite <- (length_map KindOf (sv_Fields rec)), Hk.
        apply length_map. }
      rewrite Hlen. apply supported_in_range. apply (pkLocs_elem m r f Hpk Hf).
    + intros f Hf. apply FieldByIndex_setFrom_other. exact Hf.
  - destruct Hc as [Hc _]. exfalso. apply Hc. apply validPK_encodable. exact Hpk.
Qed.

Lemma decodePrimaryKey_other_table m m' r rest rec :
  name m' <> name m ->
  decodePrimaryKey m' (rowPrefix m r ++ rest) rec =
  Err (ErrUnexpectedTable (name m') (list_byte_of_string (name m))).
Proof.
  intros Hne. unfold decodePrimaryKey, rowPrefix.
  rewrite <- app_assoc, DecodeBytes_Encode, string_of_list_byte_of_string.
  rewrite bool_decide_eq_false_2 by congruence. reflexivity.
Qed.

(** X14. [decodePrimaryKey] refuses the keys of another table: on a key
    that starts with the row prefix of a record of a model with another
    table name it fails with the unexpected-table error, whatever
    follows. *)
Theorem decodePrimaryKey_refuses_other_tables (m m' : model) (r rec : StructVal)
    (rest : list byte) :
  name m' <> name m ->
  decodePrimaryKey m' (rowPrefix m r ++ rest) rec =
  Err (ErrUnexpectedTable (name m') (list_byte_of_string (name m))).
Proof. apply decodePrimaryKey_other_table. Qed.

Lemma list_byte_of_string_inj a b :
  list_byte_of_string a = list_byte_of_string b -> a = b.
Proof.
  intros H. rewrite <- (string_of_list_byte_of_string a), H.
  apply string_of_list_byte_of_string.
Qed.

Lemma cellKey_inj m modelT r1 r2 c1 c2 :
  validPK m r1 -> typed modelT r1 -> validPK m r2 -> typed modelT r2 ->
  cellKey m r1 c1 = cellKey m r2 c2 ->
  c1 = c2 /\ forall f, f ∈ pkLocs m -> FieldByIndex r1 f = FieldByIndex r2 f.
Proof.
  intros Hp1 Ht1 Hp2 Ht2 Heq. unfold cellKey in Heq.
  destruct (rowPrefix_unique m modelT r1 r2 _ _ Hp1 Ht1 Hp2 Ht2 Heq) as (Hc & _ & Hf).
  split; [apply list_byte_of_string_inj; exact Hc | exact Hf].
Qed.

Lemma cellKey_table m1 m2 r1 r2 c1 c2 :
  cellKey m1 r1 c1 = cellKey m2 r2 c2 -> name m1 = name m2.
Proof.
  unfold cellKey, rowPrefix. rewrite <- !app_assoc. intros Heq.
  pose proof (DecodeBytes_Encode (list_byte_of_string (name m1))
                (concat (map encode_T (pkValues m1 r1)) ++ list_byte_of_string c1)) as H1.
  rewrite Heq, DecodeBytes_Encode in H1. injection H1 as _ H1.
  symmetry. apply list_byte_of_string_inj. exact H1.
Qed.

(** X15. No two cells share a key. When the keys that [encodePrimaryKey]
    and [encodeColumnKey] build for a column of one record and a column
    of another are equal, the two models have the same table name; and
    within one table, for records of the bound type whose primary-key
    fields hold values a key can carry (no nil byte slice, no [float32]
    NaN), the two columns are the same and the two records have the same
    primary-key fields. *)
Theorem cell_keys_are_unique (m m2 : model) (modelT : StructType) (r1 r2 : StructVal)
    (c1 c2 : string) (k1 k2 : list byte) :
  encodePrimaryKey m r1 = Ok k1 -> encodePrimaryKey m2 r2 = Ok k2 ->
  encodeColumnKey m k1 c1 = encodeColumnKey m2 k2 c2 ->
  name m = name m2 /\
  (m2 = m -> validPK m r1 -> typed modelT r1 -> validPK m r2 -> typed modelT r2 ->
   c1 = c2 /\ forall f, f ∈ pkLocs m -> FieldByIndex r1 f = FieldByIndex r2 f).
Proof.
  intros H1 H2 Heq.
  apply encodePrimaryKey_rowPrefix in H1, H2. subst k1 k2.
  change (cellKey m r1 c1 = cellKey m2 r2 c2) in Heq.
  split; [eapply cellKey_table; exact Heq |].
  intros -> Hp1 Ht1 Hp2 Ht2. eapply cellKey_inj; eassumption.
Qed.

End Keys.

Section Operations.

Context {E : Encoding} {EL : EncodingLaws E} {R : GoRuntime} {RL : GoRuntimeLaws R}
        {C : ValueChecksum}.

Lemma encodeColumnKey_cellKey m v col :
  encodeColumnKey m (rowPrefix m v) col = cellKey m v col.
Proof. reflexivity. Qed.

Lemma marshalTableValue_Ok x :
  supported (KindOf x) -> exists pv, marshalTableValue x = Ok pv.
Proof.
  destruct x as [| | | | | [] | | | | |]; simpl; eauto;
    intros H; exfalso; apply H; reflexivity.
Qed.

Lemma PutStruct_calls_exact m v cols : forall calls,
  storable m v cols ->
  PutStruct_calls m v (rowPrefix m v) cols calls = Ok (calls ++ map (putCall m v) cols).
Proof.
  induction cols as [| col cols IH]; intros calls Hs; simpl.
  - rewrite app_nil_r. reflexivity.
  - apply Forall_cons in Hs as [(f & Hf & Hk) Hs]. rewrite Hf.
    destruct (marshalTableValue_Ok _ Hk) as (pv & Hpv). rewrite Hpv.
    rewrite IH by exact Hs. rewrite <- app_assoc. do 3 f_equal.
    unfold putCall, cellValue. cbn [fst snd]. rewrite Hf, Hpv. reflexivity.
Qed.

(** X16. [PutStruct] on a record of a bound type whose primary key can be
    encoded, with columns that are fields of a supported kind, enqueues
    exactly one Put per column, in the order of the columns (those of the
    model outside the primary key when none is named): the key is the
    key of the cell, the value is the marshalled field with its checksum,
    and the entry of the operation counts these calls. A record and a
    pointer to it are treated alike. *)
Theorem PutStruct_enqueues_one_put_per_column (b : Batch) (obj : Interface)
    (columns : list string) (m : model) :
  experimentalModels (Batch_DB b) !! sv_Type (Indirect obj) = Some m ->
  encodable m (Indirect obj) -> storable m (Indirect obj) (columnsOf m columns) ->
  PutStruct b obj columns =
  withCalls b (map (putCall m (Indirect obj)) (columnsOf m columns))
            (length (columnsOf m columns)).
Proof.
  intros Hm Henc Hs. unfold PutStruct, getModel. cbn [andb deref]. rewrite Hm.
  pose proof (encodePrimaryKey_cases m (Indirect obj)) as Hc.
  destruct (encodePrimaryKey m (Indirect obj)) as [key | err]; [| tauto].
  destruct Hc as [_ ->]. fold (columnsOf m columns).
  rewrite PutStruct_calls_exact by exact Hs.
  unfold withCalls, initResult, appendCalls. simpl. rewrite !length_map. reflexivity.
Qed.

Lemma DelStruct_calls_exact m v cols : forall calls,
  Forall (fun col => is_Some (fields m !! col)) cols ->
  DelStruct_calls m (rowPrefix m v) cols calls =
  Ok (calls ++ map (fun col => Delete (cellKey m v col)) cols).
Proof.
  induction cols as [| col cols IH]; intros calls Hs; simpl.
  - rewrite app_nil_r. reflexivity.
  - apply Forall_cons in Hs as [[f Hf] Hs]. rewrite Hf.
    rewrite IH by exact Hs. rewrite <- app_assoc. reflexivity.
Qed.

(** X17. [DelStruct] on a record of a bound type whose primary key can be
    encoded, with columns that are fields, enqueues exactly one Delete
    per column, on the key of the cell, in the order of the columns.
    When no column is named these are the columns outside the primary
    key, whatever the kinds of their fields. *)
Theorem DelStruct_enqueues_one_delete_per_column (b : Batch) (obj : Interface)
    (columns : list string) (m : model) :
  experimentalModels (Batch_DB b) !! sv_Type (Indirect obj) = Some m ->
  encodable m (Indirect obj) ->
  Forall (fun col => is_Some (fields m !! col)) (columnsOf m columns) ->
  DelStruct b obj columns =
  withCalls b (map (fun col => Delete (cellKey m (Indirect obj) col)) (columnsOf m columns))
            (length (columnsOf m columns)).
Proof.
  intros Hm Henc Hs. unfold DelStruct, getModel. cbn [andb deref]. rewrite Hm.
  pose proof (encodePrimaryKey_cases m (Indirect obj)) as Hc.
  destruct (encodePrimaryKey m (Indirect obj)) as [key | err]; [| tauto].
  destruct Hc as [_ ->]. fold (columnsOf m columns).
  rewrite DelStruct_calls_exact by exact Hs.
  unfold withCalls, initResult, appendCalls. simpl. rewrite !length_map. reflexivity.
Qed.

Lemma GetStruct_calls_exact m obj v cols : forall calls,
  Forall (fun col => is_Some (fields m !! col)) cols ->
  exists new,
    GetStruct_calls m obj (rowPrefix m v) cols calls = Ok (calls ++ new) /\
    Forall2 (fun col c =>
               Call_Args c = GetRequest (cellKey m v col) /\
               exists f, fields m !! col = Some f /\
                         Call_Post c = Some (GetStruct_Post obj f)) cols new.
Proof.
  induction cols as [| col cols IH]; intros calls Hs; simpl.
  - exists []. rewrite app_nil_r. split; [reflexivity | constructor].
  - apply Forall_cons in Hs as [[f Hf] Hs]. rewrite Hf.
    edestruct IH as (new & Heq & Hnew); [exact Hs |]. rewrite Heq.
    eexists (_ :: new). rewrite <- app_assoc. split; [reflexivity |].
    constructor; [| exact Hnew]. split; [reflexivity |]. eauto.
Qed.

(** X18. [GetStruct] on a pointer to a record of a bound type whose
    primary key can be encoded, with columns that are fields, enqueues
    exactly one Get per column, on the key of the cell, in the order of
    the columns (those outside the primary key when none is named), each
    with the post-reply decoder of its field. *)
Theorem GetStruct_enqueues_one_get_per_column (b : Batch) (l : loc) (s : StructVal)
    (columns : list string) (m : model) :
  experimentalModels (Batch_DB b) !! sv_Type s = Some m ->
  encodable m s ->
  Forall (fun col => is_Some (fields m !! col)) (columnsOf m columns) ->
  exists new,
    GetStruct b (IPtr l s) columns = withCalls b new (length new) /\
    Forall2 (fun col c =>
               Call_Args c = GetRequest (cellKey m s col) /\
               exists f, fields m !! col = Some f /\
                         Call_Post c = Some (GetStruct_Post (IPtr l s) f))
            (columnsOf m columns) new.
Proof.
  intros Hm Henc Hs. unfold GetStruct, getModel. cbn [andb deref TypeOf isPtr negb Indirect].
  rewrite Hm.
  pose proof (encodePrimaryKey_cases m s) as Hc.
  destruct (encodePrimaryKey m s) as [key | err]; [| tauto].
  destruct Hc as [_ ->]. fold (columnsOf m columns).
  destruct (GetStruct_calls_exact m (IPtr l s) s (columnsOf m columns) [] Hs)
    as (new & -> & Hnew).
  exists new. split; [reflexivity | exact Hnew].
Qed.

End Operations.

Section Values.

Context {E : Encoding} {R : GoRuntime} {RL : GoRuntimeLaws R} {C : ValueChecksum}.

Lemma wrap_signed_range w x :
  (0 < w)%Z -> (- 2 ^ (w - 1) <= wrap_signed w x < 2 ^ (w - 1))%Z.
Proof.
  intros Hw. unfold wrap_signed.
  assert (H2 : (2 ^ w = 2 * 2 ^ (w - 1))%Z).
  { rewrite <- Z.pow_succ_r by lia. f_equal. lia. }
  assert (Hp : (0 < 2 ^ (w - 1))%Z) by (apply Z.pow_pos_nonneg; lia).
  pose proof (Z.mod_pos_bound (x + 2 ^ (w - 1)) (2 ^ w)) as Hm. lia.
Qed.

Lemma wrap_unsigned_range w x : (0 <= w)%Z -> (0 <= wrap_unsigned w x < 2 ^ w)%Z.
Proof.
  intros Hw. unfold wrap_unsigned. apply Z.mod_pos_bound. apply Z.pow_pos_nonneg; lia.
Qed.

Lemma inRange_Zero k : inRange (Zero k).
Proof.
  destruct k as [| w | w | | | |  |]; simpl; try exact I; try lia.
  - pose proof (bits_pos w).
    assert (0 < 2 ^ (bits w - 1))%Z by (apply Z.pow_pos_nonneg; lia). lia.
  - pose proof (bits_pos w).
    assert (0 < 2 ^ bits w)%Z by (apply Z.pow_pos_nonneg; lia). lia.
Qed.

(** X19. [unmarshalTableValue] never changes the type of the field: what
    it stores is of the kind of the destination, and outside [float32]
    fields it fits the type, an integer payload being truncated to the
    width of the field. *)
Theorem unmarshal_keeps_the_field_type (src : option Value) (dest x : FieldValue) :
  unmarshalTableValue src dest = Ok x ->
  KindOf x = KindOf dest /\ (KindOf dest <> KFloat32 -> inRange x).
Proof.
  destruct src as [src |]; simpl.
  - destruct dest as [b | w i | w u | f | f | [] s | t | [] | z out | z out |]; simpl;
      destruct (Value_Integer src) as [i' |] eqn:Hi;
      destruct (Value_Bytes src) as [bs |] eqn:Hb;
      intros [= <-]; (split; [reflexivity |]); intros Hk; simpl; try exact I;
      try congruence;
      try (apply wrap_signed_range; apply bits_pos);
      try (apply wrap_unsigned_range; pose proof (bits_pos w); lia);
      try (apply wrap_unsigned_range; lia).
  - intros [= <-]. split; [destruct dest; reflexivity |]. intros _.
    destruct dest; try exact I; apply (inRange_Zero (KindOf _)).
Qed.

(** X20. [marshalTableValue] fails exactly on the fields that cannot be
    marshalled: those of a type without a case, with the marshal error,
    and those whose serialization method fails, with the error of the
    method. A value it returns never carries both payloads and has no
    checksum yet: a string or byte-slice field gives no integer payload;
    a bool, integer or float field gives an integer payload and no byte
    payload, and the integer is within [int64] when the field content
    fits its type; a nil interface gives no payload at all. *)
Theorem marshal_gives_one_payload (v : FieldValue) :
  match marshalTableValue v with
  | Ok pv =>
      marshals v /\ Value_Checksum pv = None /\
      (Value_Bytes pv = None \/ Value_Integer pv = None) /\
      (textKind (KindOf v) -> Value_Integer pv = None) /\
      (numericKind (KindOf v) -> Value_Bytes pv = None /\ is_Some (Value_Integer pv)) /\
      (inRange v -> forall i, Value_Integer pv = Some i -> int64_range i) /\
      (forall i, v = VNil i -> Value_Bytes pv = None /\ Value_Integer pv = None)
  | Err err =>
      ~ marshals v /\
      match v with
      | VMessage _ (MarshalFailed msg) | VBinaryMarshaler _ (MarshalFailed msg) =>
          err = ErrSerialize msg
      | _ => err = ErrMarshal v
      end
  end.
Proof.
  assert (H64 : forall x, int64_range (wrap_signed 64 x))
    by (intros x; apply (wrap_signed_range 64 x); lia).
  destruct v as [[] | w i | w u | f | f | [] s | t | i | z [data | msg] | z [data | msg] |];
    simpl; try (split; [tauto | reflexivity]);
    (split; [exact I |]); (split; [reflexivity |]);
    (split; [auto |]); (split; [simpl; try tauto; auto |]);
    (split; [simpl; try tauto; eauto |]);
    (split; [| intros i0 Hv; try discriminate Hv; split; reflexivity]);
    intros Hr i' Hi'; try discriminate; injection Hi' as <-;
    try apply H64; unfold int64_range; try lia.
  pose proof (bits_pos w).
  assert (2 ^ (bits w - 1) <= 2 ^ 63)%Z by (apply Z.pow_le_mono_r; lia). lia.
Qed.

End Values.

Section Decoders.

Context {E : Encoding} {EL : EncodingLaws E} {R : GoRuntime} {RL : GoRuntimeLaws R}
        {C : ValueChecksum}.

Lemma GetStruct_Post_missing l s f h cur :
  h !! l = Some (HStruct cur) ->
  GetStruct_Post (IPtr l s) f (GetResponse None) h =
  Ok (<[l := HStruct (SetFieldByIndex cur f (ZeroOf (FieldByIndex cur f)))]> h).
Proof. intros Hl. unfold GetStruct_Post, storeField. rewrite Hl. reflexivity. Qed.

Lemma GetStruct_Post_cell l s f h cur m modelT v col :
  h !! l = Some (HStruct cur) ->
  typed modelT v -> fields m !! col = Some f ->
  supported (KindOf (FieldByIndex v f)) ->
  KindOf (FieldByIndex cur f) = KindOf (FieldByIndex v f) ->
  GetStruct_Post (IPtr l s) f (GetResponse (Some (cellValue m (v, col)))) h =
  Ok (<[l := HStruct (SetFieldByIndex cur f (converted (FieldByIndex v f)))]> h).
Proof.
  intros Hl Ht Hf Hs Hk. unfold GetStruct_Post, storeField. rewrite Hl.
  unfold cellValue. cbn [fst snd]. rewrite Hf.
  destruct (marshal_unmarshal_converted (FieldByIndex v f) (FieldByIndex cur f))
    as (pv & Hm & Hu); [eapply typed_inRange; exact Ht | exact Hs | exact Hk |].
  rewrite Hm, unmarshal_InitChecksum, Hu. reflexivity.
Qed.

(** X21. The post-reply decoder of [GetStruct] writes one field of the
    record behind the pointer and nothing else. When the reply holds no
    value, because the cell is missing, the field is reset to the zero
    value of its type; when it holds the value that [PutStruct] writes for
    a cell of a record, the field takes the content of the field that was
    put, after the conversion of the write and the read: the content
    itself, unless it is a [float32] NaN. *)
Theorem GetStruct_decoder_restores_or_resets (l : loc) (s cur : StructVal) (f : nat)
    (h : Heap) :
  h !! l = Some (HStruct cur) ->
  GetStruct_Post (IPtr l s) f (GetResponse None) h =
    Ok (<[l := HStruct (SetFieldByIndex cur f (ZeroOf (FieldByIndex cur f)))]> h) /\
  (forall m modelT v col,
     typed modelT v -> fields m !! col = Some f ->
     supported (KindOf (FieldByIndex v f)) ->
     KindOf (FieldByIndex cur f) = KindOf (FieldByIndex v f) ->
     GetStruct_Post (IPtr l s) f (GetResponse (Some (cellValue m (v, col)))) h =
       Ok (<[l := HStruct (SetFieldByIndex cur f (converted (FieldByIndex v f)))]> h) /\
     (notNaN32 (FieldByIndex v f) -> converted (FieldByIndex v f) = FieldByIndex v f)).
Proof.
  intros Hl. split; [apply GetStruct_Post_missing; exact Hl |].
  intros m modelT v col Ht Hf Hs Hk.
  split; [apply (GetStruct_Post_cell l s f h cur m modelT); assumption |].
  apply converted_exact. eapply typed_inRange. exact Ht.
Qed.

Lemma IncStruct_exact b l s value column m f :
  experimentalModels (Batch_DB b) !! sv_Type s = Some m ->
  encodable m s -> fields m !! column = Some f ->
  IncStruct b (IPtr l s) value column =
  withCalls b [{| Call_Args := IncrementRequest (cellKey m s column) value;
                  Call_Post := Some (IncStruct_Post (IPtr l s) f) |}] 1.
Proof.
  intros Hm Henc Hf. unfold IncStruct, getModel.
  cbn [andb deref TypeOf isPtr negb Indirect]. rewrite Hm.
  pose proof (encodePrimaryKey_cases m s) as Hc.
  destruct (encodePrimaryKey m s) as [key | err]; [| tauto].
  destruct Hc as [_ ->]. rewrite Hf. reflexivity.
Qed.

Lemma IncStruct_Post_int l s f h cur w i newValue :
  h !! l = Some (HStruct cur) -> FieldByIndex cur f = VInt w i ->
  IncStruct_Post (IPtr l s) f (IncrementResponse newValue) h =
  Ok (<[l := HStruct (SetFieldByIndex cur f (VInt w (wrap_signed (bits w) newValue)))]> h).
Proof.
  intros Hl Hf. unfold IncStruct_Post, storeField. rewrite Hl, Hf. reflexivity.
Qed.

Lemma IncStruct_Post_text l s f h cur newValue :
  h !! l = Some (HStruct cur) -> textKind (KindOf (FieldByIndex cur f)) ->
  IncStruct_Post (IPtr l s) f (IncrementResponse newValue) h =
  Err (ErrUnmarshalInteger (FieldByIndex cur f)).
Proof.
  intros Hl Hk. unfold IncStruct_Post, storeField. rewrite Hl.
  rewrite unmarshal_integer_into_text; [reflexivity | | exact Hk].
  unfold integerPayload. simpl. discriminate.
Qed.

(** X22. [IncStruct] on a pointer to a record of a bound type whose
    primary key can be encoded enqueues one Increment on the key of the
    cell of the column, whatever the kind of the field. Its post-reply
    decoder stores the new value in an integer field, truncated to the
    width of the field, and fails with the integer-value error on a
    string or byte-slice field: that a column cannot be incremented is
    only found when the reply is decoded. *)
Theorem IncStruct_enqueues_one_increment (b : Batch) (l : loc) (s : StructVal)
    (value : Z) (column : string) (m : model) (f : nat) :
  experimentalModels (Batch_DB b) !! sv_Type s = Some m ->
  encodable m s -> fields m !! column = Some f ->
  IncStruct b (IPtr l s) value column =
    withCalls b [{| Call_Args := IncrementRequest (cellKey m s column) value;
                    Call_Post := Some (IncStruct_Post (IPtr l s) f) |}] 1 /\
  (forall h cur newValue,
     h !! l = Some (HStruct cur) ->
     (forall w i, FieldByIndex cur f = VInt w i ->
        IncStruct_Post (IPtr l s) f (IncrementResponse newValue) h =
        Ok (<[l := HStruct (SetFieldByIndex cur f
                              (VInt w (wrap_signed (bits w) newValue)))]> h)) /\
     (textKind (KindOf (FieldByIndex cur f)) ->
        IncStruct_Post (IPtr l s) f (IncrementResponse newValue) h =
        Err (ErrUnmarshalInteger (FieldByIndex cur f)))).
Proof.
  intros Hm Henc Hf. split; [apply IncStruct_exact; assumption |].
  intros h cur newValue Hl. split.
  - intros w i. apply IncStruct_Post_int. exact Hl.
  - apply IncStruct_Post_text. exact Hl.
Qed.

Lemma ScanStruct_exact b l elem start end_ maxRows columns m :
  experimentalModels (Batch_DB b) !! deref elem = Some m ->
  sv_Type (Indirect start) = deref elem -> sv_Type (Indirect end_) = deref elem ->
  encodable m (Indirect start) -> encodable m (Indirect end_) ->
  ScanStruct b (DSlicePtr l elem) start end_ maxRows columns =
  withCalls b
    [{| Call_Args := ScanRequest (rowPrefix m (Indirect start))
                       (rowPrefix m (Indirect end_)) maxRows;
        Call_Post := Some (ScanStruct_Post m l (deref elem) (isPtr elem) columns) |}] 0.
Proof.
  intros Hm Hs He Hes Hee. unfold ScanStruct, getModel. cbn [andb deref]. rewrite Hm.
  rewrite Hs, He, bool_decide_eq_true_2 by reflexivity. cbn [negb].
  pose proof (encodePrimaryKey_cases m (Indirect start)) as Hc1.
  destruct (encodePrimaryKey m (Indirect start)) as [k1 | err]; [| tauto].
  pose proof (encodePrimaryKey_cases m (Indirect end_)) as Hc2.
  destruct (encodePrimaryKey m (Indirect end_)) as [k2 | err]; [| tauto].
  destruct Hc1 as [_ ->], Hc2 as [_ ->]. reflexivity.
Qed.

Lemma ScanStruct_start_type b l elem start end_ maxRows columns m :
  experimentalModels (Batch_DB b) !! deref elem = Some m ->
  sv_Type (Indirect start) <> deref elem ->
  ScanStruct b (DSlicePtr l elem) start end_ maxRows columns =
  initResult b 0 0 (Some (ErrStartKeyType (deref elem) (sv_Type (Indirect start)))).
Proof.
  intros Hm Hs. unfold ScanStruct, getModel. cbn [andb deref]. rewrite Hm.
  rewrite bool_decide_eq_false_2 by congruence. reflexivity.
Qed.

Lemma ScanStruct_end_type b l elem start end_ maxRows columns m :
  experimentalModels (Batch_DB b) !! deref elem = Some m ->
  sv_Type (Indirect start) = deref elem -> sv_Type (Indirect end_) <> deref elem ->
  ScanStruct b (DSlicePtr l elem) start end_ maxRows columns =
  initResult b 0 0 (Some (ErrEndKeyType (deref elem) (sv_Type (Indirect end_)))).
Proof.
  intros Hm Hs He. unfold ScanStruct, getModel. cbn [andb deref]. rewrite Hm.
  rewrite (bool_decide_eq_true_2 (deref elem = sv_Type (Indirect start))) by congruence.
  cbn [negb]. rewrite bool_decide_eq_false_2 by congruence. reflexivity.
Qed.

(** X23. [ScanStruct] into a slice of a bound record type checks the type
    of the start record, then that of the end record, and fails its setup
    with the start-key or end-key type error when one is not the element
    type. When both are, and their primary keys can be encoded, it
    enqueues one Scan from the row prefix of the start record to the row
    prefix of the end record with the row limit given, and its entry
    counts one call and no row. The column list is not looked at during
    the setup. *)
Theorem ScanStruct_enqueues_one_scan (b : Batch) (l : loc) (elem : Type_)
    (start end_ : Interface) (maxRows : Z) (columns : list string) (m : model) :
  experimentalModels (Batch_DB b) !! deref elem = Some m ->
  (sv_Type (Indirect start) <> deref elem ->
   ScanStruct b (DSlicePtr l elem) start end_ maxRows columns =
   initResult b 0 0 (Some (ErrStartKeyType (deref elem) (sv_Type (Indirect start))))) /\
  (sv_Type (Indirect start) = deref elem -> sv_Type (Indirect end_) <> deref elem ->
   ScanStruct b (DSlicePtr l elem) start end_ maxRows columns =
   initResult b 0 0 (Some (ErrEndKeyType (deref elem) (sv_Type (Indirect end_))))) /\
  (sv_Type (Indirect start) = deref elem -> sv_Type (Indirect end_) = deref elem ->
   encodable m (Indirect start) -> encodable m (Indirect end_) ->
   ScanStruct b (DSlicePtr l elem) start end_ maxRows columns =
   withCalls b
     [{| Call_Args := ScanRequest (rowPrefix m (Indirect start))
                        (rowPrefix m (Indirect end_)) maxRows;
         Call_Post := Some (ScanStruct_Post m l (deref elem) (isPtr elem) columns) |}] 0).
Proof.
  intros Hm. split; [| split].
  - intros Hs. eapply ScanStruct_start_type; eassumption.
  - intros Hs He. eapply ScanStruct_end_type; eassumption.
  - apply ScanStruct_exact. exact Hm.
Qed.

Lemma ScanStruct_Post_other_table m m' l modelT ptrResults columns r x v rest h old :
  name m' <> name m -> h !! l = Some (HSlice old) ->
  ScanStruct_Post m l modelT ptrResults columns
    (ScanResponse ({| KeyValue_Key := rowPrefix m' r ++ x; KeyValue_Value := v |} :: rest)) h =
  Err (ErrUnexpectedTable (name m) (list_byte_of_string (name m'))).
Proof.
  intros Hne Hl. unfold ScanStruct_Post. cbn [length Nat.eqb]. rewrite Hl.
  cbn [ScanStruct_rows ScanStruct_flush]. unfold ScanStruct_cell. cbn [KeyValue_Key].
  rewrite decodePrimaryKey_other_table by congruence. reflexivity.
Qed.

Lemma ScanStruct_cell_unknown m modelT columns r col v :
  validPK m r -> typed modelT r -> fields m !! col = None ->
  ScanStruct_cell m (scanColsOf columns)
    {| KeyValue_Key := cellKey m r col; KeyValue_Value := v |} (zeroStruct modelT) =
  if requested columns col then Err (ErrNoField (name m) col)
  else Ok (Some (rowPrefix m r), pkRecord m modelT r).
Proof.
  intros Hpk Ht Hf. unfold ScanStruct_cell. cbn [KeyValue_Key KeyValue_Value]. unfold cellKey.
  rewrite (decodePrimaryKey_rowPrefix m modelT r (zeroStruct modelT)); [| assumption ..|].
  - rewrite string_of_list_byte_of_string, skip_requested.
    destruct (requested columns col); cbn [negb].
    + rewrite Hf. reflexivity.
    + rewrite length_app, Nat.add_sub, take_app_length, pkRecord_setFrom. reflexivity.
  - rewrite kindsOf_zeroStruct. symmetry. apply (typed_kindsOf modelT r Ht).
Qed.

(** X24. The post-reply decoder of [ScanStruct] gives up on the first
    pair it cannot place. With a destination that holds a slice, a reply
    whose first pair has a key of a table with another name fails with
    the unexpected-table error; a reply whose first pair is in a column
    that is not a field of the model fails with the no-field error when
    the column is among those asked for (or none is named); and when it
    is not asked for the pair only contributes its row: a reply of that
    one pair appends the record with the primary key of the row and zero
    values elsewhere. The row is that of a record of the bound type whose
    primary-key fields hold values a key can carry: no nil byte slice and
    no [float32] NaN. *)
Theorem ScanStruct_decoder_rejects_foreign_pairs (m : model) (l : loc)
    (modelT : StructType) (ptrResults : bool) (columns : list string) (r : StructVal)
    (v : Value) (rest : list KeyValue) (h : Heap) (old : list StructVal) :
  h !! l = Some (HSlice old) ->
  (forall m' x,
     name m' <> name m ->
     ScanStruct_Post m l modelT ptrResults columns
       (ScanResponse ({| KeyValue_Key := rowPrefix m' r ++ x; KeyValue_Value := v |} :: rest)) h =
     Err (ErrUnexpectedTable (name m) (list_byte_of_string (name m')))) /\
  (forall col,
     validPK m r -> typed modelT r -> fields m !! col = None ->
     (requested columns col = true ->
      ScanStruct_Post m l modelT ptrResults columns
        (ScanResponse ({| KeyValue_Key := cellKey m r col; KeyValue_Value := v |} :: rest)) h =
      Err (ErrNoField (name m) col)) /\
     (requested columns col = false ->
      ScanStruct_Post m l modelT ptrResults columns
        (ScanResponse [{| KeyValue_Key := cellKey m r col; KeyValue_Value := v |}]) h =
      Ok (<[l := HSlice (old ++ [pkRecord m modelT r])]> h))).
Proof.
  intros Hl. split.
  - intros m' x Hne. eapply ScanStruct_Post_other_table; eassumption.
  - intros col Hpk Ht Hf.
    pose proof (ScanStruct_cell_unknown m modelT columns r col v Hpk Ht Hf) as Hcell.
    split; intros Hreq; rewrite Hreq in Hcell;
      unfold ScanStruct_Post; cbn [length Nat.eqb]; rewrite Hl;
      fold (scanColsOf columns); cbn [ScanStruct_rows ScanStruct_flush];
      rewrite Hcell; reflexivity.
Qed.

Lemma applyOp_DB b op : Batch_DB (applyOp b op) = Batch_DB b.
Proof.
  destruct op; simpl;
    unfold GetStruct, PutStruct, IncStruct, ScanStruct, DelStruct;
    repeat case_match; reflexivity.
Qed.

Lemma list_sum_snoc l x : list_sum (l ++ [x]) = list_sum l + x.
Proof. rewrite list_sum_app. simpl. lia. Qed.

Lemma applyOp_accounted b op : accounted b -> accounted (applyOp b op).
Proof.
  unfold accounted. intros Hb.
  destruct (applyOp_outcome b op) as [(err & Hc & Hr) | (calls & Hc & n & Hr)];
    rewrite Hc, Hr, map_app; cbn [map]; rewrite list_sum_snoc; cbn [Result_calls].
  - lia.
  - rewrite length_app. lia.
Qed.

(** X25. The bookkeeping of a batch. Whatever row operations are applied
    to a batch, in whatever order, and whether their setups fail or not:
    the client of the batch stays the same, the calls that were enqueued
    stay in place at the front, every operation adds exactly one entry,
    and if the numbers of calls recorded by the entries added up to the
    number of calls before, they still do. *)
Theorem batch_bookkeeping (b : Batch) (ops : list RowOp) :
  Batch_DB (foldl applyOp b ops) = Batch_DB b /\
  (exists new, Batch_calls (foldl applyOp b ops) = Batch_calls b ++ new) /\
  length (Batch_Results (foldl applyOp b ops)) = length (Batch_Results b) + length ops /\
  (accounted b -> accounted (foldl applyOp b ops)).
Proof.
  revert b. induction ops as [| op ops IH]; intros b; simpl.
  - split; [reflexivity |]. split; [exists []; rewrite app_nil_r; reflexivity |].
    split; [lia | auto].
  - destruct (IH (applyOp b op)) as (Hdb & (new & Hnew) & Hlen & Hacc).
    split; [rewrite Hdb; apply applyOp_DB |]. split; [| split].
    + destruct (applyOp_outcome b op) as [(err & Hc & _) | (calls & Hc & _)];
        rewrite Hnew, Hc; [eauto |]. rewrite <- app_assoc. eauto.
    + rewrite Hlen.
      destruct (applyOp_outcome b op) as [(err & _ & Hr) | (calls & _ & n & Hr)];
        rewrite Hr, length_app; simpl; lia.
    + intros Hb. apply Hacc, applyOp_accounted, Hb.
Qed.

End Decoders.

(** *** The properties on the users table, with the reference codec *)

Lemma ada_validPK : validPK examples.usersModel examples.ada.
Proof.
  repeat constructor. exists 0. split; [reflexivity |].
  repeat split; first [discriminate | exact I].
Qed.

Lemma ada_typed : typed examples.UserT examples.ada.
Proof. repeat split; repeat constructor. Qed.

Lemma ada_encodable : encodable examples.usersModel examples.ada.
Proof.
  repeat constructor. exists 0. split; [reflexivity | discriminate].
Qed.

Lemma ada_storable :
  storable examples.usersModel examples.ada (columnsOf examples.usersModel []).
Proof.
  vm_compute. repeat constructor; eexists; (split; [reflexivity | discriminate]).
Qed.

Lemma users_columns :
  Forall (fun col => is_Some (fields examples.usersModel !! col))
         (columnsOf examples.usersModel []).
Proof. vm_compute. repeat constructor; eexists; reflexivity. Qed.

Lemma usersDB_users :
  experimentalModels examples.usersDB !! examples.UserT = Some examples.usersModel.
Proof. vm_compute. reflexivity. Qed.

Lemma encodePrimaryKey_succeeds_iff_encodable_witness :
  match encodePrimaryKey examples.usersModel examples.ada with
  | Ok key => encodable examples.usersModel examples.ada /\
              key = rowPrefix examples.usersModel examples.ada
  | Err err => ~ encodable examples.usersModel examples.ada /\
               keyError examples.usersModel examples.ada err
  end.
Proof.
  apply (encodePrimaryKey_succeeds_iff_encodable (EL := reference_facts.refEncoding_laws)
           examples.usersModel examples.ada).
Defined.

Lemma primary_key_round_trip_witness :
  exists key rec',
    encodePrimaryKey examples.usersModel examples.ada = Ok key /\
    decodePrimaryKey examples.usersModel (key ++ list_byte_of_string "name")
      (zeroStruct examples.UserT) = Ok (list_byte_of_string "name", rec') /\
    (forall f, f ∈ pkLocs examples.usersModel ->
               FieldByIndex rec' f = FieldByIndex examples.ada f) /\
    (forall f, f ∉ pkLocs examples.usersModel ->
               FieldByIndex rec' f = FieldByIndex (zeroStruct examples.UserT) f).
Proof.
  apply (primary_key_round_trip (EL := reference_facts.refEncoding_laws)
           (RL := reference_facts.refRuntime_laws)
           examples.usersModel examples.UserT examples.ada (zeroStruct examples.UserT)
           (list_byte_of_string "name") ada_validPK ada_typed).
  reflexivity.
Defined.

Lemma decodePrimaryKey_refuses_other_tables_witness :
  decodePrimaryKey groupsModel
    (rowPrefix examples.usersModel examples.ada ++ list_byte_of_string "name")
    (zeroStruct examples.UserT) =
  Err (ErrUnexpectedTable "groups" (list_byte_of_string "users")).
Proof.
  apply (decodePrimaryKey_refuses_other_tables (EL := reference_facts.refEncoding_laws)
           examples.usersModel groupsModel examples.ada (zeroStruct examples.UserT)
           (list_byte_of_string "name")).
  discriminate.
Defined.

Lemma cell_keys_are_unique_witness :
  name examples.usersModel = name examples.usersModel /\
  (examples.usersModel = examples.usersModel ->
   validPK examples.usersModel examples.ada -> typed examples.UserT examples.ada ->
   validPK examples.usersModel examples.only42 -> typed examples.UserT examples.only42 ->
   "name" = "name" /\
   forall f, f ∈ pkLocs examples.usersModel ->
             FieldByIndex examples.ada f = FieldByIndex examples.only42 f).
Proof.
  apply (cell_keys_are_unique (EL := reference_facts.refEncoding_laws)
           (RL := reference_facts.refRuntime_laws)
           examples.usersModel examples.usersModel examples.UserT
           examples.ada examples.only42 "name" "name"
           examples.usersPK examples.usersPK).
  - reflexivity.
  - reflexivity.
  - reflexivity.
Defined.

Lemma PutStruct_enqueues_one_put_per_column_witness :
  PutStruct (NewBatch examples.usersDB) (IStruct examples.ada) [] =
  withCalls (NewBatch examples.usersDB)
    (map (putCall examples.usersModel examples.ada) (columnsOf examples.usersModel []))
    (length (columnsOf examples.usersModel [])).
Proof.
  apply (PutStruct_enqueues_one_put_per_column (EL := reference_facts.refEncoding_laws)
           (NewBatch examples.usersDB) (IStruct examples.ada) [] examples.usersModel
           usersDB_users ada_encodable ada_storable).
Defined.

Lemma DelStruct_enqueues_one_delete_per_column_witness :
  DelStruct (NewBatch examples.usersDB) (IStruct examples.ada) [] =
  withCalls (NewBatch examples.usersDB)
    (map (fun col => Delete (cellKey examples.usersModel examples.ada col))
         (columnsOf examples.usersModel []))
    (length (columnsOf examples.usersModel [])).
Proof.
  apply (DelStruct_enqueues_one_delete_per_column (EL := reference_facts.refEncoding_laws)
           (NewBatch examples.usersDB) (IStruct examples.ada) [] examples.usersModel
           usersDB_users ada_encodable users_columns).
Defined.

Lemma GetStruct_enqueues_one_get_per_column_witness :
  exists new,
    GetStruct (NewBatch examples.usersDB) (IPtr 0 examples.ada) [] =
      withCalls (NewBatch examples.usersDB) new (length new) /\
    Forall2 (fun col c =>
               Call_Args c = GetRequest (cellKey examples.usersModel examples.ada col) /\
               exists f, fields examples.usersModel !! col = Some f /\
                         Call_Post c = Some (GetStruct_Post (IPtr 0 examples.ada) f))
            (columnsOf examples.usersModel []) new.
Proof.
  apply (GetStruct_enqueues_one_get_per_column (EL := reference_facts.refEncoding_laws)
           (NewBatch examples.usersDB) 0 examples.ada [] examples.usersModel
           usersDB_users ada_encodable users_columns).
Defined.

Lemma unmarshal_keeps_the_field_type_witness :
  KindOf (VInt W8 44) = KindOf (VInt W8 0) /\
  (KindOf (VInt W8 0) <> KFloat32 -> inRange (VInt W8 44)).
Proof.
  apply (unmarshal_keeps_the_field_type
           (Some {| Value_Bytes := None; Value_Integer := Some 300%Z;
                    Value_Checksum := None |})
           (VInt W8 0) (VInt W8 44)).
  reflexivity.
Defined.

Lemma GetStruct_decoder_restores_or_resets_witness :
  GetStruct_Post (IPtr 0 examples.only42) 1 (GetResponse None)
    {[0 := HStruct examples.ada]} =
  Ok (<[0 := HStruct (SetFieldByIndex examples.ada 1
                        (ZeroOf (FieldByIndex examples.ada 1)))]>
        {[0 := HStruct examples.ada]}).
Proof.
  apply (GetStruct_decoder_restores_or_resets (RL := reference_facts.refRuntime_laws)
           0 examples.only42 examples.ada 1 {[0 := HStruct examples.ada]}).
  vm_compute. reflexivity.
Defined.

Lemma IncStruct_enqueues_one_increment_witness :
  IncStruct (NewBatch examples.usersDB) (IPtr 0 examples.ada) 5 "name" =
  withCalls (NewBatch examples.usersDB)
    [{| Call_Args := IncrementRequest (cellKey examples.usersModel examples.ada "name") 5;
        Call_Post := Some (IncStruct_Post (IPtr 0 examples.ada) 1) |}] 1.
Proof.
  apply (IncStruct_enqueues_one_increment (EL := reference_facts.refEncoding_laws)
           (NewBatch examples.usersDB) 0 examples.ada 5 "name" examples.usersModel 1
           usersDB_users ada_encodable).
  reflexivity.
Defined.

Lemma ScanStruct_enqueues_one_scan_witness :
  ScanStruct (NewBatch examples.usersDB) (DSlicePtr 0 (Struct examples.UserT))
    (IStruct examples.only42) (IStruct examples.bob) 10 [] =
  withCalls (NewBatch examples.usersDB)
    [{| Call_Args := ScanRequest (rowPrefix examples.usersModel examples.only42)
                       (rowPrefix examples.usersModel examples.bob) 10;
        Call_Post := Some (ScanStruct_Post examples.usersModel 0 examples.UserT false []) |}]
    0.
Proof.
  apply (proj2 (proj2 (ScanStruct_enqueues_one_scan (EL := reference_facts.refEncoding_laws)
                         (NewBatch examples.usersDB) 0 (Struct examples.UserT)
                         (IStruct examples.only42) (IStruct examples.bob) 10 []
                         examples.usersModel usersDB_users))).
  - reflexivity.
  - reflexivity.
  - repeat constructor. exists 0. split; [reflexivity | discriminate].
  - repeat constructor. exists 0. split; [reflexivity | discriminate].
Defined.

Lemma ScanStruct_decoder_rejects_foreign_pairs_witness :
  ScanStruct_Post examples.usersModel 0 examples.UserT false []
    (ScanResponse
       [{| KeyValue_Key := rowPrefix groupsModel examples.ada ++ list_byte_of_string "name";
           KeyValue_Value := mkValue None None None |}])
    {[0 := HSlice []]} =
  Err (ErrUnexpectedTable "users" (list_byte_of_string "groups")).
Proof.
  assert (Hl : ({[0 := HSlice []]} : Heap) !! 0 = Some (HSlice []))
    by (vm_compute; reflexivity).
  apply (proj1 (ScanStruct_decoder_rejects_foreign_pairs
                  (EL := reference_facts.refEncoding_laws)
                  (RL := reference_facts.refRuntime_laws)
                  examples.usersModel 0 examples.UserT false [] examples.ada
                  (mkValue None None None) [] {[0 := HSlice []]} [] Hl)
               groupsModel (list_byte_of_string "name")).
  discriminate.
Defined.

End adapter_facts.
